(** * A shallow embedding of the capslock capability analyzer

    This development models the capability-propagation core of
    [analyzer/analyzer.go] (node classification, the derived-capability
    scanners, the capability merger, the per-capability reverse BFS of
    [forEachPath] and the aggregators built on it) together with the
    environment-read scanners of [analyzer/env.go] and of the analyzer
    variant found in [testpkgs/getenv/getenv.go].

    Go maps are modelled with stdpp's [gmap] and [gset]; wherever the Go
    code iterates over a map, the iteration order is an explicit list, so
    that the effect of Go's randomised map order can be stated. *)

From stdpp Require Import base gmap sets list strings.
From Stdlib Require Import String Ascii Lia Sorted ZArith.
From Stdlib Require OrdersEx.

Local Open Scope string_scope.

(* ------------------------------------------------------------------ *)
(** ** Capabilities (proto/capability.proto) *)

Inductive Capability :=
| CAPABILITY_UNSPECIFIED
| CAPABILITY_SAFE
| CAPABILITY_FILES
| CAPABILITY_NETWORK
| CAPABILITY_RUNTIME
| CAPABILITY_READ_SYSTEM_STATE
| CAPABILITY_MODIFY_SYSTEM_STATE
| CAPABILITY_OPERATING_SYSTEM
| CAPABILITY_SYSTEM_CALLS
| CAPABILITY_ARBITRARY_EXECUTION
| CAPABILITY_CGO
| CAPABILITY_UNANALYZED
| CAPABILITY_UNSAFE_POINTER
| CAPABILITY_REFLECT
| CAPABILITY_EXEC
| CAPABILITY_READ_ENVIRONMENT.

(** The enum number of each value, as declared in the .proto file. *)
Definition Capability_enum (c : Capability) : nat :=
  match c with
  | CAPABILITY_UNSPECIFIED => 0
  | CAPABILITY_SAFE => 1
  | CAPABILITY_FILES => 2
  | CAPABILITY_NETWORK => 3
  | CAPABILITY_RUNTIME => 4
  | CAPABILITY_READ_SYSTEM_STATE => 5
  | CAPABILITY_MODIFY_SYSTEM_STATE => 6
  | CAPABILITY_OPERATING_SYSTEM => 7
  | CAPABILITY_SYSTEM_CALLS => 8
  | CAPABILITY_ARBITRARY_EXECUTION => 9
  | CAPABILITY_CGO => 10
  | CAPABILITY_UNANALYZED => 11
  | CAPABILITY_UNSAFE_POINTER => 12
  | CAPABILITY_REFLECT => 13
  | CAPABILITY_EXEC => 14
  | CAPABILITY_READ_ENVIRONMENT => 15
  end.

Definition Capability_of_enum (n : nat) : Capability :=
  match n with
  | 0 => CAPABILITY_UNSPECIFIED
  | 1 => CAPABILITY_SAFE
  | 2 => CAPABILITY_FILES
  | 3 => CAPABILITY_NETWORK
  | 4 => CAPABILITY_RUNTIME
  | 5 => CAPABILITY_READ_SYSTEM_STATE
  | 6 => CAPABILITY_MODIFY_SYSTEM_STATE
  | 7 => CAPABILITY_OPERATING_SYSTEM
  | 8 => CAPABILITY_SYSTEM_CALLS
  | 9 => CAPABILITY_ARBITRARY_EXECUTION
  | 10 => CAPABILITY_CGO
  | 11 => CAPABILITY_UNANALYZED
  | 12 => CAPABILITY_UNSAFE_POINTER
  | 13 => CAPABILITY_REFLECT
  | 14 => CAPABILITY_EXEC
  | _ => CAPABILITY_READ_ENVIRONMENT
  end.

#[global] Instance Capability_eq_dec : EqDecision Capability.
Proof. solve_decision. Defined.

#[global] Instance Capability_countable : Countable Capability.
Proof.
  apply (inj_countable' Capability_enum Capability_of_enum).
  intros []; reflexivity.
Defined.

Inductive CapabilityType :=
| CAPABILITY_TYPE_UNSPECIFIED
| CAPABILITY_TYPE_DIRECT
| CAPABILITY_TYPE_TRANSITIVE.

(* ------------------------------------------------------------------ *)
(** ** The call graph *)

(** A call-graph node is identified by a number (the [*callgraph.Node]
    pointer). *)
Definition Node := nat.

(** [*callgraph.Edge]: caller, callee and the call site. *)
Record Edge := mkEdge {
  Caller : Node;
  Callee : Node;
  Site : nat;
}.

(** The parts of an [*ssa.Function] the analyzer reads.
    [Func_pkgPath] is [Package().Pkg.Path()] ([None] when [Package()] or
    [Pkg] is nil); [Func_origin] is [Origin()] as
    (its package path, its [String()]); [Func_pos] is the source position
    (file, line, column), all zero when absent. *)
Record Func := mkFunc {
  Func_pkgPath : option string;
  Func_pkgName : string;
  Func_name : string;
  Func_origin : option (option string * string);
  Func_pos : string * nat * nat;
  Func_hasBlocks : bool;
  Func_synthetic : string;
}.

(** [*callgraph.Graph]: the keys of [graph.Nodes] in a map iteration
    order, the function of each node ([v.Func], possibly nil) and its
    incoming edges [v.In] in slice order. *)
Record Graph := mkGraph {
  graph_nodes : list Node;
  node_func : Node -> option Func;
  node_in : Node -> list Edge;
}.

(** The [Classifier] interface. *)
Record Classifier := mkClassifier {
  FunctionCategory : string -> string -> Capability;
  IncludeCall : Edge -> bool;
}.

(** [v.Func.Package() != nil] and the package is in [queriedPackages]
    (packages are identified by their path). *)
Definition inQueried (g : Graph) (queried : gset string) (v : Node) : bool :=
  match node_func g v with
  | Some f =>
      match Func_pkgPath f with
      | Some p => bool_decide (p ∈ queried)
      | None => false
      end
  | None => false
  end.

(* ------------------------------------------------------------------ *)
(** ** Nodesets *)

(** Modelled from the spec: the method [nodesetPerCapability.add] (not in
    src/) adds a node to the nodeset of a capability, creating the set
    when the capability has none ("Per-capability nodeset map: mapping
    capability -> nodeset"). *)
Definition nodeset_add (m : gmap Capability (gset Node)) (c : Capability)
    (v : Node) : gmap Capability (gset Node) :=
  <[c := {[v]} ∪ default ∅ (m !! c)]> m.

(** [nodesByCapability[c]]: a missing key reads as the empty set. *)
Definition lookupSet (m : gmap Capability (gset Node)) (c : Capability)
    : gset Node :=
  default ∅ (m !! c).

(* ------------------------------------------------------------------ *)
(** ** Node classification ([getNodeCapabilities]) *)

(** The category of one function: its own package and name, or, when it
    has no package, those of its generic origin; [None] is the
    [continue] of the Go loop. *)
Definition classifyFunc (cl : Classifier) (f : Func) : option Capability :=
  match Func_pkgPath f with
  | Some pkg => Some (FunctionCategory cl pkg (Func_name f))
  | None =>
      match Func_origin f with
      | Some (Some opkg, oname) => Some (FunctionCategory cl opkg oname)
      | _ => None
      end
  end.

Definition getNodeCapabilities_step (g : Graph) (cl : Classifier)
    (acc : gset Node * gmap Capability (gset Node)) (v : Node)
    : gset Node * gmap Capability (gset Node) :=
  let '(safe, nbc) := acc in
  match node_func g v with
  | None => acc
  | Some f =>
      match classifyFunc cl f with
      | None => acc
      | Some CAPABILITY_SAFE => ({[v]} ∪ safe, nbc)
      | Some CAPABILITY_UNSPECIFIED => acc
      | Some c => (safe, nodeset_add nbc c v)
      end
  end.

(** [getNodeCapabilities], iterating [graph.Nodes] in the order [order]. *)
Definition getNodeCapabilities_in (order : list Node) (g : Graph)
    (cl : Classifier) : gset Node * gmap Capability (gset Node) :=
  foldl (getNodeCapabilities_step g cl) (∅, ∅) order.

Definition getNodeCapabilities (g : Graph) (cl : Classifier) :=
  getNodeCapabilities_in (graph_nodes g) g cl.

(* ------------------------------------------------------------------ *)
(** ** Iteration orders of Go maps *)

(** The iteration orders of the Go maps ranged over in one run:
    [graph.Nodes], the capabilities of a [nodesetPerCapability], and the
    elements of a nodeset (or of a set of functions, by their nodes). *)
Record MapOrder := mkMapOrder {
  order_graphNodes : list Node;
  order_caps : gmap Capability (gset Node) -> list Capability;
  order_nodes : gset Node -> list Node;
}.

Definition canonicalOrder (g : Graph) : MapOrder :=
  mkMapOrder (graph_nodes g) (fun m => map fst (map_to_list m)) elements.

(** Possible iteration orders: each range yields the keys of its map. *)
Definition validIterators (o : MapOrder) : Prop :=
  (forall m, order_caps o m ≡ₚ map fst (map_to_list m)) /\
  (forall s, order_nodes o s ≡ₚ elements s).

Definition validOrder (g : Graph) (o : MapOrder) : Prop :=
  order_graphNodes o ≡ₚ graph_nodes g /\ validIterators o.

(** Another admissible order: every range in reverse canonical order. *)
Definition reversedOrder (g : Graph) : MapOrder :=
  mkMapOrder (rev (graph_nodes g)) (fun m => rev (map fst (map_to_list m)))
    (fun s => rev (elements s)).

(* ------------------------------------------------------------------ *)
(** ** Derived capabilities ([getExtraNodesByCapability]) *)

(** The reflect-escape pass and the unsafe-pointer pass are IR and AST
    analyses; their findings are given as the nodes of the functions they
    report ([reflectFns], [unsafeFns]).  As in Go, a finding is added only
    when [graph.Nodes[f]] exists, that is for a graph node whose function
    is [f].  The assembly pass is modelled in full:
    a node whose function has no blocks and no synthetic marker gets
    ARBITRARY_EXECUTION. *)
Definition addFound_step (g : Graph) (c : Capability)
    (m : gmap Capability (gset Node)) (v : Node) : gmap Capability (gset Node) :=
  if bool_decide (v ∈ graph_nodes g) && bool_decide (is_Some (node_func g v))
  then nodeset_add m c v else m.

(** The findings [found], ranged over in the order [foundOrder]. *)
Definition addFound (g : Graph) (c : Capability) (foundOrder : list Node)
    (m : gmap Capability (gset Node)) : gmap Capability (gset Node) :=
  foldl (addFound_step g c) m foundOrder.

Definition asm_step (g : Graph) (m : gmap Capability (gset Node)) (v : Node)
    : gmap Capability (gset Node) :=
  match node_func g v with
  | Some f =>
      if Func_hasBlocks f then m
      else if bool_decide (Func_synthetic f <> "") then m
      else nodeset_add m CAPABILITY_ARBITRARY_EXECUTION v
  | None => m
  end.

Definition getExtraNodesByCapability_in (o : MapOrder) (g : Graph)
    (reflectFns unsafeFns : gset Node) : gmap Capability (gset Node) :=
  let m := addFound g CAPABILITY_REFLECT (order_nodes o reflectFns) ∅ in
  let m := addFound g CAPABILITY_UNSAFE_POINTER (order_nodes o unsafeFns) m in
  foldl (asm_step g) m (order_graphNodes o).

(** The parts of [Config] read by the core.  [Granularity] is the Go
    enum [GranularityUnset, GranularityPackage, GranularityFunction,
    GranularityIntermediate] (declared outside src/). *)
Inductive Granularity :=
| GranularityUnset
| GranularityPackage
| GranularityFunction
| GranularityIntermediate.

Record Config := mkConfig {
  cfg_Classifier : Classifier;
  cfg_DisableBuiltin : bool;
  cfg_Granularity : Granularity;
  cfg_CapabilitySet : option (list Capability);
  cfg_OmitPaths : bool;
}.

(** [getPackageNodesWithCapability]: (safe, nodesByCapability,
    extraNodesByCapability). *)
Definition getPackageNodesWithCapability_in (o : MapOrder) (g : Graph)
    (reflectFns unsafeFns : gset Node) (cfg : Config)
    : gset Node * gmap Capability (gset Node) * gmap Capability (gset Node) :=
  let '(safe, nbc) := getNodeCapabilities_in (order_graphNodes o) g (cfg_Classifier cfg) in
  let extra := if cfg_DisableBuiltin cfg then ∅
               else getExtraNodesByCapability_in o g reflectFns unsafeFns in
  (safe, nbc, extra).

(* ------------------------------------------------------------------ *)
(** ** The capability merger ([mergeCapabilities]) *)

(** [for _, nodes := range nodesByCapability { for v := range nodes {
    allNodesWithExplicitCapability[v] = struct{}{} } }]. *)
Definition allNodesWithExplicitCapability (o : MapOrder)
    (nbc : gmap Capability (gset Node)) : gset Node :=
  foldl (fun acc c =>
           foldl (fun acc v => {[v]} ∪ acc) acc (order_nodes o (lookupSet nbc c)))
        ∅ (order_caps o nbc).

Definition merge_one (expl : gset Node) (cap : Capability)
    (m : gmap Capability (gset Node)) (node : Node) : gmap Capability (gset Node) :=
  if bool_decide (node ∈ expl) then m else nodeset_add m cap node.

(** [for cap, ns := range extraNodesByCapability { for node := range ns
    { ... } }]. *)
Definition mergeCapabilities (o : MapOrder) (nbc extra : gmap Capability (gset Node))
    : gmap Capability (gset Node) * gset Node :=
  let expl := allNodesWithExplicitCapability o nbc in
  (foldl (fun m cap => foldl (merge_one expl cap) m (order_nodes o (lookupSet extra cap)))
         nbc (order_caps o extra),
   expl).

(** The explicit category a node receives from [getNodeCapabilities]
    ([None] for nodes skipped, safe or unspecified). *)
Definition explicitCap (g : Graph) (cl : Classifier) (v : Node)
    : option Capability :=
  match node_func g v with
  | Some f =>
      match classifyFunc cl f with
      | Some CAPABILITY_SAFE => None
      | Some CAPABILITY_UNSPECIFIED => None
      | Some c => Some c
      | None => None
      end
  | None => None
  end.

Definition isSafeNode (g : Graph) (cl : Classifier) (v : Node) : bool :=
  match node_func g v with
  | Some f =>
      match classifyFunc cl f with
      | Some CAPABILITY_SAFE => true
      | _ => false
      end
  | None => false
  end.

(** The first three statements of [forEachPath]: classification, derived
    scanners and merger, giving (safe, nodesByCapability,
    allNodesWithExplicitCapability). *)
Definition classifyAndMerge_in (o : MapOrder) (g : Graph)
    (reflectFns unsafeFns : gset Node) (cfg : Config)
    : gset Node * gmap Capability (gset Node) * gset Node :=
  let '(safe, nbc, extra) :=
    getPackageNodesWithCapability_in o g reflectFns unsafeFns cfg in
  let '(merged, expl) := mergeCapabilities o nbc extra in
  (safe, merged, expl).

Definition classifyAndMerge (g : Graph) (reflectFns unsafeFns : gset Node)
    (cfg : Config) :=
  classifyAndMerge_in (canonicalOrder g) g reflectFns unsafeFns cfg.

(* ------------------------------------------------------------------ *)
(** ** A small call graph: a safe function implemented in assembly *)

(** [math.archSqrt]-like function: classified safe by its package, with
    no IR blocks and no synthetic marker (an assembly body). *)
Definition asmSafeFunc : Func :=
  mkFunc (Some "math") "math" "math.archSqrt" None ("", 0, 0) false "".

Definition asmSafeGraph : Graph :=
  mkGraph [1] (fun v => if Nat.eqb v 1 then Some asmSafeFunc else None)
          (fun _ => []).

Definition mathSafeClassifier : Classifier :=
  mkClassifier
    (fun pkg _ => if String.eqb pkg "math" then CAPABILITY_SAFE
                  else CAPABILITY_UNSPECIFIED)
    (fun _ => true).

Definition functionConfig (cl : Classifier) : Config :=
  mkConfig cl false GranularityFunction None false.

(* ------------------------------------------------------------------ *)
(** ** Ordering: [funcCompare], [byFunction], [byCaller], [sort.Sort] *)

Definition lexCompare (c1 c2 : comparison) : comparison :=
  match c1 with
  | Eq => c2
  | _ => c1
  end.

(** Modelled from the spec: [funcCompare] (not in src/) orders functions
    by (package-path, symbol, position) (spec section 4.8); the key of a
    node without a function is the zero key. *)
Definition funcKey (g : Graph) (v : Node) : string * (string * (string * (nat * nat))) :=
  match node_func g v with
  | Some f =>
      let '(file, line, col) := Func_pos f in
      (default "" (Func_pkgPath f), (Func_name f, (file, (line, col))))
  | None => ("", ("", ("", (0, 0))))
  end.

Definition pairCompare {A B} (ca : A -> A -> comparison) (cb : B -> B -> comparison)
    (x y : A * B) : comparison :=
  lexCompare (ca x.1 y.1) (cb x.2 y.2).

Definition keyCompare :=
  pairCompare String.compare
    (pairCompare String.compare (pairCompare String.compare
      (pairCompare Nat.compare Nat.compare))).

Definition funcCompare (g : Graph) (a b : Node) : comparison :=
  keyCompare (funcKey g a) (funcKey g b).

(** [byFunction]'s [Less]. *)
Definition funcLess (g : Graph) (a b : Node) : bool :=
  match funcCompare g a b with Lt => true | _ => false end.

(** Modelled from the spec: [byCaller]'s [Less] (not in src/) compares
    edges by caller key, then callee key. *)
Definition byCallerLess (g : Graph) (e1 e2 : Edge) : bool :=
  match lexCompare (funcCompare g (Caller e1) (Caller e2))
                   (funcCompare g (Callee e1) (Callee e2)) with
  | Lt => true
  | _ => false
  end.

Definition capLess (a b : Capability) : bool :=
  Nat.ltb (Capability_enum a) (Capability_enum b).

(** [sort.Sort] / [sort.Slice] with the given [Less]: insertion sort, the
    algorithm Go's sort uses on short inputs.  Each element is moved left
    past the elements it is less than. *)
Fixpoint insertBy {A} (less : A -> A -> bool) (x : A) (l : list A) : list A :=
  match l with
  | [] => [x]
  | y :: l' => if less x y then x :: y :: l' else y :: insertBy less x l'
  end.

Definition sortBy {A} (less : A -> A -> bool) (l : list A) : list A :=
  foldl (fun acc x => insertBy less x acc) [] l.

(** A comparison function that is a strict total order. *)
Definition CmpOrder {A} (cmp : A -> A -> comparison) : Prop :=
  (forall x y, cmp x y = Eq -> x = y) /\
  (forall x y, cmp y x = CompOpp (cmp x y)) /\
  (forall x y z, cmp x y = Lt -> cmp y z = Lt -> cmp x z = Lt).

(** The spec's assumption that the function key orders the functions
    totally: distinct functions of the graph have distinct keys. *)
Definition funcKeyInjective (g : Graph) : Prop :=
  forall v w, v ∈ graph_nodes g -> w ∈ graph_nodes g ->
  is_Some (node_func g v) -> is_Some (node_func g w) ->
  funcKey g v = funcKey g w -> v = w.

(* ------------------------------------------------------------------ *)
(** ** The per-capability reverse BFS of [forEachPath] *)

(** [bfsState]: the incoming edge by which the BFS first reached a node
    ([None]: the zero value, for BFS roots). *)
Definition bfsState := option Edge.

(** One call of the aggregator callback [fn(cap, visited, v)], with the
    visited map as it is at the time of the call. *)
Record Event := mkEvent {
  ev_cap : Capability;
  ev_state : gmap Node bfsState;
  ev_node : Node;
}.

(** The BFS variables: [visited], the queue [q], and the callbacks made
    so far. *)
Record BfsSt := mkBfsSt {
  st_visited : gmap Node bfsState;
  st_queue : list Node;
  st_trace : list Event;
}.

Section ForEachCapability.
Variable g : Graph.
Variable cl : Classifier.
Variable queried : gset string.
Variables safe allNodesWithExplicitCapability : gset Node.
Variable cap : Capability.

(** The body of [for _, edge := range incomingEdges] (lines 762-786). *)
Definition visitEdge (st : BfsSt) (edge : Edge) : BfsSt :=
  let w := Caller edge in
  match node_func g w with
  | None => st
  | Some _ =>
      if bool_decide (w ∈ safe) then st else
      match st_visited st !! w with
      | Some _ => st
      | None =>
          if bool_decide (w ∈ allNodesWithExplicitCapability) then st else
          let visited := <[w := Some edge]> (st_visited st) in
          mkBfsSt visited (st_queue st ++ [w])
            (if inQueried g queried w
             then st_trace st ++ [mkEvent cap visited w]
             else st_trace st)
      end
  end.

(** The incoming edges of [v] accepted by [IncludeCall], sorted
    [byCaller]. *)
Definition incomingEdges (v : Node) : list Edge :=
  sortBy (byCallerLess g) (List.filter (IncludeCall cl) (node_in g v)).

(** [for len(q) > 0 { v := q[0]; q = q[1:]; ... }], run for at most
    [fuel] rounds. *)
Fixpoint bfsLoop (fuel : nat) (st : BfsSt) : BfsSt :=
  match fuel with
  | 0 => st
  | S fuel' =>
      match st_queue st with
      | [] => st
      | v :: q =>
          bfsLoop fuel'
            (foldl visitEdge (mkBfsSt (st_visited st) q (st_trace st))
               (incomingEdges v))
      end
  end.

(** The roots, [nodes] without the safe nodes, iterated in [order]. *)
Definition initialVisited (order : list Node) : gmap Node bfsState :=
  foldl (fun m v => if bool_decide (v ∈ safe) then m else <[v := None]> m)
        ∅ order.

Definition rootQueue (order : list Node) : list Node :=
  sortBy (funcLess g) (List.filter (fun v => negb (bool_decide (v ∈ safe))) order).

(** The callbacks for roots of queried packages (lines 738-749). *)
Definition rootEvents (order : list Node) : list Event :=
  map (fun v => mkEvent cap (initialVisited order) v)
      (List.filter (inQueried g queried) (rootQueue order)).

(** One iteration of the capability loop of [forEachPath]. *)
Definition forEachCapability (fuel : nat) (order : list Node) : BfsSt :=
  bfsLoop fuel (mkBfsSt (initialVisited order) (rootQueue order)
                        (rootEvents order)).
End ForEachCapability.

(** Every node enters the queue at most once, so [|graph.Nodes| + 1]
    rounds empty it. *)
Definition bfsFuel (g : Graph) : nat := S (List.length (graph_nodes g)).

(** [forEachPath]: the sequence of callbacks of one run. *)
Definition forEachPath_in (o : MapOrder) (g : Graph) (reflectFns unsafeFns : gset Node)
    (queried : gset string) (cfg : Config) : list Event :=
  let '(safe, nbc, expl) :=
    classifyAndMerge_in o g reflectFns unsafeFns cfg in
  let caps := sortBy capLess (order_caps o nbc) in
  List.concat
    (map (fun c => st_trace (forEachCapability g (cfg_Classifier cfg) queried safe expl c
                              (bfsFuel g) (order_nodes o (lookupSet nbc c))))
         caps).

Definition forEachPath (g : Graph) (reflectFns unsafeFns : gset Node)
    (queried : gset string) (cfg : Config) : list Event :=
  forEachPath_in (canonicalOrder g) g reflectFns unsafeFns queried cfg.

(** The BFS of capability [c] in a run with the canonical orders. *)
Definition capabilityBfs (g : Graph) (reflectFns unsafeFns : gset Node)
    (queried : gset string) (cfg : Config) (c : Capability) : BfsSt :=
  let '(safe, nbc, expl) := classifyAndMerge g reflectFns unsafeFns cfg in
  forEachCapability g (cfg_Classifier cfg) queried safe expl c (bfsFuel g)
    (elements (lookupSet nbc c)).

(* ------------------------------------------------------------------ *)
(** ** Result aggregators *)

#[global] Instance Granularity_eq_dec : EqDecision Granularity.
Proof. solve_decision. Defined.

(** Modelled from the spec: [bfsState.next] (not in src/) follows the
    predecessor tree: the callee of the recorded edge, nil for a root or
    for a node absent from the map (its zero value). *)
Definition bfsNext (s : option bfsState) : option Node :=
  match s with
  | Some (Some e) => Some (Callee e)
  | _ => None
  end.

(** [nodes[v].edge]. *)
Definition bfsEdge (s : option bfsState) : option Edge :=
  match s with
  | Some e => e
  | None => None
  end.

(** [v.Func.Package().Pkg.Path()] and [.Name()]. *)
Definition funcPkgPath (g : Graph) (v : Node) : string :=
  match node_func g v with
  | Some f => default "" (Func_pkgPath f)
  | None => ""
  end.

Definition funcPkgName (g : Graph) (v : Node) : string :=
  match node_func g v with
  | Some f => Func_pkgName f
  | None => ""
  end.

Definition funcName (g : Graph) (v : Node) : string :=
  match node_func g v with
  | Some f => Func_name f
  | None => ""
  end.

(** Modelled from the spec: [packagePath] (not in src/) is the import
    path of the package a function belongs to ("" without a package). *)
Definition packagePath (g : Graph) (v : Node) : string :=
  funcPkgPath g v.

(** Modelled from the spec: [isStdLib] (not in src/) recognises the
    standard-library packages, "identified by a fixed prefix list
    supplied by the classifier oracle". *)
Definition isStdLib (stdPrefixes : list string) (p : string) : bool :=
  existsb (fun pre => String.prefix pre p) stdPrefixes.

(** [cpb.CapabilityInfo]; a path entry is what [addFunction] records
    for a node and the edge by which the path reached it. *)
Record CapabilityInfo := mkCapabilityInfo {
  ci_capability : Capability;
  ci_packageDir : string;
  ci_packageName : string;
  ci_capabilityType : CapabilityType;
  ci_path : list (Node * option Edge);
  ci_depPath : option string;
}.

Section Aggregators.
Variable g : Graph.
Variable stdPrefixes : list string.

(** The path loop of the [GetCapabilityInfo] callback (lines 105-121),
    returning [n], [ctype] and [c.Path]. *)
Fixpoint capabilityInfoLoop (fuel : nat) (nodes : gmap Node bfsState)
    (omitPaths functionGranularity : bool) (i : nat) (n : string)
    (ctype : CapabilityType) (path : list (Node * option Edge))
    (incomingEdge : option Edge) (v : Node)
    : string * CapabilityType * list (Node * option Edge) :=
  match fuel with
  | 0 => (n, ctype, path)
  | S fuel' =>
      let path := if negb omitPaths || (Nat.eqb i 0 && functionGranularity)
                  then (path ++ [(v, incomingEdge)])%list else path in
      let n := if Nat.eqb i 0 then funcPkgPath g v else n in
      let ctype := if Nat.eqb i 0 then CAPABILITY_TYPE_DIRECT else ctype in
      let pName := packagePath g v in
      let ctype := if negb (String.eqb n pName) && negb (isStdLib stdPrefixes pName)
                   then CAPABILITY_TYPE_TRANSITIVE else ctype in
      match bfsNext (nodes !! v) with
      | None => (n, ctype, path)
      | Some w =>
          capabilityInfoLoop fuel' nodes omitPaths functionGranularity (S i) n ctype
            path (bfsEdge (nodes !! v)) w
      end
  end.

(** The functions visited by the path loop of the [GetCapabilityInfo]
    callback (lines 105-121) from [v], in order: [v], then
    [nodes[v].next], and so on up to the root of the BFS, with the same
    fuel as the loop. This is the witness path of the record, whether or
    not [OmitPaths] keeps it in [c.Path]. *)
Fixpoint bfsChain (fuel : nat) (nodes : gmap Node bfsState) (v : Node) : list Node :=
  match fuel with
  | 0 => []
  | S fuel' =>
      v :: match bfsNext (nodes !! v) with
           | None => []
           | Some w => bfsChain fuel' nodes w
           end
  end.

(** The [GetCapabilityInfo] callback for [(cap, nodes, v)]. *)
Definition capabilityInfoOf (cfg : Config) (cap : Capability)
    (nodes : gmap Node bfsState) (v : Node) : CapabilityInfo :=
  let '(_, ctype, path) :=
    capabilityInfoLoop (S (size nodes)) nodes (cfg_OmitPaths cfg)
      (bool_decide (cfg_Granularity cfg = GranularityFunction))
      0 "" CAPABILITY_TYPE_UNSPECIFIED [] None v in
  mkCapabilityInfo cap (funcPkgPath g v) (funcPkgName g v) ctype path
    (if cfg_OmitPaths cfg then None
     else Some (String.concat " " (map (fun p => funcName g p.1) path))).

(** The [sort.Slice] order on [(CapabilityInfo, function)] pairs. *)
Definition outputLess (a b : CapabilityInfo * Node) : bool :=
  let x := Capability_enum (ci_capability a.1) in
  let y := Capability_enum (ci_capability b.1) in
  if negb (Nat.eqb x y) then Nat.ltb x y else funcLess g a.2 b.2.

(** [slices.DeleteFunc(caps, del)]: keep the first entry of each
    (capability, package) pair. *)
Fixpoint deletePackageDuplicates (seen : list (Capability * option string))
    (l : list (CapabilityInfo * Node)) : list (CapabilityInfo * Node) :=
  match l with
  | [] => []
  | o :: l' =>
      let k := (ci_capability o.1,
                match node_func g o.2 with Some f => Func_pkgPath f | None => None end) in
      if bool_decide (k ∈ seen) then deletePackageDuplicates seen l'
      else o :: deletePackageDuplicates (k :: seen) l'
  end.

(** The list built by [GetCapabilityInfo] for function and package
    granularity, from the callbacks of [forEachPath]. *)
Definition capabilityInfoList (cfg : Config) (trace : list Event)
    : list CapabilityInfo :=
  let caps := map (fun e => (capabilityInfoOf cfg (ev_cap e) (ev_state e) (ev_node e),
                             ev_node e)) trace in
  let caps := sortBy outputLess caps in
  let caps := if bool_decide (cfg_Granularity cfg = GranularityPackage)
              then deletePackageDuplicates [] caps else caps in
  map fst caps.

(** [CapabilityCounter]; the counts are [int64] in Go, which no run can
    overflow, and are [nat] here. *)
Record CapabilityCounter := mkCapabilityCounter {
  cc_capability : Capability;
  cc_count : nat;
  cc_direct_count : nat;
  cc_transitive_count : nat;
  cc_example : list (Node * option Edge);
}.

(** The path loop of the [GetCapabilityStats] callback (lines 196-213),
    returning [isDirect] and [e]. *)
Fixpoint statsPathLoop (fuel : nat) (nodes : gmap Node bfsState)
    (omitPaths : bool) (i : nat) (n : string) (isDirect : bool)
    (e : list (Node * option Edge)) (incomingEdge : option Edge) (v : Node)
    : bool * list (Node * option Edge) :=
  match fuel with
  | 0 => (isDirect, e)
  | S fuel' =>
      let e := if negb omitPaths || Nat.eqb i 0 then (e ++ [(v, incomingEdge)])%list else e in
      let n := if Nat.eqb i 0 then funcPkgPath g v else n in
      let pName := packagePath g v in
      let isDirect := if negb (String.eqb n pName) && negb (isStdLib stdPrefixes pName)
                      then false else isDirect in
      match bfsNext (nodes !! v) with
      | None => (isDirect, e)
      | Some w =>
          statsPathLoop fuel' nodes omitPaths (S i) n isDirect e
            (bfsEdge (nodes !! v)) w
      end
  end.

(** The [GetCapabilityStats] callback on the map [cm], keyed by
    capability ([cap.String()] in Go, one string per capability). *)
Definition statsCallback (cfg : Config) (cm : gmap Capability CapabilityCounter)
    (ev : Event) : gmap Capability CapabilityCounter :=
  let cap := ev_cap ev in
  let cm := match cm !! cap with
            | None => <[cap := mkCapabilityCounter cap 1 0 0 []]> cm
            | Some c => <[cap := mkCapabilityCounter (cc_capability c) (S (cc_count c))
                                   (cc_direct_count c) (cc_transitive_count c)
                                   (cc_example c)]> cm
            end in
  let '(isDirect, e) :=
    statsPathLoop (S (size (ev_state ev))) (ev_state ev) (cfg_OmitPaths cfg)
      0 "" true [] None (ev_node ev) in
  let cm := if isDirect then
              match cm !! cap with
              | None => <[cap := mkCapabilityCounter CAPABILITY_UNSPECIFIED 1 1 0 []]> cm
              | Some c => <[cap := mkCapabilityCounter (cc_capability c) (cc_count c)
                                     (S (cc_direct_count c)) (cc_transitive_count c)
                                     (cc_example c)]> cm
              end
            else
              match cm !! cap with
              | None => <[cap := mkCapabilityCounter CAPABILITY_UNSPECIFIED 1 0 1 []]> cm
              | Some c => <[cap := mkCapabilityCounter (cc_capability c) (cc_count c)
                                     (cc_direct_count c) (S (cc_transitive_count c))
                                     (cc_example c)]> cm
              end in
  match cm !! cap with
  | None => <[cap := mkCapabilityCounter CAPABILITY_UNSPECIFIED 0 0 0 e]> cm
  | Some c => <[cap := mkCapabilityCounter (cc_capability c) (cc_count c)
                         (cc_direct_count c) (cc_transitive_count c) e]> cm
  end.

(** [cpb.CapabilityStats]. *)
Record CapabilityStats := mkCapabilityStats {
  cs_capability : Capability;
  cs_count : nat;
  cs_direct_count : nat;
  cs_transitive_count : nat;
  cs_example : list (Node * option Edge);
}.

(** [GetCapabilityStats] from the callbacks of [forEachPath]. *)
Definition capabilityStatsList (cfg : Config) (trace : list Event)
    : list CapabilityStats :=
  let cm := foldl (statsCallback cfg) ∅ trace in
  let cs := map (fun kc : Capability * CapabilityCounter =>
                   let c := kc.2 in
                   mkCapabilityStats (cc_capability c) (cc_count c)
                     (cc_direct_count c) (cc_transitive_count c) (cc_example c))
                (map_to_list cm) in
  sortBy (fun a b => capLess (cs_capability a) (cs_capability b)) cs.
End Aggregators.

Definition GetCapabilityStats (g : Graph) (stdPrefixes : list string)
    (reflectFns unsafeFns : gset Node) (queried : gset string) (cfg : Config)
    : list CapabilityStats :=
  capabilityStatsList g stdPrefixes cfg (forEachPath g reflectFns unsafeFns queried cfg).

Section GetCapabilityInfo.
(** [intermediatePackages] (built on [CapabilityGraph] and the forward
    BFS) is not modelled; like every function it calls, it reads
    [config] and assigns none of its fields. *)
Variable intermediatePackages :
  MapOrder -> Graph -> gset Node -> gset Node -> gset string -> Config ->
  list CapabilityInfo.

(** [GetCapabilityInfo]: the caller's [Config] after the call, and the
    returned list. *)
Definition GetCapabilityInfo_in (o : MapOrder) (g : Graph) (stdPrefixes : list string)
    (reflectFns unsafeFns : gset Node) (queried : gset string) (config : Config)
    : Config * list CapabilityInfo :=
  let config :=
    if bool_decide (cfg_Granularity config = GranularityUnset)
    then mkConfig (cfg_Classifier config) (cfg_DisableBuiltin config)
           GranularityFunction (cfg_CapabilitySet config) (cfg_OmitPaths config)
    else config in
  if bool_decide (cfg_Granularity config = GranularityIntermediate)
  then (config, intermediatePackages o g reflectFns unsafeFns queried config)
  else (config, capabilityInfoList g stdPrefixes config
                  (forEachPath_in o g reflectFns unsafeFns queried config)).
End GetCapabilityInfo.

(* ------------------------------------------------------------------ *)
(** ** Invariants of the BFS state *)

(** Roots carry the zero state and come from [roots] without the safe
    nodes; every other visited node [w] was reached by an edge whose
    caller is [w], and [w] is neither safe nor explicitly classified. *)
Definition bfsInvariant (safe expl : gset Node) (roots : list Node)
    (vis : gmap Node bfsState) : Prop :=
  forall w s, vis !! w = Some s ->
    match s with
    | None => (w ∈ roots /\ w ∉ safe)
    | Some e => (Caller e = w /\ w ∉ safe /\ w ∉ expl)
    end.

(** The invariant of the whole BFS variables: on [visited] and on the
    snapshot passed to every callback, whose node is in that snapshot. *)
Definition bfsStInvariant (safe expl : gset Node) (roots : list Node) (cap : Capability)
    (st : BfsSt) : Prop :=
  bfsInvariant safe expl roots (st_visited st) /\
  Forall (fun ev => bfsInvariant safe expl roots (ev_state ev) /\
                    is_Some (ev_state ev !! ev_node ev) /\ ev_cap ev = cap)
         (st_trace st).

(* ------------------------------------------------------------------ *)
(** ** An example program

    [app.Run] calls [lib.Helper], which calls [os.ReadFile];
    [app.Direct] calls [os.ReadFile]; [app.Run] also calls
    [math.archSqrt], a safe function with an assembly body;
    [app.asmStub] is an assembly function of the queried package. *)

Definition exFunc (pkg name : string) (line : nat) (blocks : bool) : Func :=
  mkFunc (Some pkg) pkg name None ("f.go", line, 1) blocks "".

Definition exNodeFunc (v : Node) : option Func :=
  match v with
  | 1 => Some (exFunc "example.com/app" "app.Run" 1 true)
  | 2 => Some (exFunc "example.com/lib" "lib.Helper" 2 true)
  | 3 => Some (exFunc "os" "os.ReadFile" 3 true)
  | 4 => Some (exFunc "math" "math.archSqrt" 4 false)
  | 5 => Some (exFunc "example.com/app" "app.Direct" 5 true)
  | 6 => Some (exFunc "example.com/app" "app.asmStub" 6 false)
  | _ => None
  end.

Definition exNodeIn (v : Node) : list Edge :=
  match v with
  | 2 => [mkEdge 1 2 10]
  | 3 => [mkEdge 2 3 20; mkEdge 5 3 30]
  | 4 => [mkEdge 1 4 11]
  | _ => []
  end.

Definition exGraph : Graph := mkGraph [1; 2; 3; 4; 5; 6] exNodeFunc exNodeIn.

Definition exClassifier : Classifier :=
  mkClassifier
    (fun pkg _ => if String.eqb pkg "os" then CAPABILITY_FILES
                  else if String.eqb pkg "math" then CAPABILITY_SAFE
                  else CAPABILITY_UNSPECIFIED)
    (fun _ => true).

Definition exQueried : gset string := {["example.com/app"]}.

Definition exStdPrefixes : list string := ["os"; "math"].

Definition exConfig : Config := functionConfig exClassifier.

(** The number of callbacks for capability [k] in a sequence of
    callbacks. *)
Definition eventCount (tr : list Event) (k : Capability) : nat :=
  List.length (List.filter (fun ev => bool_decide (ev_cap ev = k)) tr).

(** The invariant of the statistics map after the callbacks [tr]. *)
Definition statsInv (cm : gmap Capability CapabilityCounter) (tr : list Event) : Prop :=
  (forall k, cm !! k = None -> eventCount tr k = 0) /\
  (forall k cc, cm !! k = Some cc ->
     cc_capability cc = k /\
     cc_direct_count cc + cc_transitive_count cc = cc_count cc /\
     cc_count cc = eventCount tr k).

(* ------------------------------------------------------------------ *)
(** ** The environment-read scanner

    [reportCallsReadingEnv] and [GetEnvReportInstance] exist in two
    versions: the one of [analyzer/env.go] (module [EnvGo]) and the one of
    [testpkgs/getenv/getenv.go] (module [GetenvGo]). Both share
    [isReadingEnv] and the AST below. *)

(** The Go AST as far as [isReadingEnv] and the callbacks inspect it;
    [BasicLit] holds [v.Value], the literal as written in the source
    (quotes or backquotes included); [Ident] holds the identifier's
    index in [TypesInfo.Uses]. *)
Inductive Expr :=
| BasicLit (value : string)
| Ident (id : nat)
| CallExpr (fn : Expr) (args : list Expr)
| SelectorExpr (x : Expr) (sel : string)
| OtherExpr.

Inductive AstNode :=
| ExprStmt (x : Expr)
| OtherNode.

(** [go/constant] values: string constants, and the others by their
    [String()] text. *)
Inductive ConstVal :=
| ConstString (s : string)
| ConstOther (repr : string).

(** The objects [TypesInfo.Uses] maps identifiers to. *)
Inductive Obj :=
| PkgName (importedPath : string)
| ConstObj (val : ConstVal)
| OtherObj.

(** A loaded package: its path, [TypesInfo.Uses], and the nodes
    [astutil.Apply] visits in the declarations of its files, in visiting
    order. *)
Record Package := mkPackage {
  pkg_path : string;
  pkg_uses : nat -> option Obj;
  pkg_nodes : list AstNode;
}.

(** Modelled from the spec: [forEachPackageIncludingDependencies] (not
    in src/) calls its callback once "for each package in the closure";
    the closure is given as the list of its packages. *)
Definition forEachPackageIncludingDependencies {S} (closure : list Package)
    (f : S -> Package -> S) (s : S) : S :=
  foldl f s closure.

(** [isReadingEnv]: [None] is [(nil, false)], [Some None] is the call to
    [Environ], [Some (Some a)] the single argument [a]. *)
Definition isReadingEnv (uses : nat -> option Obj) (node : AstNode)
    : option (option Expr) :=
  match node with
  | ExprStmt (CallExpr (SelectorExpr (Ident pkgIdent) name) args) =>
      match uses pkgIdent with
      | Some (PkgName pkgNamePath) =>
          if negb (String.eqb pkgNamePath "os") && negb (String.eqb pkgNamePath "syscall")
          then None
          else if negb (String.eqb name "Getenv") && negb (String.eqb name "Environ")
                  && negb (String.eqb name "LookupEnv")
          then None
          else if String.eqb name "Environ" then Some None
          else match args with
               | [a] => Some (Some a)
               | _ => None
               end
      | _ => None
      end
  | _ => None
  end.

(** The double quote and the backslash. *)
Definition dq : string := String (ascii_of_nat 34) EmptyString.
Definition bs : string := String (ascii_of_nat 92) EmptyString.

Definition hexDigit (n : nat) : ascii :=
  ascii_of_nat (if Nat.ltb n 10 then 48 + n else 87 + n).

(** [strconv.Quote] on one ASCII character. *)
Definition quoteChar (c : ascii) : string :=
  let n := nat_of_ascii c in
  if Nat.eqb n 34 then bs ++ dq
  else if Nat.eqb n 92 then bs ++ bs
  else if Nat.eqb n 7 then bs ++ "a"
  else if Nat.eqb n 8 then bs ++ "b"
  else if Nat.eqb n 12 then bs ++ "f"
  else if Nat.eqb n 10 then bs ++ "n"
  else if Nat.eqb n 13 then bs ++ "r"
  else if Nat.eqb n 9 then bs ++ "t"
  else if Nat.eqb n 11 then bs ++ "v"
  else if Nat.ltb n 32 || Nat.eqb n 127
  then bs ++ String "x" (String (hexDigit (n / 16)) (String (hexDigit (n mod 16)) EmptyString))
  else String c EmptyString.

Fixpoint quoteBody (s : string) : string :=
  match s with
  | EmptyString => EmptyString
  | String c s' => quoteChar c ++ quoteBody s'
  end.

(** [strconv.Quote], for ASCII strings. *)
Definition strconvQuote (s : string) : string := dq ++ quoteBody s ++ dq.

(** [constant.Value.String()]: a string constant is quoted and, past
    [maxLen = 72] characters, cut to its first 69 followed by "...". *)
Definition constantString (v : ConstVal) : string :=
  match v with
  | ConstString s =>
      let q := strconvQuote s in
      if Nat.ltb 72 (String.length q) then substring 0 69 q ++ "..." else q
  | ConstOther repr => repr
  end.

(** [removePrefix], [removePostfix] and [trimQuotes]. *)
Definition removePrefix (s l : string) : string :=
  if Nat.ltb (String.length s) (String.length l)
     || negb (String.eqb (substring 0 (String.length l) s) l)
  then s
  else substring (String.length l) (String.length s - String.length l) s.

Definition removePostfix (s l : string) : string :=
  if Nat.ltb (String.length s) (String.length l)
     || negb (String.eqb (substring (String.length s - String.length l)
                                    (String.length l) s) l)
  then s
  else substring 0 (String.length s - String.length l) s.

Definition trimQuotes (s : string) : string :=
  removePrefix (removePostfix s dq) dq.

Definition DYNAMIC : string := "=DYNAMIC=".

(** [analyzer/env.go]: the report is a set of names and a [uint] count
    of dynamic reads; the package-level [envReport] is [None] while nil. *)
Module EnvGo.
Record EnvReport := mkEnvReport {
  envVars : gset string;
  dynamicCount : N;
}.

(** [GetEnvReportInstance]: the report, and the global after the call. *)
Definition GetEnvReportInstance (envReport : option EnvReport) : EnvReport :=
  match envReport with
  | Some r => r
  | None => mkEnvReport ∅ 0
  end.

Definition addVar (envReport : option EnvReport) (k : string) : option EnvReport :=
  let r := GetEnvReportInstance envReport in
  Some (mkEnvReport ({[k]} ∪ envVars r) (dynamicCount r)).

Definition addDynamic (envReport : option EnvReport) : option EnvReport :=
  let r := GetEnvReportInstance envReport in
  Some (mkEnvReport (envVars r) (N.modulo (dynamicCount r + 1) (2 ^ 64))).

(** The [pre] callback (lines 186-217) on the global [envReport]. *)
Definition pre (p : Package) (envReport : option EnvReport) (node : AstNode)
    : option EnvReport :=
  match isReadingEnv (pkg_uses p) node with
  | None => envReport
  | Some None => addDynamic envReport
  | Some (Some (BasicLit value)) => addVar envReport value
  | Some (Some (Ident id)) =>
      match pkg_uses p id with
      | Some (ConstObj v) => addVar envReport (constantString v)
      | Some _ => addDynamic envReport
      | None => envReport
      end
  | Some (Some _) => addDynamic envReport
  end.

Definition reportCallsReadingEnv (pkgs : list Package) (envReport : option EnvReport)
    : option EnvReport :=
  forEachPackageIncludingDependencies pkgs
    (fun st p => foldl (pre p) st (pkg_nodes p)) envReport.
End EnvGo.

(** [testpkgs/getenv/getenv.go]: the report maps each package (by its
    path; Go keys it by the [*packages.Package]) to its set of names. *)
Module GetenvGo.
Notation EnvReport := (gmap string (gset string)).

Definition GetEnvReportInstance (envReport : option EnvReport) : EnvReport :=
  match envReport with
  | Some r => r
  | None => ∅
  end.

(** [report.Add(pkg, key)] on [GetEnvReportInstance()]. *)
Definition Add (envReport : option EnvReport) (p : Package) (key : string)
    : option EnvReport :=
  let r := GetEnvReportInstance envReport in
  Some (<[pkg_path p := {[key]} ∪ default ∅ (r !! pkg_path p)]> r).

(** The [pre] callback (lines 103-136) on the global [envReport]. *)
Definition pre (p : Package) (envReport : option EnvReport) (node : AstNode)
    : option EnvReport :=
  match isReadingEnv (pkg_uses p) node with
  | None => envReport
  | Some None => Add envReport p DYNAMIC
  | Some (Some (BasicLit value)) => Add envReport p (trimQuotes value)
  | Some (Some (Ident id)) =>
      match pkg_uses p id with
      | Some (ConstObj v) => Add envReport p (trimQuotes (constantString v))
      | Some _ => Add envReport p DYNAMIC
      | None => envReport
      end
  | Some (Some _) => Add envReport p DYNAMIC
  end.

Definition reportCallsReadingEnv (pkgs : list Package) (envReport : option EnvReport)
    : option EnvReport :=
  forEachPackageIncludingDependencies pkgs
    (fun st p => foldl (pre p) st (pkg_nodes p)) envReport.

(** The names the report holds for the package of path [q]. *)
Definition namesOf (envReport : option EnvReport) (q : string) : gset string :=
  default ∅ (GetEnvReportInstance envReport !! q).
End GetenvGo.

(** Example packages: [P] holds [os.Getenv(lit)] for a given literal
    text, [Q] holds [const K = v; os.Getenv(K)]. Identifier 0 is the
    import of [os], identifier 1 is [K]. *)
Definition envUses (k : option ConstVal) (id : nat) : option Obj :=
  match id, k with
  | 0, _ => Some (PkgName "os")
  | 1, Some v => Some (ConstObj v)
  | _, _ => None
  end.

Definition getenvCall (arg : Expr) : AstNode :=
  ExprStmt (CallExpr (SelectorExpr (Ident 0) "Getenv") [arg]).

Definition literalPackage (path lit : string) : Package :=
  mkPackage path (envUses None) [getenvCall (BasicLit lit)].

Definition constantPackage (path : string) (v : ConstVal) : Package :=
  mkPackage path (envUses (Some v)) [getenvCall (Ident 1)].

(** [n] copies of [s]. *)
Fixpoint repeatString (n : nat) (s : string) : string :=
  match n with
  | 0 => EmptyString
  | S n' => s ++ repeatString n' s
  end.

(* ------------------------------------------------------------------ *)
(** ** Capability counts, output order and environment-report counts *)

(** [cpb.Capability.String()]: the enum value names of
    [proto/capability.proto]. *)
Definition Capability_String (c : Capability) : string :=
  match c with
  | CAPABILITY_UNSPECIFIED => "CAPABILITY_UNSPECIFIED"
  | CAPABILITY_SAFE => "CAPABILITY_SAFE"
  | CAPABILITY_FILES => "CAPABILITY_FILES"
  | CAPABILITY_NETWORK => "CAPABILITY_NETWORK"
  | CAPABILITY_RUNTIME => "CAPABILITY_RUNTIME"
  | CAPABILITY_READ_SYSTEM_STATE => "CAPABILITY_READ_SYSTEM_STATE"
  | CAPABILITY_MODIFY_SYSTEM_STATE => "CAPABILITY_MODIFY_SYSTEM_STATE"
  | CAPABILITY_OPERATING_SYSTEM => "CAPABILITY_OPERATING_SYSTEM"
  | CAPABILITY_SYSTEM_CALLS => "CAPABILITY_SYSTEM_CALLS"
  | CAPABILITY_ARBITRARY_EXECUTION => "CAPABILITY_ARBITRARY_EXECUTION"
  | CAPABILITY_CGO => "CAPABILITY_CGO"
  | CAPABILITY_UNANALYZED => "CAPABILITY_UNANALYZED"
  | CAPABILITY_UNSAFE_POINTER => "CAPABILITY_UNSAFE_POINTER"
  | CAPABILITY_REFLECT => "CAPABILITY_REFLECT"
  | CAPABILITY_EXEC => "CAPABILITY_EXEC"
  | CAPABILITY_READ_ENVIRONMENT => "CAPABILITY_READ_ENVIRONMENT"
  end.

(** [int64] addition wraps around modulo [2^64]. *)
Definition wrapInt64 (z : Z) : Z := ((z + 2 ^ 63) mod 2 ^ 64 - 2 ^ 63)%Z.

(** The [GetCapabilityCounts] callback on [cm : map[string]int64]. *)
Definition countsCallback (cm : gmap string Z) (ev : Event) : gmap string Z :=
  let k := Capability_String (ev_cap ev) in
  match cm !! k with
  | None => <[k := 1%Z]> cm
  | Some n => <[k := wrapInt64 (n + 1)]> cm
  end.

(** [GetCapabilityCounts]: the [CapabilityCounts] map. *)
Definition GetCapabilityCounts (g : Graph) (reflectFns unsafeFns : gset Node)
    (queried : gset string) (cfg : Config) : gmap string Z :=
  foldl countsCallback ∅ (forEachPath g reflectFns unsafeFns queried cfg).

(** The key [deletePackageDuplicates] compares: the capability and the
    package path ([nil] for a function without package). *)
Definition dedupKey (g : Graph) (o : CapabilityInfo * Node) : Capability * option string :=
  (ci_capability o.1, match node_func g o.2 with Some f => Func_pkgPath f | None => None end).

(** Two output pairs in capability order. *)
Definition capLe (a b : CapabilityInfo * Node) : Prop :=
  Capability_enum (ci_capability a.1) <= Capability_enum (ci_capability b.1).

(** [counts[key]++] on a [map[string]int64]. *)
Definition countKey (counts : gmap string Z) (key : string) : gmap string Z :=
  <[key := wrapInt64 (default 0%Z (counts !! key) + 1)]> counts.

(** [EnvVarCounts] of [testpkgs/getenv/getenv.go]; [order] is the order
    of [range report] and, for each package, of [range vars]. *)
Definition EnvVarCounts_in (order : list (string * list string))
    (report : GetenvGo.EnvReport) : option (gmap string Z) :=
  if Nat.eqb (size report) 0 then None
  else Some (foldl (fun counts pv => foldl countKey counts pv.2) ∅ order).

(** An iteration order of [report]: each package once, with each of its
    names once. *)
Definition validReportOrder (report : GetenvGo.EnvReport)
    (order : list (string * list string)) : Prop :=
  (fun pv : string * list string => (pv.1, list_to_set pv.2 : gset string)) <$> order
    ≡ₚ map_to_list report /\
  Forall (fun pv : string * list string => NoDup pv.2) order.

(** The count map holds [n] for [k], and no entry when [n = 0]. *)
Definition keyCountIs (counts : gmap string Z) (k : string) (n : nat) : Prop :=
  counts !! k = if decide (n = 0) then None else Some (Z.of_nat n).

(** Example reports of the environment scanners. *)
Definition exEnvPackages : list Package :=
  [literalPackage "example.com/a" (dq ++ "HOME" ++ dq);
   constantPackage "example.com/b" (ConstString "PATH")].

Definition exReport : GetenvGo.EnvReport :=
  {["example.com/a" := {["HOME"]}; "example.com/b" := {["HOME"; "PATH"]}]}.

Definition exReportOrder : list (string * list string) :=
  [("example.com/b", ["PATH"; "HOME"]); ("example.com/a", ["HOME"])].

(* ------------------------------------------------------------------ *)
(** ** The graph searches of [CapabilityGraph] *)

Section SearchBackwards.
Variable g : Graph.
Variable cl : Classifier.
Variables safe allNodesWithExplicitCapability : gset Node.

(** The incoming edges kept by the loop of lines 295-309, sorted
    [byCaller] (line 310). *)
Definition sbIncomingEdges (v : Node) : list Edge :=
  sortBy (byCallerLess g)
    (List.filter (fun edge =>
        if negb (IncludeCall cl edge) then false
        else if bool_decide (Caller edge ∈ safe) then false
        else if bool_decide (Caller edge ∈ allNodesWithExplicitCapability) then false
        else true) (node_in g v)).

(** The body of [for _, edge := range incomingEdges] (lines 312-318). *)
Definition sbVisitEdge (st : gmap Node bfsState * list Node) (edge : Edge)
    : gmap Node bfsState * list Node :=
  let w := Caller edge in
  match st.1 !! w with
  | Some _ => st
  | None => (<[w := Some edge]> st.1, (st.2 ++ [w])%list)
  end.

Fixpoint sbLoop (fuel : nat) (st : gmap Node bfsState * list Node)
    : gmap Node bfsState * list Node :=
  match fuel with
  | 0 => st
  | S fuel' =>
      match st.2 with
      | [] => st
      | v :: q => sbLoop fuel' (foldl sbVisitEdge (st.1, q) (sbIncomingEdges v))
      end
  end.

(** The initialisation loop of lines 280-288, over [nodesByCapability]
    in the iteration order [o]. *)
Definition sbInit (o : MapOrder) (nodesByCapability : gmap Capability (gset Node))
    : gmap Node bfsState * list Node :=
  foldl (fun st c =>
      foldl (fun st v =>
          if bool_decide (v ∈ safe) then st
          else (<[v := None]> st.1, (st.2 ++ [v])%list))
        st (order_nodes o (lookupSet nodesByCapability c)))
    (∅, []) (order_caps o nodesByCapability).

(** [searchBackwardsFromCapabilities], the loop run for at most [fuel]
    rounds. *)
Definition searchBackwardsFromCapabilities_fuel (fuel : nat) (o : MapOrder)
    (nodesByCapability : gmap Capability (gset Node)) : gmap Node bfsState :=
  let st := sbInit o nodesByCapability in
  (sbLoop fuel (st.1, sortBy (funcLess g) st.2)).1.
End SearchBackwards.

(** A node reaches a capability: it is a non-safe node of some nodeset,
    or the caller, neither safe nor explicitly classified, of an edge
    accepted by [IncludeCall] into a node that reaches a capability. *)
Inductive reachesCapability (g : Graph) (cl : Classifier)
    (safe allNodesWithExplicitCapability : gset Node)
    (nodesByCapability : gmap Capability (gset Node)) : Node -> Prop :=
| reaches_root c v :
    v ∈ lookupSet nodesByCapability c -> v ∉ safe ->
    reachesCapability g cl safe allNodesWithExplicitCapability nodesByCapability v
| reaches_call v edge :
    edge ∈ node_in g v -> IncludeCall cl edge = true ->
    Caller edge ∉ safe -> Caller edge ∉ allNodesWithExplicitCapability ->
    reachesCapability g cl safe allNodesWithExplicitCapability nodesByCapability v ->
    reachesCapability g cl safe allNodesWithExplicitCapability nodesByCapability (Caller edge).

(** The invariant of the backward search: every visited node reaches a
    capability and every queued node is visited. *)
Definition sbInv (g : Graph) (cl : Classifier) (safe expl : gset Node)
    (nbc : gmap Capability (gset Node)) (st : gmap Node bfsState * list Node) : Prop :=
  (forall v, is_Some (st.1 !! v) -> reachesCapability g cl safe expl nbc v) /\
  (forall v, v ∈ st.2 -> is_Some (st.1 !! v)).

(** [searchBackwardsFromCapabilities]: every node enters the queue once
    as a root per nodeset holding it, or once as the caller of an edge
    of the graph, so this many rounds empty it. *)
Definition searchBackwardsFromCapabilities (g : Graph) (cl : Classifier)
    (safe allNodesWithExplicitCapability : gset Node) (o : MapOrder)
    (nodesByCapability : gmap Capability (gset Node)) : gmap Node bfsState :=
  searchBackwardsFromCapabilities_fuel g cl safe allNodesWithExplicitCapability
    (S (List.length (sbInit safe o nodesByCapability).2 + List.length (graph_nodes g)))
    o nodesByCapability.

(** Modelled from the spec: [byCallee]'s [Less] (not in src/) compares
    edges by callee key, then caller key. *)
Definition byCalleeLess (g : Graph) (e1 e2 : Edge) : bool :=
  match lexCompare (funcCompare g (Callee e1) (Callee e2))
                   (funcCompare g (Caller e1) (Caller e2)) with
  | Lt => true
  | _ => false
  end.

(** The calls of the three output callbacks of [CapabilityGraph];
    [outputNode] also receives [bfsFromCapabilities], which is fixed
    during a search and is left out. *)
Inductive GraphEvent :=
| OutputNode (fromQuery : gmap Node bfsState) (v : Node)
| OutputCall (edge : Edge)
| OutputCapability (v : Node) (c : Capability).

Record SfSt := mkSfSt {
  sf_fromQueries : gmap Node bfsState;
  sf_queue : list Node;
  sf_trace : list GraphEvent;
}.

Section SearchForwards.
Variable g : Graph.
Variable cl : Classifier.
(** [v.Out]: the outgoing edges of a node. *)
Variable node_out : Node -> list Edge.
Variable o : MapOrder.
Variable nodesByCapability : gmap Capability (gset Node).
Variable allNodesWithExplicitCapability : gset Node.
Variable bfsFromCapabilities : gmap Node bfsState.

(** The outgoing edges kept by the loop of lines 371-380, sorted
    [byCallee] (line 381). *)
Definition sfOutgoingEdges (v : Node) : list Edge :=
  sortBy (byCalleeLess g)
    (List.filter (fun edge =>
        if negb (IncludeCall cl edge) then false
        else match bfsFromCapabilities !! Callee edge with
             | Some _ => true
             | None => false
             end) (node_out v)).

(** The body of [for i, edge := range outgoingEdges] (lines 383-396);
    [prev] is the callee of [outgoingEdges[i-1]]. *)
Definition sfCallStep (stp : SfSt * option Node) (edge : Edge) : SfSt * option Node :=
  let '(st, prev) := stp in
  let skip := match prev with
              | Some c => bool_decide (Callee edge = c)
              | None => false
              end in
  (if skip then st else
   let tr := (sf_trace st ++ [OutputCall edge])%list in
   let w := Callee edge in
   match sf_fromQueries st !! w with
   | Some _ => mkSfSt (sf_fromQueries st) (sf_queue st) tr
   | None => mkSfSt (<[w := Some edge]> (sf_fromQueries st)) (sf_queue st ++ [w])%list tr
   end,
   Some (Callee edge)).

(** Lines 358-397 for the node [v] taken from the queue. *)
Definition sfVisit (st : SfSt) (v : Node) : SfSt :=
  let tr := (sf_trace st ++ [OutputNode (sf_fromQueries st) v])%list in
  let tr := (tr ++ map (fun c => OutputCapability v c)
                      (List.filter (fun c => bool_decide (v ∈ lookupSet nodesByCapability c))
                                   (order_caps o nodesByCapability)))%list in
  let st := mkSfSt (sf_fromQueries st) (sf_queue st) tr in
  if bool_decide (v ∈ allNodesWithExplicitCapability) then st
  else (foldl sfCallStep (st, None) (sfOutgoingEdges v)).1.

Fixpoint sfLoop (fuel : nat) (st : SfSt) : SfSt :=
  match fuel with
  | 0 => st
  | S fuel' =>
      match sf_queue st with
      | [] => st
      | v :: q => sfLoop fuel' (sfVisit (mkSfSt (sf_fromQueries st) q (sf_trace st)) v)
      end
  end.

(** The initialisation loop of lines 346-353 over [nodes] in the
    iteration order [o], and the sort of line 354. *)
Definition sfInitStep (st : SfSt) (v : Node) : SfSt :=
  match bfsFromCapabilities !! v with
  | None => st
  | Some _ => mkSfSt (<[v := None]> (sf_fromQueries st)) (sf_queue st ++ [v])%list (sf_trace st)
  end.

Definition sfInit (nodes : gset Node) : SfSt :=
  let st := foldl sfInitStep (mkSfSt ∅ [] []) (order_nodes o nodes) in
  mkSfSt (sf_fromQueries st) (sortBy (funcLess g) (sf_queue st)) [].

(** [searchForwardsFromQueriedFunctions]: the sequence of callback
    calls. Every node enters the queue at most once and only nodes of
    [bfsFromCapabilities] do, so [|bfsFromCapabilities| + 1] rounds
    empty it. *)
Definition searchForwardsFromQueriedFunctions (nodes : gset Node) : list GraphEvent :=
  sf_trace (sfLoop (S (size bfsFromCapabilities)) (sfInit nodes)).
End SearchForwards.

(** The nodes passed to [outputNode], in order. *)
Fixpoint outputNodes (tr : list GraphEvent) : list Node :=
  match tr with
  | [] => []
  | OutputNode _ v :: tr' => v :: outputNodes tr'
  | _ :: tr' => outputNodes tr'
  end.

(** The callbacks so far are sound: each [outputCall] is of an edge
    accepted by [IncludeCall] into [bfsFromCapabilities], out of a
    non-explicit node passed earlier to [outputNode]. *)
Definition sfCallsOk (cl : Classifier) (node_out : Node -> list Edge) (expl : gset Node)
    (bfc : gmap Node bfsState) (tr : list GraphEvent) : Prop :=
  forall i e, tr !! i = Some (OutputCall e) ->
    IncludeCall cl e = true /\ is_Some (bfc !! Callee e) /\
    exists j fq v, j < i /\ tr !! j = Some (OutputNode fq v) /\
                   (v ∉ expl) /\ e ∈ node_out v.

(** Each [outputCapability(v, c)] so far has [v] in the nodeset of [c]
    and follows [outputNode(v)]. *)
Definition sfCapsOk (nbc : gmap Capability (gset Node)) (tr : list GraphEvent) : Prop :=
  forall i v c, tr !! i = Some (OutputCapability v c) ->
    v ∈ lookupSet nbc c /\ exists j fq, j < i /\ tr !! j = Some (OutputNode fq v).

(** The nodes output or queued. *)
Definition sfSeen (st : SfSt) : list Node :=
  (outputNodes (sf_trace st) ++ sf_queue st)%list.

(** The invariant of the forward search. *)
Definition sfInv (cl : Classifier) (node_out : Node -> list Edge)
    (nbc : gmap Capability (gset Node)) (expl : gset Node) (bfc : gmap Node bfsState)
    (st : SfSt) : Prop :=
  (forall v, is_Some (sf_fromQueries st !! v) -> is_Some (bfc !! v)) /\
  (forall v, is_Some (sf_fromQueries st !! v) <-> v ∈ sfSeen st) /\
  NoDup (sfSeen st) /\
  sfCallsOk cl node_out expl bfc (sf_trace st) /\ sfCapsOk nbc (sf_trace st) /\
  (forall i e, sf_trace st !! i = Some (OutputCall e) -> Callee e ∈ sfSeen st).

(** [_, ok := bfsFromCapabilities[v]]. *)
Definition canReach (bfc : gmap Node bfsState) (v : Node) : bool :=
  match bfc !! v with Some _ => true | None => false end.

(** Every output node that is in the nodeset of [c] has had
    [outputCapability(v, c)]. *)
Definition capsComplete (nbc : gmap Capability (gset Node)) (tr : list GraphEvent) : Prop :=
  forall v c, v ∈ outputNodes tr -> v ∈ lookupSet nbc c -> OutputCapability v c ∈ tr.

(** The loop of lines 449-457 over [bfsFromCapabilities] in the
    iteration order [o]; [None] is the nil-pointer panic of
    [v.Func.Package()] on a node without a function. *)
Definition canBeReachedFromQuery (o : MapOrder) (g : Graph) (queried : gset string)
    (bfsFromCapabilities : gmap Node bfsState) : option (gset Node) :=
  foldl (fun acc v =>
      match acc with
      | None => None
      | Some s =>
          match node_func g v with
          | None => None
          | Some _ => Some (if inQueried g queried v then {[v]} ∪ s else s)
          end
      end) (Some ∅) (order_nodes o (dom bfsFromCapabilities)).

(** The closure [search] of [CapabilityGraph] (lines 446-468). *)
Definition capabilityGraphSearch (o : MapOrder) (g : Graph) (node_out : Node -> list Edge)
    (queried : gset string) (cl : Classifier) (safe allNodesWithExplicitCapability : gset Node)
    (nodesByCapability : gmap Capability (gset Node)) : option (list GraphEvent) :=
  let bfc := searchBackwardsFromCapabilities g cl safe allNodesWithExplicitCapability o
               nodesByCapability in
  match canBeReachedFromQuery o g queried bfc with
  | None => None
  | Some roots =>
      Some (searchForwardsFromQueriedFunctions g cl node_out o nodesByCapability
              allNodesWithExplicitCapability bfc roots)
  end.

(** [CapabilityGraph] with non-nil callbacks: the sequence of their
    calls, or [None] when it panics; [filter] is [None] for a nil
    filter. *)
Definition CapabilityGraph_in (o : MapOrder) (g : Graph) (node_out : Node -> list Edge)
    (reflectFns unsafeFns : gset Node) (queried : gset string) (cfg : Config)
    (filter : option (Capability -> bool)) : option (list GraphEvent) :=
  let '(safe, nbc, expl) := classifyAndMerge_in o g reflectFns unsafeFns cfg in
  let search := capabilityGraphSearch o g node_out queried (cfg_Classifier cfg) safe expl in
  match filter with
  | Some f =>
      foldl (fun acc c =>
          match acc with
          | None => None
          | Some tr =>
              if f c then
                match search {[c := lookupSet nbc c]} with
                | None => None
                | Some tr' => Some (tr ++ tr')%list
                end
              else Some tr
          end) (Some []) (order_caps o nbc)
  | None => search nbc
  end.

(** The outgoing edges of the nodes of [exGraph]. *)
Definition exNodeOut (v : Node) : list Edge :=
  match v with
  | 1 => [mkEdge 1 2 10; mkEdge 1 4 11]
  | 2 => [mkEdge 2 3 20]
  | 5 => [mkEdge 5 3 30]
  | _ => []
  end.

(** The searches of [CapabilityGraph] on [exGraph] without a filter. *)
Definition exOrder : MapOrder := canonicalOrder exGraph.
Definition exSafe : gset Node := (classifyAndMerge exGraph ∅ ∅ exConfig).1.1.
Definition exNbc : gmap Capability (gset Node) := (classifyAndMerge exGraph ∅ ∅ exConfig).1.2.
Definition exExpl : gset Node := (classifyAndMerge exGraph ∅ ∅ exConfig).2.
Definition exBfc : gmap Node bfsState :=
  searchBackwardsFromCapabilities exGraph exClassifier exSafe exExpl exOrder exNbc.
Definition exRoots : gset Node :=
  default ∅ (canBeReachedFromQuery exOrder exGraph exQueried exBfc).
Definition exTrace : list GraphEvent :=
  searchForwardsFromQueriedFunctions exGraph exClassifier exNodeOut exOrder exNbc exExpl exBfc exRoots.

(* ------------------------------------------------------------------ *)
(** ** [intermediatePackages] *)

(** A path whose every entry after the first carries a call edge
    accepted by [IncludeCall] from the previous entry's function to its
    own. *)
Fixpoint edgeChain (cl : Classifier) (p : list (Node * option Edge)) : Prop :=
  match p with
  | a :: ((b :: _) as p') =>
      (exists e, b.2 = Some e /\ Caller e = a.1 /\ Callee e = b.1 /\ IncludeCall cl e = true) /\
      edgeChain cl p'
  | _ => True
  end.

Section IntermediatePackages.
(** [nodeToPackage] (not in src/): the path and name of the package of
    a node, or nil for the wrapper functions the callback skips; a
    [*types.Package] is identified by its path. *)
Variable nodeToPackage : Node -> option (string * string).
(** [config.CapabilitySet.Has] (not in src/). *)
Variable Has : Capability -> bool.

(** The first path loop of [nodeCallback] (lines 836-844), from [node]
    back along [queryBFS], appending [addFunction]'s entry for each
    node.  The predecessor chains of a BFS map have no cycle, so
    [|queryBFS| + 1] rounds finish it. *)
Fixpoint queryPathLoop (fuel : nat) (queryBFS : gmap Node bfsState)
    (path : list (Node * option Edge)) (v : Node) : list (Node * option Edge) :=
  match fuel with
  | 0 => path
  | S fuel' =>
      let e := bfsEdge (queryBFS !! v) in
      let path := (path ++ [(v, e)])%list in
      match e with
      | None => path
      | Some e => queryPathLoop fuel' queryBFS path (Caller e)
      end
  end.

(** The second path loop (lines 849-856), from [node] forward along
    [capabilityBFS]. *)
Fixpoint capabilityPathLoop (fuel : nat) (capabilityBFS : gmap Node bfsState)
    (path : list (Node * option Edge)) (v : Node) : list (Node * option Edge) :=
  match fuel with
  | 0 => path
  | S fuel' =>
      match bfsEdge (capabilityBFS !! v) with
      | None => path
      | Some e =>
          capabilityPathLoop fuel' capabilityBFS (path ++ [(Callee e, Some e)])%list (Callee e)
      end
  end.

(** [nodeCallback] (lines 818-859) on the map [seen], keyed by
    (package path, capability); [capability] is the value [filter] last
    stored. *)
Definition intermediateNodeCallback (omitPaths : bool) (capability : Capability)
    (seen : gmap (string * Capability) CapabilityInfo)
    (queryBFS : gmap Node bfsState) (node : Node) (capabilityBFS : gmap Node bfsState)
    : gmap (string * Capability) CapabilityInfo :=
  match nodeToPackage node with
  | None => seen
  | Some (path, name) =>
      let pc := (path, capability) in
      match seen !! pc with
      | Some _ => seen
      | None =>
          let p := if omitPaths then []
                   else capabilityPathLoop (S (size capabilityBFS)) capabilityBFS
                          (reverse (queryPathLoop (S (size queryBFS)) queryBFS [] node)) node in
          <[pc := mkCapabilityInfo capability path name CAPABILITY_TYPE_UNSPECIFIED p None]> seen
      end
  end.

(** The callbacks of one search: [outputNode] is [nodeCallback], with
    the search's [bfsFromCapabilities]; [outputCall] and
    [outputCapability] are nil and not called. *)
Definition intermediateEvent (omitPaths : bool) (capability : Capability)
    (capabilityBFS : gmap Node bfsState) (seen : gmap (string * Capability) CapabilityInfo)
    (ev : GraphEvent) : gmap (string * Capability) CapabilityInfo :=
  match ev with
  | OutputNode queryBFS v =>
      intermediateNodeCallback omitPaths capability seen queryBFS v capabilityBFS
  | _ => seen
  end.

(** [CapabilityGraph(pkgs, queriedPackages, config, nodeCallback, nil,
    nil, filter)] (its lines 469-475) with the [filter] of lines
    812-815: [filter(c)] stores [c] in [capability] before the search
    for [c], so each callback of that search sees [c].  [None] is a
    panic of a search. *)
Definition intermediateSeen (o : MapOrder) (g : Graph) (node_out : Node -> list Edge)
    (reflectFns unsafeFns : gset Node) (queried : gset string) (config : Config)
    : option (gmap (string * Capability) CapabilityInfo) :=
  let '(safe, nbc, expl) := classifyAndMerge_in o g reflectFns unsafeFns config in
  let cl := cfg_Classifier config in
  foldl (fun acc c =>
      match acc with
      | None => None
      | Some seen =>
          if Has c then
            let ns := {[c := lookupSet nbc c]} in
            let bfc := searchBackwardsFromCapabilities g cl safe expl o ns in
            match capabilityGraphSearch o g node_out queried cl safe expl ns with
            | None => None
            | Some tr => Some (foldl (intermediateEvent (cfg_OmitPaths config) c bfc) seen tr)
            end
          else Some seen
      end) (Some ∅) (order_caps o nbc).

(** The comparison of [slices.SortFunc] (lines 864-869): capability
    number, then package path by [strings.Compare]. *)
Definition intermediateLess (a b : CapabilityInfo) : bool :=
  let x := Capability_enum (ci_capability a) in
  let y := Capability_enum (ci_capability b) in
  if negb (Nat.eqb x y) then Nat.ltb x y
  else match String.compare (ci_packageDir a) (ci_packageDir b) with
       | Lt => true
       | _ => false
       end.

(** [intermediatePackages]: [order_seen] is the iteration order of
    [range seen]; [slices.SortFunc] is [sortBy] (the records have
    distinct keys, so every sort gives this result). *)
Definition intermediatePackages_in
    (order_seen : gmap (string * Capability) CapabilityInfo -> list CapabilityInfo)
    (o : MapOrder) (g : Graph) (node_out : Node -> list Edge)
    (reflectFns unsafeFns : gset Node) (queried : gset string) (config : Config)
    : option (list CapabilityInfo) :=
  match intermediateSeen o g node_out reflectFns unsafeFns queried config with
  | None => None
  | Some seen => Some (sortBy intermediateLess (order_seen seen))
  end.
End IntermediatePackages.

(** A [nodeToPackage] for [exGraph]: the package of the node's
    function. *)
Definition exNodeToPackage (v : Node) : option (string * string) :=
  match node_func exGraph v with
  | Some f => match Func_pkgPath f with
              | Some p => Some (p, Func_pkgName f)
              | None => None
              end
  | None => None
  end.

(** [range seen] in the order of [map_to_list]. *)
Definition exOrderSeen (m : gmap (string * Capability) CapabilityInfo) : list CapabilityInfo :=
  map snd (map_to_list m).

Definition exIntermediateConfig (omitPaths : bool) : Config :=
  mkConfig exClassifier false GranularityIntermediate None omitPaths.

(** [intermediatePackages] on [exGraph], every capability accepted. *)
Definition exIntermediate (omitPaths : bool) : option (list CapabilityInfo) :=
  intermediatePackages_in exNodeToPackage (fun _ => true) exOrderSeen exOrder exGraph exNodeOut
    ∅ ∅ exQueried (exIntermediateConfig omitPaths).

(** The edges recorded in a BFS map: keyed by their caller (backward
    search) or by their callee (forward search), all accepted by
    [IncludeCall]. *)
Definition callerKeyed (cl : Classifier) (m : gmap Node bfsState) : Prop :=
  forall v e, m !! v = Some (Some e) -> Caller e = v /\ IncludeCall cl e = true.

Definition calleeKeyed (cl : Classifier) (m : gmap Node bfsState) : Prop :=
  forall v e, m !! v = Some (Some e) -> Callee e = v /\ IncludeCall cl e = true.

(** The maps passed to [outputNode] so far, and the current one, are
    [calleeKeyed]. *)
Definition snapInv (cl : Classifier) (st : SfSt) : Prop :=
  calleeKeyed cl (sf_fromQueries st) /\
  forall fq v, OutputNode fq v ∈ sf_trace st -> calleeKeyed cl fq.

(** The key of each record of [seen] is its (package path, capability). *)
Definition seenKeyed (seen : gmap (string * Capability) CapabilityInfo) : Prop :=
  forall k ci, seen !! k = Some ci -> k = (ci_packageDir ci, ci_capability ci).

(** What [intermediatePackages] guarantees of each record of [seen]. *)
Definition seenOk (nodeToPackage : Node -> option (string * string)) (Has : Capability -> bool)
    (g : Graph) (cl : Classifier) (safe expl : gset Node) (nbc : gmap Capability (gset Node))
    (omit : bool) (seen : gmap (string * Capability) CapabilityInfo) : Prop :=
  forall k ci, seen !! k = Some ci ->
    Has (ci_capability ci) = true /\ is_Some (nbc !! ci_capability ci) /\
    (exists v, nodeToPackage v = Some (ci_packageDir ci, ci_packageName ci) /\
       (v ∉ safe) /\
       reachesCapability g cl safe expl {[ci_capability ci := lookupSet nbc (ci_capability ci)]} v /\
       (omit = false -> exists e, (v, e) ∈ ci_path ci)) /\
    (if omit then ci_path ci = [] else ci_path ci <> [] /\ edgeChain cl (ci_path ci)).


(** The record of [exIntermediate false] for [example.com/lib]. *)
Definition exLibRecord : CapabilityInfo :=
  mkCapabilityInfo CAPABILITY_FILES "example.com/lib" "example.com/lib" CAPABILITY_TYPE_UNSPECIFIED
    [(1, None); (2, Some (mkEdge 1 2 10)); (3, Some (mkEdge 2 3 20))] None.

(* PROPERTIES *)

(** Closes a decidable goal about concrete data by evaluation. *)
Ltac by_computation :=
  match goal with |- ?P => apply (bool_decide_unpack P); vm_compute; exact I end.

(** ** Properties of the nodesets *)

Lemma lookupSet_add (m : gmap Capability (gset Node)) c w c' v :
  v ∈ lookupSet (nodeset_add m c w) c' <-> (c' = c /\ v = w) \/ v ∈ lookupSet m c'.
Proof.
  unfold lookupSet, nodeset_add.
  destruct (decide (c = c')) as [<-|Hne].
  - rewrite lookup_insert_eq. simpl. set_solver.
  - rewrite lookup_insert_ne by done. set_solver.
Qed.

Lemma lookupSet_empty c v : v ∉ lookupSet ∅ c.
Proof. unfold lookupSet. rewrite lookup_empty. simpl. set_solver. Qed.

Lemma getNodeCapabilities_step_eq g cl safe nbc v :
  getNodeCapabilities_step g cl (safe, nbc) v =
    ((if isSafeNode g cl v then {[v]} ∪ safe else safe),
     match explicitCap g cl v with
     | Some c => nodeset_add nbc c v
     | None => nbc
     end).
Proof.
  unfold getNodeCapabilities_step, isSafeNode, explicitCap.
  destruct (node_func g v) as [f|]; [|reflexivity].
  destruct (classifyFunc cl f) as [[]|]; reflexivity.
Qed.

Lemma getNodeCapabilities_in_spec order g cl :
  forall acc,
  let r := foldl (getNodeCapabilities_step g cl) acc order in
  (forall v, v ∈ r.1 <-> v ∈ acc.1 \/ (v ∈ order /\ isSafeNode g cl v = true)) /\
  (forall v c, v ∈ lookupSet r.2 c <->
               v ∈ lookupSet acc.2 c \/ (v ∈ order /\ explicitCap g cl v = Some c)).
Proof.
  induction order as [|x order IH]; intros [safe nbc]; cbn [foldl].
  - simpl. split; intros; set_solver.
  - rewrite getNodeCapabilities_step_eq.
    destruct (IH ((if isSafeNode g cl x then {[x]} ∪ safe else safe),
                  match explicitCap g cl x with
                  | Some c => nodeset_add nbc c x
                  | None => nbc
                  end)) as [IH1 IH2]; simpl in *.
    split.
    + intros v. rewrite IH1, elem_of_cons.
      destruct (isSafeNode g cl x) eqn:E; rewrite ?elem_of_union, ?elem_of_singleton.
      * split.
        -- intros [[->|Hv]|[Hv Hs]]; [right; auto|left; done|right; auto].
        -- intros [Hv|[[->|Hv] Hs]]; [left; right; done|left; left; done|right; auto].
      * split.
        -- intros [Hv|[Hv Hs]]; [left; done|right; auto].
        -- intros [Hv|[[->|Hv] Hs]]; [left; done|congruence|right; auto].
    + intros v c. rewrite IH2, elem_of_cons.
      destruct (explicitCap g cl x) as [cx|] eqn:E; rewrite ?lookupSet_add.
      * split.
        -- intros [[[-> ->]|Hv]|[Hv Hs]]; [right; auto|left; done|right; auto].
        -- intros [Hv|[[->|Hv] Hs]];
             [left; right; done|left; left; split; [congruence|done]|right; auto].
      * split.
        -- intros [Hv|[Hv Hs]]; [left; done|right; auto].
        -- intros [Hv|[[->|Hv] Hs]]; [left; done|congruence|right; auto].
Qed.

Lemma getNodeCapabilities_safe g cl v :
  v ∈ (getNodeCapabilities g cl).1 <-> v ∈ graph_nodes g /\ isSafeNode g cl v = true.
Proof.
  unfold getNodeCapabilities, getNodeCapabilities_in.
  destruct (getNodeCapabilities_in_spec (graph_nodes g) g cl (∅, ∅)) as [H _].
  rewrite H. simpl. set_solver.
Qed.

Lemma getNodeCapabilities_explicit g cl v c :
  v ∈ lookupSet (getNodeCapabilities g cl).2 c <->
  v ∈ graph_nodes g /\ explicitCap g cl v = Some c.
Proof.
  unfold getNodeCapabilities, getNodeCapabilities_in.
  destruct (getNodeCapabilities_in_spec (graph_nodes g) g cl (∅, ∅)) as [_ H].
  rewrite H. simpl. pose proof (lookupSet_empty c v). tauto.
Qed.

Lemma explicitCap_not_safe g cl v c :
  explicitCap g cl v = Some c -> isSafeNode g cl v = false.
Proof.
  unfold explicitCap, isSafeNode.
  destruct (node_func g v) as [f|]; [|discriminate].
  destruct (classifyFunc cl f) as [[]|]; try discriminate; reflexivity.
Qed.

(** ** Properties of the merger *)

Lemma order_caps_elem o m c :
  validIterators o -> c ∈ order_caps o m <-> is_Some (m !! c).
Proof.
  intros [Hc _]. rewrite (Hc m), list_elem_of_fmap. split.
  - intros [[c' ns] [-> Hin]]. apply elem_of_map_to_list in Hin. simpl. eauto.
  - intros [ns Hns]. exists (c, ns). split; [done|]. by apply elem_of_map_to_list.
Qed.

Lemma order_nodes_elem o s v :
  validIterators o -> v ∈ order_nodes o s <-> v ∈ s.
Proof. intros [_ Hn]. by rewrite (Hn s), elem_of_elements. Qed.

Lemma lookupSet_is_Some (m : gmap Capability (gset Node)) c v :
  v ∈ lookupSet m c -> is_Some (m !! c).
Proof. unfold lookupSet. destruct (m !! c); simpl; [eauto|set_solver]. Qed.

Lemma allNodes_inner_spec (l : list Node) :
  forall (acc : gset Node) v,
  v ∈ foldl (fun acc v => {[v]} ∪ acc) acc l <-> v ∈ acc \/ v ∈ l.
Proof.
  induction l as [|x l IH]; intros acc v; simpl.
  - set_solver.
  - rewrite IH. set_solver.
Qed.

Lemma allNodes_fold_spec o (nbc : gmap Capability (gset Node)) (l : list Capability) :
  validIterators o ->
  forall (acc : gset Node) v,
  v ∈ foldl (fun (acc : gset Node) c =>
               foldl (fun acc v => {[v]} ∪ acc) acc (order_nodes o (lookupSet nbc c))) acc l <->
  v ∈ acc \/ exists c, c ∈ l /\ v ∈ lookupSet nbc c.
Proof.
  intros Ho. induction l as [|c l IH]; intros acc v; simpl.
  - split; [auto|]. intros [?|[? [Hin _]]]; [done|]. set_solver.
  - rewrite IH, allNodes_inner_spec, order_nodes_elem by done. split.
    + intros [[?|?]|[c' [? ?]]]; [by left|right; exists c; set_solver|right; exists c'; set_solver].
    + intros [?|[c' [Hin ?]]]; [by left; left|].
      apply elem_of_cons in Hin as [->|Hin]; [left; by right|right; eauto].
Qed.

Lemma allNodesWithExplicitCapability_spec o nbc v :
  validIterators o ->
  v ∈ allNodesWithExplicitCapability o nbc <-> exists c, v ∈ lookupSet nbc c.
Proof.
  intros Ho. unfold allNodesWithExplicitCapability. rewrite allNodes_fold_spec by done.
  split.
  - intros [?|[c [_ ?]]]; [set_solver|eauto].
  - intros [c Hv]. right. exists c. split; [|done].
    apply order_caps_elem; [done|]. by eapply lookupSet_is_Some.
Qed.

Lemma merge_one_fold_spec expl cap (l : list Node) :
  forall m c v,
  v ∈ lookupSet (foldl (merge_one expl cap) m l) c <->
  v ∈ lookupSet m c \/ (c = cap /\ v ∈ l /\ v ∉ expl).
Proof.
  induction l as [|x l IH]; intros m c v; simpl.
  - set_solver.
  - rewrite IH. unfold merge_one.
    case_bool_decide as Hx.
    + split; [intros [?|(?&?&?)]; [by left|right; set_solver]|].
      intros [?|(?&Hin&?)]; [by left|].
      apply elem_of_cons in Hin as [->|Hin]; [done|right; done].
    + rewrite lookupSet_add. split.
      * intros [[[? ?]|?]|(?&?&?)]; subst; [right; set_solver|by left|right; set_solver].
      * intros [?|(?&Hin&?)]; [left; by right|].
        apply elem_of_cons in Hin as [->|Hin]; [left; left; done|right; done].
Qed.

Lemma merge_outer_fold_spec o expl (extra : gmap Capability (gset Node)) (l : list Capability) :
  validIterators o ->
  forall m c v,
  v ∈ lookupSet (foldl (fun m cap =>
                          foldl (merge_one expl cap) m (order_nodes o (lookupSet extra cap)))
                       m l) c <->
  v ∈ lookupSet m c \/ (c ∈ l /\ v ∈ lookupSet extra c /\ v ∉ expl).
Proof.
  intros Ho. induction l as [|c0 l IH]; intros m c v; simpl.
  - split; [auto|]. intros [?|(?&?&?)]; [done|set_solver].
  - rewrite IH, merge_one_fold_spec, order_nodes_elem by done. split.
    + intros [[?|(->&?&?)]|(?&?&?)]; [by left|right; set_solver|right; set_solver].
    + intros [?|(Hin&?&?)]; [by left; left|].
      apply elem_of_cons in Hin as [->|Hin]; [left; right; done|right; done].
Qed.

(** The merger, read as in section 4.4 of the spec. *)
Lemma mergeCapabilities_spec o nbc extra c v :
  validIterators o ->
  v ∈ lookupSet (mergeCapabilities o nbc extra).1 c <->
  v ∈ lookupSet nbc c \/
  (v ∈ lookupSet extra c /\ v ∉ (mergeCapabilities o nbc extra).2).
Proof.
  intros Ho. unfold mergeCapabilities; simpl. rewrite merge_outer_fold_spec by done.
  split.
  - intros [?|(_&?&?)]; [by left|by right].
  - intros [?|[Hv ?]]; [by left|right]. split_and!; [|done|done].
    apply order_caps_elem; [done|]. by eapply lookupSet_is_Some.
Qed.

Lemma mergeCapabilities_expl o nbc extra :
  (mergeCapabilities o nbc extra).2 = allNodesWithExplicitCapability o nbc.
Proof. reflexivity. Qed.

Lemma canonicalOrder_valid g : validOrder g (canonicalOrder g).
Proof. split; [done|]. split; intros; done. Qed.

(** ** Claims on classification and merging *)

(** C2: for any iteration order of the Go maps, the merger adds a
    derived (capability, node) pair exactly when the node is not in
    [explicitSet], the union of the explicit nodesets; it keeps every
    explicit entry; hence a node explicitly classified with
    [X] is, after merging, in the nodeset of [X] and of no other
    capability. *)
Theorem mergeCapabilities_explicit_overrides_derived (o : MapOrder) (g : Graph)
    (cl : Classifier) (extra : gmap Capability (gset Node)) :
  validIterators o ->
  let nbc := (getNodeCapabilities g cl).2 in
  let merged := (mergeCapabilities o nbc extra).1 in
  let expl := (mergeCapabilities o nbc extra).2 in
  (forall v, v ∈ expl <-> exists c, v ∈ lookupSet nbc c) /\
  (forall c v, v ∈ lookupSet merged c <->
               v ∈ lookupSet nbc c \/ (v ∈ lookupSet extra c /\ v ∉ expl)) /\
  (forall c v, v ∈ lookupSet nbc c -> v ∈ lookupSet merged c) /\
  (forall X v, v ∈ lookupSet nbc X -> forall c, v ∈ lookupSet merged c <-> c = X).
Proof.
  intros Ho nbc merged expl.
  assert (Hexpl : forall v, v ∈ expl <-> exists c, v ∈ lookupSet nbc c).
  { intros v. subst expl. rewrite mergeCapabilities_expl.
    by apply allNodesWithExplicitCapability_spec. }
  assert (Hm : forall c v, v ∈ lookupSet merged c <->
               v ∈ lookupSet nbc c \/ (v ∈ lookupSet extra c /\ v ∉ expl)).
  { intros c v. by apply mergeCapabilities_spec. }
  split; [exact Hexpl|]. split; [exact Hm|]. split.
  - intros c v Hv. apply Hm. by left.
  - intros X v HX c. rewrite Hm.
    assert (v ∈ expl) by (apply Hexpl; eauto).
    subst nbc. rewrite !getNodeCapabilities_explicit in *.
    destruct HX as [Hin HX]. split.
    + intros [[_ Hc]|[_ Hn]]; [congruence|contradiction].
    + intros ->. left. done.
Qed.

Lemma mergeCapabilities_explicit_overrides_derived_witness :
  validIterators (canonicalOrder exGraph) /\
  (forall X v, v ∈ lookupSet (getNodeCapabilities exGraph exClassifier).2 X ->
   forall c, v ∈ lookupSet (mergeCapabilities (canonicalOrder exGraph)
                             (getNodeCapabilities exGraph exClassifier).2
                             (getExtraNodesByCapability_in (canonicalOrder exGraph)
                                exGraph ∅ ∅)).1 c <-> c = X).
Proof.
  assert (H : validIterators (canonicalOrder exGraph)) by (split; intros; reflexivity).
  split; [exact H|].
  pose proof (mergeCapabilities_explicit_overrides_derived (canonicalOrder exGraph) exGraph
                exClassifier (getExtraNodesByCapability_in (canonicalOrder exGraph)
                                exGraph ∅ ∅) H) as T.
  cbv zeta in T. destruct T as (_ & _ & _ & T). exact T.
Defined.

(** C1 (as stated, refuted): a node classified safe can be in a
    per-capability nodeset after merging.  The merger only skips nodes of
    [explicitSet], which never contains safe nodes; a safe function with
    an assembly body is added to ARBITRARY_EXECUTION. *)
Lemma safe_node_in_capability_set_counterexample :
  ~ (forall g reflectFns unsafeFns cfg v c,
       v ∈ (classifyAndMerge g reflectFns unsafeFns cfg).1.1 ->
       v ∉ lookupSet (classifyAndMerge g reflectFns unsafeFns cfg).1.2 c).
Proof.
  intros H.
  eapply (H asmSafeGraph ∅ ∅ (functionConfig mathSafeClassifier) 1
            CAPABILITY_ARBITRARY_EXECUTION);
    by_computation.
Qed.

(** ** Properties of classification and merging, for any iteration order *)

Lemma classifyAndMerge_in_spec o g reflectFns unsafeFns cfg :
  validIterators o ->
  let '(safe, merged, expl) := classifyAndMerge_in o g reflectFns unsafeFns cfg in
  let cl := cfg_Classifier cfg in
  (forall v, v ∈ safe <-> v ∈ order_graphNodes o /\ isSafeNode g cl v = true) /\
  (forall v, v ∈ expl <-> exists c, v ∈ order_graphNodes o /\ explicitCap g cl v = Some c) /\
  (forall c v, v ∈ lookupSet merged c <->
     (v ∈ order_graphNodes o /\ explicitCap g cl v = Some c) \/
     (v ∈ lookupSet (if cfg_DisableBuiltin cfg then ∅
                     else getExtraNodesByCapability_in o g reflectFns unsafeFns) c
      /\ v ∉ expl)).
Proof.
  intros Ho. unfold classifyAndMerge_in, getPackageNodesWithCapability_in.
  destruct (getNodeCapabilities_in (order_graphNodes o) g (cfg_Classifier cfg)) as [safe nbc] eqn:Hn.
  destruct (getNodeCapabilities_in_spec (order_graphNodes o) g (cfg_Classifier cfg) (∅, ∅)) as [Hs He].
  unfold getNodeCapabilities_in in Hn. rewrite Hn in Hs, He. simpl in Hs, He.
  set (extra := if cfg_DisableBuiltin cfg then ∅ else _).
  destruct (mergeCapabilities o nbc extra) as [merged expl] eqn:Hm.
  pose proof (fun c v => mergeCapabilities_spec o nbc extra c v Ho) as Hms.
  rewrite Hm in Hms. simpl in Hms.
  assert (Hexpl : forall v, v ∈ expl <-> exists c, v ∈ order_graphNodes o /\ explicitCap g (cfg_Classifier cfg) v = Some c).
  { intros v. replace expl with (mergeCapabilities o nbc extra).2 by (rewrite Hm; done).
    rewrite mergeCapabilities_expl, allNodesWithExplicitCapability_spec by done.
    split; intros [c Hc]; exists c; [apply He in Hc|apply He]; pose proof (lookupSet_empty c v); tauto. }
  split; [|split; [exact Hexpl|]].
  - intros v. rewrite Hs. set_solver.
  - intros c v. rewrite Hms, He. pose proof (lookupSet_empty c v). tauto.
Qed.

(** ** Properties of the reverse BFS *)

Lemma initialVisited_lookup (safe : gset Node) (order : list Node) :
  forall (m : gmap Node bfsState) (w : Node),
  foldl (fun m v => if bool_decide (v ∈ safe) then m else <[v := None]> m) m order !! w =
  if bool_decide (w ∈ order /\ w ∉ safe) then Some None else m !! w.
Proof.
  induction order as [|x order IH]; intros m w; cbn [foldl].
  - rewrite bool_decide_false; [done|]. intros [H _]. set_solver.
  - rewrite IH.
    destruct (decide (w ∈ order /\ w ∉ safe)) as [H1|H1].
    + rewrite (bool_decide_true _ H1), bool_decide_true; [done|set_solver].
    + rewrite (bool_decide_false _ H1).
      destruct (decide (x ∈ safe)) as [Hx|Hx].
      * rewrite (bool_decide_true (x ∈ safe)) by done.
        rewrite bool_decide_false; [done|]. intros [Hw Hs].
        apply elem_of_cons in Hw as [->|Hw]; [contradiction|apply H1; done].
      * rewrite (bool_decide_false (x ∈ safe)) by done.
        destruct (decide (w = x)) as [->|Hne].
        -- rewrite lookup_insert_eq, bool_decide_true; [done|set_solver].
        -- rewrite lookup_insert_ne by congruence. rewrite bool_decide_false; [done|].
           intros [Hw Hs]. apply elem_of_cons in Hw as [->|Hw]; [congruence|apply H1; done].
Qed.

Lemma initialVisited_spec (safe : gset Node) (order : list Node) (w : Node) :
  initialVisited safe order !! w =
  if bool_decide (w ∈ order /\ w ∉ safe) then Some None else None.
Proof. unfold initialVisited. rewrite initialVisited_lookup, lookup_empty. done. Qed.

Lemma visitEdge_invariant g queried safe expl cap roots st e :
  bfsStInvariant safe expl roots cap st ->
  bfsStInvariant safe expl roots cap (visitEdge g queried safe expl cap st e).
Proof.
  intros [Hv Ht]. unfold visitEdge.
  destruct (node_func g (Caller e)) as [f|]; [|by split].
  case_bool_decide as Hs; [by split|].
  destruct (st_visited st !! Caller e) as [s|] eqn:Hw; [by split|].
  case_bool_decide as He; [by split|].
  assert (Hnew : bfsInvariant safe expl roots (<[Caller e := Some e]> (st_visited st))).
  { intros w s Hl. destruct (decide (w = Caller e)) as [->|Hne].
    - rewrite lookup_insert_eq in Hl. injection Hl as <-. done.
    - rewrite lookup_insert_ne in Hl by congruence. by apply Hv. }
  split; [exact Hnew|]. simpl.
  destruct (inQueried g queried (Caller e)); [|done].
  apply Forall_app. split; [done|]. apply Forall_singleton.
  simpl. split; [done|]. rewrite lookup_insert_eq. split; [eauto|done].
Qed.

Lemma bfsLoop_invariant g cl queried safe expl cap roots fuel :
  forall st,
  bfsStInvariant safe expl roots cap st ->
  bfsStInvariant safe expl roots cap (bfsLoop g cl queried safe expl cap fuel st).
Proof.
  induction fuel as [|fuel IH]; intros st Hst; simpl; [done|].
  destruct (st_queue st) as [|v q]; [done|].
  apply IH.
  assert (H0 : bfsStInvariant safe expl roots cap (mkBfsSt (st_visited st) q (st_trace st)))
    by exact Hst.
  revert H0. generalize (mkBfsSt (st_visited st) q (st_trace st)).
  induction (incomingEdges g cl v) as [|e es IHes]; intros st' H'; simpl; [done|].
  apply IHes. by apply visitEdge_invariant.
Qed.

Lemma insertBy_perm {A} (less : A -> A -> bool) x acc :
  insertBy less x acc ≡ₚ x :: acc.
Proof.
  induction acc as [|y acc IH]; simpl; [done|].
  destruct (less x y); [done|]. rewrite IH. apply perm_swap.
Qed.

Lemma sortBy_perm {A} (less : A -> A -> bool) l : sortBy less l ≡ₚ l.
Proof.
  unfold sortBy.
  assert (Hgen : forall acc, foldl (fun acc x => insertBy less x acc) acc l ≡ₚ rev l ++ acc).
  { induction l as [|x l IHl]; intros acc; simpl; [done|].
    rewrite IHl, insertBy_perm. rewrite <- app_assoc. simpl. done. }
  rewrite Hgen, app_nil_r. symmetry. apply Permutation_rev.
Qed.

Lemma elem_of_filter_bool {A} (f : A -> bool) (l : list A) x :
  x ∈ List.filter f l <-> x ∈ l /\ f x = true.
Proof. rewrite !list_elem_of_In. apply filter_In. Qed.

Lemma rootQueue_elem g safe order v :
  v ∈ rootQueue g safe order <-> v ∈ order /\ v ∉ safe.
Proof.
  unfold rootQueue. rewrite (sortBy_perm _ _), elem_of_filter_bool.
  rewrite negb_true_iff, bool_decide_eq_false. done.
Qed.

Lemma forEachCapability_invariant g cl queried safe expl cap fuel order :
  bfsStInvariant safe expl order cap
    (forEachCapability g cl queried safe expl cap fuel order).
Proof.
  unfold forEachCapability. apply bfsLoop_invariant.
  assert (Hinit : bfsInvariant safe expl order (initialVisited safe order)).
  { intros w s Hl. rewrite initialVisited_spec in Hl.
    case_bool_decide as H; [|done]. injection Hl as <-. done. }
  split; [exact Hinit|]. simpl. unfold rootEvents.
  apply Forall_forall. intros ev Hev.
  apply list_elem_of_In, in_map_iff in Hev as [v [<- Hv]].
  apply list_elem_of_In, elem_of_filter_bool in Hv as [Hv _].
  apply rootQueue_elem in Hv.
  simpl. split; [done|]. rewrite initialVisited_spec, bool_decide_true by done.
  split; [eauto|done].
Qed.

Lemma capabilityBfs_invariant g reflectFns unsafeFns queried cfg c :
  let '(safe, nbc, expl) := classifyAndMerge g reflectFns unsafeFns cfg in
  bfsStInvariant safe expl (elements (lookupSet nbc c)) c
    (capabilityBfs g reflectFns unsafeFns queried cfg c).
Proof.
  unfold capabilityBfs.
  destruct (classifyAndMerge g reflectFns unsafeFns cfg) as [[safe nbc] expl].
  apply forEachCapability_invariant.
Qed.

Lemma forEachPath_capabilities g reflectFns unsafeFns queried cfg :
  forEachPath g reflectFns unsafeFns queried cfg =
  List.concat (map (fun c => st_trace (capabilityBfs g reflectFns unsafeFns queried cfg c))
    (sortBy capLess (map fst (map_to_list
       (classifyAndMerge g reflectFns unsafeFns cfg).1.2)))).
Proof.
  unfold forEachPath, forEachPath_in, capabilityBfs, classifyAndMerge. simpl.
  destruct (classifyAndMerge_in (canonicalOrder g) g reflectFns unsafeFns cfg)
    as [[safe nbc] expl]. reflexivity.
Qed.

(** ** Claims on the reverse BFS *)

(** C3: in the reverse BFS of [forEachPath], every predecessor edge
    recorded for a node [w] (in the final visited map and in every
    snapshot passed to a callback) has [w] as its caller, and [w] is
    neither safe nor in [allNodesWithExplicitCapability]; a safe node is
    never visited, and an explicitly classified node is visited only as a
    BFS root (zero state) of the capability it is explicitly classified
    with, so no search passes through it. *)
Theorem reverse_bfs_stops_at_safe_and_explicit (g : Graph)
    (reflectFns unsafeFns : gset Node) (queried : gset string) (cfg : Config)
    (c : Capability) :
  let '(safe, nbc, expl) := classifyAndMerge g reflectFns unsafeFns cfg in
  let st := capabilityBfs g reflectFns unsafeFns queried cfg c in
  forall vis, vis ∈ st_visited st :: map ev_state (st_trace st) ->
  forall w s, vis !! w = Some s ->
    (forall e, s = Some e -> Caller e = w /\ w ∉ safe /\ w ∉ expl) /\
    w ∉ safe /\
    (w ∈ expl -> s = None /\ explicitCap g (cfg_Classifier cfg) w = Some c).
Proof.
  pose proof (capabilityBfs_invariant g reflectFns unsafeFns queried cfg c) as Hinv.
  pose proof (classifyAndMerge_in_spec (canonicalOrder g) g reflectFns unsafeFns cfg
                (proj2 (canonicalOrder_valid g))) as Hspec.
  fold (classifyAndMerge g reflectFns unsafeFns cfg) in Hspec.
  destruct (classifyAndMerge g reflectFns unsafeFns cfg) as [[safe nbc] expl].
  destruct Hspec as (_ & _ & Hm).
  destruct Hinv as [Hv Ht].
  intros st vis Hvis w s Hl.
  assert (Hi : bfsInvariant safe expl (elements (lookupSet nbc c)) vis).
  { apply elem_of_cons in Hvis as [->|Hvis]; [exact Hv|].
    apply list_elem_of_In, in_map_iff in Hvis as [ev [<- Hev]].
    rewrite Forall_forall in Ht. apply list_elem_of_In in Hev.
    apply (Ht ev Hev). }
  specialize (Hi w s Hl).
  destruct s as [e|].
  - destruct Hi as (Hc & Hs & He). split; [intros ? [= <-]; done|].
    split; [done|]. intros Hw. contradiction.
  - destruct Hi as [Hr Hs]. split; [intros ? [=]|]. split; [done|].
    intros Hw. split; [done|].
    apply elem_of_elements, Hm in Hr as [[_ Hx]|[_ Hn]]; [done|contradiction].
Qed.

(** C1 (amended): a node classified safe is in no explicit nodeset and
    not in [allNodesWithExplicitCapability]; the merger may still add it
    to a derived nodeset, but for every capability the reverse BFS never
    visits it, and [forEachPath] makes no callback for it. *)
Theorem safe_nodes_never_reach_bfs (g : Graph) (reflectFns unsafeFns : gset Node)
    (queried : gset string) (cfg : Config) :
  let '(safe, nbc, expl) := classifyAndMerge g reflectFns unsafeFns cfg in
  forall v, v ∈ safe ->
    (forall c, v ∉ lookupSet (getNodeCapabilities g (cfg_Classifier cfg)).2 c) /\
    v ∉ expl /\
    (forall c, st_visited (capabilityBfs g reflectFns unsafeFns queried cfg c) !! v = None) /\
    Forall (fun ev => ev_node ev <> v) (forEachPath g reflectFns unsafeFns queried cfg).
Proof.
  pose proof (fun c => capabilityBfs_invariant g reflectFns unsafeFns queried cfg c) as Hinv.
  pose proof (classifyAndMerge_in_spec (canonicalOrder g) g reflectFns unsafeFns cfg
                (proj2 (canonicalOrder_valid g))) as Hspec.
  pose proof (forEachPath_capabilities g reflectFns unsafeFns queried cfg) as Hfe.
  fold (classifyAndMerge g reflectFns unsafeFns cfg) in Hspec.
  destruct (classifyAndMerge g reflectFns unsafeFns cfg) as [[safe nbc] expl].
  destruct Hspec as (Hs & He & _).
  intros v Hv. apply Hs in Hv as Hv'. destruct Hv' as [_ Hsafe].
  split; [|split; [|split]].
  - intros c Hc. apply getNodeCapabilities_explicit in Hc as [_ Hc].
    apply explicitCap_not_safe in Hc. congruence.
  - intros Hx. apply He in Hx as [c [_ Hc]].
    apply explicitCap_not_safe in Hc. congruence.
  - intros c. destruct (Hinv c) as [Hvis _].
    destruct (_ !! v) as [s|] eqn:Hl; [|done].
    specialize (Hvis v s Hl). destruct s; naive_solver.
  - rewrite Hfe. apply Forall_forall. intros ev Hev.
    apply list_elem_of_In, in_concat in Hev as [tr [Htr Hev]].
    apply in_map_iff in Htr as [c [<- _]].
    destruct (Hinv c) as [_ Ht]. rewrite Forall_forall in Ht.
    apply list_elem_of_In in Hev.
    destruct (Ht ev Hev) as (Hi & [s Hs'] & _).
    intros <-. specialize (Hi _ s Hs'). destruct s; naive_solver.
Qed.

Lemma reverse_bfs_stops_at_safe_and_explicit_witness :
  st_visited (capabilityBfs exGraph ∅ ∅ exQueried exConfig CAPABILITY_FILES) !! 2
    = Some (Some (mkEdge 2 3 20)) /\
  2 ∉ (classifyAndMerge exGraph ∅ ∅ exConfig).1.1 /\
  2 ∉ (classifyAndMerge exGraph ∅ ∅ exConfig).2.
Proof.
  assert (Hl : st_visited (capabilityBfs exGraph ∅ ∅ exQueried exConfig CAPABILITY_FILES) !! 2
                 = Some (Some (mkEdge 2 3 20))) by (vm_compute; reflexivity).
  pose proof (reverse_bfs_stops_at_safe_and_explicit exGraph ∅ ∅ exQueried exConfig
                CAPABILITY_FILES) as H.
  destruct (classifyAndMerge exGraph ∅ ∅ exConfig) as [[safe nbc] expl] eqn:E.
  destruct (H _ (list_elem_of_here _ _) 2 _ Hl) as (H1 & _ & _).
  destruct (H1 _ eq_refl) as (_ & H2 & H3).
  split; [exact Hl|]. split; assumption.
Defined.

Lemma safe_nodes_never_reach_bfs_witness :
  4 ∈ (classifyAndMerge exGraph ∅ ∅ exConfig).1.1 /\
  4 ∈ lookupSet (classifyAndMerge exGraph ∅ ∅ exConfig).1.2 CAPABILITY_ARBITRARY_EXECUTION /\
  st_visited (capabilityBfs exGraph ∅ ∅ exQueried exConfig CAPABILITY_ARBITRARY_EXECUTION) !! 4
    = None.
Proof.
  assert (Hs : 4 ∈ (classifyAndMerge exGraph ∅ ∅ exConfig).1.1) by by_computation.
  assert (Ha : 4 ∈ lookupSet (classifyAndMerge exGraph ∅ ∅ exConfig).1.2
                     CAPABILITY_ARBITRARY_EXECUTION) by by_computation.
  pose proof (safe_nodes_never_reach_bfs exGraph ∅ ∅ exQueried exConfig) as H.
  split; [exact Hs|]. split; [exact Ha|].
  revert Hs H.
  destruct (classifyAndMerge exGraph ∅ ∅ exConfig) as [[safe nbc] expl] eqn:E.
  intros Hs H. destruct (H 4 Hs) as (_ & _ & Hv & _). apply Hv.
Defined.

(** Events appended by expansion carry a predecessor edge at their node. *)
Lemma visitEdge_trace g queried safe expl cap st e :
  exists rest,
    st_trace (visitEdge g queried safe expl cap st e) = (st_trace st ++ rest)%list /\
    Forall (fun ev => ev_cap ev = cap /\
                      exists e', ev_state ev !! ev_node ev = Some (Some e')) rest.
Proof.
  assert (Hnil : exists rest, st_trace st = (st_trace st ++ rest)%list /\
            Forall (fun ev => ev_cap ev = cap /\
                      exists e', ev_state ev !! ev_node ev = Some (Some e')) rest)
    by (exists []; rewrite app_nil_r; split; [done|constructor]).
  unfold visitEdge.
  destruct (node_func g (Caller e)); [|exact Hnil].
  destruct (bool_decide (Caller e ∈ safe)); [exact Hnil|].
  destruct (st_visited st !! Caller e); [exact Hnil|].
  destruct (bool_decide (Caller e ∈ expl)); [exact Hnil|].
  simpl. destruct (inQueried g queried (Caller e)); [|exact Hnil].
  eexists. split; [reflexivity|]. constructor; [|constructor].
  simpl. split; [done|]. exists e. apply lookup_insert_eq.
Qed.

Lemma bfsLoop_trace g cl queried safe expl cap fuel :
  forall st, exists rest,
    st_trace (bfsLoop g cl queried safe expl cap fuel st) = (st_trace st ++ rest)%list /\
    Forall (fun ev => ev_cap ev = cap /\
                      exists e', ev_state ev !! ev_node ev = Some (Some e')) rest.
Proof.
  induction fuel as [|fuel IH]; intros st; simpl.
  { exists []. rewrite app_nil_r. split; [done|constructor]. }
  destruct (st_queue st) as [|v q].
  { exists []. rewrite app_nil_r. split; [done|constructor]. }
  assert (Hf : forall es st', exists rest,
     st_trace (foldl (visitEdge g queried safe expl cap) st' es)
       = (st_trace st' ++ rest)%list /\
     Forall (fun ev => ev_cap ev = cap /\
                       exists e', ev_state ev !! ev_node ev = Some (Some e')) rest).
  { induction es as [|e es IHes]; intros st'; simpl.
    - exists []. rewrite app_nil_r. split; [done|constructor].
    - destruct (visitEdge_trace g queried safe expl cap st' e) as [r1 [H1 F1]].
      destruct (IHes (visitEdge g queried safe expl cap st' e)) as [r2 [H2 F2]].
      exists (r1 ++ r2)%list. rewrite H2, H1, app_assoc.
      split; [done|]. by apply Forall_app. }
  destruct (Hf (incomingEdges g cl v) (mkBfsSt (st_visited st) q (st_trace st)))
    as [r1 [H1 F1]].
  destruct (IH (foldl (visitEdge g queried safe expl cap)
                  (mkBfsSt (st_visited st) q (st_trace st)) (incomingEdges g cl v)))
    as [r2 [H2 F2]].
  exists (r1 ++ r2)%list. rewrite H2, H1. simpl. rewrite app_assoc.
  split; [done|]. by apply Forall_app.
Qed.

Lemma forEachCapability_trace g cl queried safe expl cap fuel order :
  exists rest,
    st_trace (forEachCapability g cl queried safe expl cap fuel order)
      = (rootEvents g queried safe cap order ++ rest)%list /\
    Forall (fun ev => ev_cap ev = cap /\
                      exists e', ev_state ev !! ev_node ev = Some (Some e')) rest.
Proof. unfold forEachCapability. apply bfsLoop_trace. Qed.

(** C5: a root [v] of capability [c] (in the merged nodeset of [c] and
    not safe) whose package is queried gets a callback for [(c, v)] whose
    state holds no predecessor for [v], so the reported path is [v]
    alone (when paths are not omitted); these root callbacks form a
    prefix of the callbacks for [c], and every callback after them comes
    from BFS expansion (its node has a predecessor edge). *)
Theorem queried_root_reported_first (g : Graph) (reflectFns unsafeFns : gset Node)
    (queried : gset string) (cfg : Config) (c : Capability) :
  let '(safe, nbc, expl) := classifyAndMerge g reflectFns unsafeFns cfg in
  forall v, v ∈ lookupSet nbc c -> v ∉ safe -> inQueried g queried v = true ->
  exists pre rest vis,
    st_trace (capabilityBfs g reflectFns unsafeFns queried cfg c) = (pre ++ rest)%list /\
    mkEvent c vis v ∈ pre /\
    vis !! v = Some None /\
    (forall stdPrefixes, cfg_OmitPaths cfg = false ->
       ci_path (capabilityInfoOf g stdPrefixes cfg c vis v) = [(v, None)]) /\
    Forall (fun ev => ev_cap ev = c /\ ev_state ev !! ev_node ev = Some None) pre /\
    Forall (fun ev => ev_cap ev = c /\
                      exists e, ev_state ev !! ev_node ev = Some (Some e)) rest.
Proof.
  unfold capabilityBfs.
  destruct (classifyAndMerge g reflectFns unsafeFns cfg) as [[safe nbc] expl].
  intros v Hv Hs Hq.
  set (order := elements (lookupSet nbc c)).
  destruct (forEachCapability_trace g (cfg_Classifier cfg) queried safe expl c
              (bfsFuel g) order) as [rest [Ht Hr]].
  assert (Hv0 : initialVisited safe order !! v = Some None).
  { rewrite initialVisited_spec, bool_decide_true; [done|].
    split; [by apply elem_of_elements|done]. }
  exists (rootEvents g queried safe c order), rest, (initialVisited safe order).
  split; [exact Ht|]. split; [|split; [exact Hv0|split; [|split; [|exact Hr]]]].
  - unfold rootEvents. apply list_elem_of_In, in_map_iff.
    exists v. split; [done|]. apply list_elem_of_In, elem_of_filter_bool. split; [|exact Hq].
    apply rootQueue_elem. split; [by apply elem_of_elements|done].
  - intros stdPrefixes Ho. unfold capabilityInfoOf. cbn [capabilityInfoLoop].
    rewrite Ho. match goal with |- context [bfsNext ?x] => replace x with (Some (None : bfsState)) end; reflexivity.
  - unfold rootEvents. apply Forall_forall. intros ev Hev.
    apply list_elem_of_In, in_map_iff in Hev as [w [<- Hw]].
    apply list_elem_of_In, elem_of_filter_bool in Hw as [Hw _].
    apply rootQueue_elem in Hw. simpl. split; [done|].
    rewrite initialVisited_spec, bool_decide_true by done. done.
Qed.

Lemma queried_root_reported_first_witness :
  6 ∈ lookupSet (classifyAndMerge exGraph ∅ ∅ exConfig).1.2 CAPABILITY_ARBITRARY_EXECUTION /\
  6 ∉ (classifyAndMerge exGraph ∅ ∅ exConfig).1.1 /\
  inQueried exGraph exQueried 6 = true /\
  exists vis, mkEvent CAPABILITY_ARBITRARY_EXECUTION vis 6 ∈
    st_trace (capabilityBfs exGraph ∅ ∅ exQueried exConfig CAPABILITY_ARBITRARY_EXECUTION)
    /\ vis !! 6 = Some None.
Proof.
  assert (H1 : 6 ∈ lookupSet (classifyAndMerge exGraph ∅ ∅ exConfig).1.2
                     CAPABILITY_ARBITRARY_EXECUTION) by by_computation.
  assert (H2 : 6 ∉ (classifyAndMerge exGraph ∅ ∅ exConfig).1.1) by by_computation.
  assert (H3 : inQueried exGraph exQueried 6 = true) by (vm_compute; reflexivity).
  pose proof (queried_root_reported_first exGraph ∅ ∅ exQueried exConfig
                CAPABILITY_ARBITRARY_EXECUTION) as H.
  split; [exact H1|]. split; [exact H2|]. split; [exact H3|].
  revert H1 H2 H.
  destruct (classifyAndMerge exGraph ∅ ∅ exConfig) as [[safe nbc] expl] eqn:E.
  intros H1 H2 H.
  destruct (H 6 H1 H2 H3) as (pre & rest & vis & Ht & Hin & Hl & _).
  exists vis. rewrite Ht. split; [|exact Hl].
  apply elem_of_app. left. exact Hin.
Defined.

(** ** Claims on [GetCapabilityStats] and [GetCapabilityInfo] *)

(** ** Independence from the iteration orders *)

Lemma foldl_perm_comm {A B} (f : B -> A -> B) :
  (forall b x y, f (f b x) y = f (f b y) x) ->
  forall l1 l2, l1 ≡ₚ l2 -> forall b, foldl f b l1 = foldl f b l2.
Proof.
  intros Hc l1 l2 Hp. induction Hp as [|x l1 l2 _ IH|x y l|l1 l2 l3 _ IH1 _ IH2];
    intros b; simpl.
  - done.
  - apply IH.
  - by rewrite Hc.
  - by rewrite IH1, IH2.
Qed.

Lemma foldl_ext_fun {A B} (f1 f2 : A -> B -> A) :
  (forall m x, f1 m x = f2 m x) -> forall l m, foldl f1 m l = foldl f2 m l.
Proof.
  intros Hf l. induction l as [|x l IH]; intros m; simpl; [done|]. by rewrite Hf, IH.
Qed.

Lemma foldl_swap_one {A B C} (f : A -> B -> A) (h : A -> C -> A) y :
  (forall m x, h (f m x) y = f (h m y) x) ->
  forall l m, h (foldl f m l) y = foldl f (h m y) l.
Proof.
  intros Hc l. induction l as [|x l IH]; intros m; simpl; [done|].
  by rewrite IH, Hc.
Qed.

Lemma foldl_swap {A B C} (f : A -> B -> A) (h : A -> C -> A) :
  (forall m x y, h (f m x) y = f (h m y) x) ->
  forall l' l m, foldl h (foldl f m l) l' = foldl f (foldl h m l') l.
Proof.
  intros Hc l'. induction l' as [|y l' IH]; intros l m; simpl; [done|].
  rewrite (foldl_swap_one f h y) by auto. apply IH.
Qed.

Lemma foldl_invariant {A B} (P : A -> Prop) (f : A -> B -> A) (l : list B) :
  (forall m x, x ∈ l -> P m -> P (f m x)) -> forall m, P m -> P (foldl f m l).
Proof.
  induction l as [|x l IH]; intros Hs m Hm; simpl; [done|].
  apply IH; [intros; apply Hs; [by right|done]|]. apply Hs; [left|done].
Qed.

Lemma filter_perm {A} (p : A -> bool) (l1 l2 : list A) :
  l1 ≡ₚ l2 -> List.filter p l1 ≡ₚ List.filter p l2.
Proof.
  induction 1 as [|x l1 l2 _ IH|x y l|l1 l2 l3 _ IH1 _ IH2]; simpl.
  - done.
  - destruct (p x); [by constructor|done].
  - destruct (p x), (p y); try done; by constructor.
  - by rewrite IH1.
Qed.

Lemma nodeset_add_comm m c1 v1 c2 v2 :
  nodeset_add (nodeset_add m c1 v1) c2 v2 = nodeset_add (nodeset_add m c2 v2) c1 v1.
Proof.
  unfold nodeset_add. apply map_eq. intros c.
  destruct (decide (c = c1)), (decide (c = c2)); subst;
    repeat first [rewrite lookup_insert_eq | rewrite lookup_insert_ne by congruence];
    try done; f_equal; set_solver.
Qed.

Lemma getNodeCapabilities_step_comm g cl acc x y :
  getNodeCapabilities_step g cl (getNodeCapabilities_step g cl acc x) y =
  getNodeCapabilities_step g cl (getNodeCapabilities_step g cl acc y) x.
Proof.
  destruct acc as [safe nbc]. unfold getNodeCapabilities_step.
  repeat case_match; simplify_eq/=; try done;
    try (f_equal; set_solver); f_equal; apply nodeset_add_comm.
Qed.

Lemma getNodeCapabilities_in_perm l1 l2 g cl :
  l1 ≡ₚ l2 -> getNodeCapabilities_in l1 g cl = getNodeCapabilities_in l2 g cl.
Proof.
  intros Hp. unfold getNodeCapabilities_in.
  apply foldl_perm_comm; [apply getNodeCapabilities_step_comm|done].
Qed.

Lemma addFound_step_comm g c m x y :
  addFound_step g c (addFound_step g c m x) y = addFound_step g c (addFound_step g c m y) x.
Proof.
  unfold addFound_step.
  destruct (bool_decide (x ∈ graph_nodes g) && bool_decide (is_Some (node_func g x))),
           (bool_decide (y ∈ graph_nodes g) && bool_decide (is_Some (node_func g y)));
    try done. apply nodeset_add_comm.
Qed.

Lemma asm_step_comm g m x y :
  asm_step g (asm_step g m x) y = asm_step g (asm_step g m y) x.
Proof.
  unfold asm_step.
  repeat case_match; simplify_eq/=; try done. apply nodeset_add_comm.
Qed.

Lemma order_nodes_perm o1 o2 s :
  validIterators o1 -> validIterators o2 -> order_nodes o1 s ≡ₚ order_nodes o2 s.
Proof. intros [_ H1] [_ H2]. by rewrite H1, H2. Qed.

Lemma order_caps_perm o1 o2 m :
  validIterators o1 -> validIterators o2 -> order_caps o1 m ≡ₚ order_caps o2 m.
Proof. intros [H1 _] [H2 _]. by rewrite H1, H2. Qed.

Lemma getExtraNodesByCapability_in_indep g o1 o2 reflectFns unsafeFns :
  validOrder g o1 -> validOrder g o2 ->
  getExtraNodesByCapability_in o1 g reflectFns unsafeFns =
  getExtraNodesByCapability_in o2 g reflectFns unsafeFns.
Proof.
  intros [Hg1 Ho1] [Hg2 Ho2]. unfold getExtraNodesByCapability_in, addFound.
  rewrite (foldl_perm_comm (addFound_step g CAPABILITY_REFLECT) (addFound_step_comm _ _)
             (order_nodes o1 reflectFns) (order_nodes o2 reflectFns))
    by (by apply order_nodes_perm).
  rewrite (foldl_perm_comm (addFound_step g CAPABILITY_UNSAFE_POINTER) (addFound_step_comm _ _)
             (order_nodes o1 unsafeFns) (order_nodes o2 unsafeFns))
    by (by apply order_nodes_perm).
  apply foldl_perm_comm; [apply asm_step_comm|]. by rewrite Hg1, Hg2.
Qed.

Lemma allNodesWithExplicitCapability_indep o1 o2 nbc :
  validIterators o1 -> validIterators o2 ->
  allNodesWithExplicitCapability o1 nbc = allNodesWithExplicitCapability o2 nbc.
Proof.
  intros H1 H2. apply leibniz_equiv, set_equiv. intros v.
  by rewrite !allNodesWithExplicitCapability_spec.
Qed.

Lemma merge_one_comm expl c1 c2 m x y :
  merge_one expl c2 (merge_one expl c1 m x) y = merge_one expl c1 (merge_one expl c2 m y) x.
Proof.
  unfold merge_one.
  destruct (bool_decide (x ∈ expl)), (bool_decide (y ∈ expl)); try done.
  apply nodeset_add_comm.
Qed.

Lemma mergeCapabilities_indep o1 o2 nbc extra :
  validIterators o1 -> validIterators o2 ->
  mergeCapabilities o1 nbc extra = mergeCapabilities o2 nbc extra.
Proof.
  intros H1 H2. unfold mergeCapabilities.
  rewrite (allNodesWithExplicitCapability_indep o1 o2 nbc H1 H2).
  set (expl := allNodesWithExplicitCapability o2 nbc). f_equal.
  set (F o m cap := foldl (merge_one expl cap) m (order_nodes o (lookupSet extra cap))).
  change (foldl (F o1) nbc (order_caps o1 extra) = foldl (F o2) nbc (order_caps o2 extra)).
  assert (HF : forall m cap, F o1 m cap = F o2 m cap).
  { intros m cap. unfold F. apply foldl_perm_comm.
    - intros; apply merge_one_comm.
    - by apply order_nodes_perm. }
  rewrite (foldl_ext_fun (F o1) (F o2) HF).
  apply foldl_perm_comm; [|by apply order_caps_perm].
  intros m c1 c2. unfold F. apply foldl_swap. intros; apply merge_one_comm.
Qed.

Lemma classifyAndMerge_in_indep g o1 o2 reflectFns unsafeFns cfg :
  validOrder g o1 -> validOrder g o2 ->
  classifyAndMerge_in o1 g reflectFns unsafeFns cfg =
  classifyAndMerge_in o2 g reflectFns unsafeFns cfg.
Proof.
  intros H1 H2. unfold classifyAndMerge_in, getPackageNodesWithCapability_in.
  rewrite (getNodeCapabilities_in_perm (order_graphNodes o1) (order_graphNodes o2))
    by (by rewrite (proj1 H1), (proj1 H2)).
  rewrite (getExtraNodesByCapability_in_indep g o1 o2) by done.
  destruct (getNodeCapabilities_in (order_graphNodes o2) g (cfg_Classifier cfg)) as [safe nbc].
  by rewrite (mergeCapabilities_indep o1 o2) by apply H1 || apply H2.
Qed.

Section SortUnique.
Context {A : Type} (less : A -> A -> bool) (D : A -> Prop).
Hypothesis less_irrefl : forall x, less x x = false.
Hypothesis less_trans : forall x y z, less x y = true -> less y z = true -> less x z = true.
Hypothesis less_total : forall x y, D x -> D y -> x <> y ->
  less x y = true \/ less y x = true.

Let R x y := less x y = true.

Lemma insertBy_sorted x l :
  StronglySorted R l -> Forall D l -> D x -> x ∉ l ->
  StronglySorted R (insertBy less x l).
Proof.
  induction l as [|y l IH]; intros Hs HD Hx Hn; simpl.
  - repeat constructor.
  - apply StronglySorted_inv in Hs as [Hs Hy]. apply Forall_cons in HD as [HDy HD].
    destruct (less x y) eqn:Exy.
    + constructor; [by constructor|]. constructor; [done|].
      eapply Forall_impl; [exact Hy|]. intros z Hz. eapply less_trans; eauto.
    + constructor.
      * apply IH; [done|done|done|set_solver].
      * rewrite (insertBy_perm less x l).
        constructor; [|done].
        destruct (less_total x y Hx HDy) as [H|H]; [set_solver|congruence|done].
Qed.

Lemma sortBy_sorted_aux l :
  forall acc, StronglySorted R acc -> Forall D acc -> Forall D l -> NoDup (acc ++ l) ->
  StronglySorted R (foldl (fun acc x => insertBy less x acc) acc l).
Proof.
  induction l as [|x l IH]; intros acc Hs HDa HDl Hnd; simpl; [done|].
  apply Forall_cons in HDl as [HDx HDl].
  apply NoDup_app in Hnd as (Hnda & Hdisj & Hndl).
  apply NoDup_cons in Hndl as [Hxl Hndl].
  apply IH.
  - apply insertBy_sorted; [done|done|done|].
    intros Hin. apply (Hdisj x Hin). by left.
  - rewrite (insertBy_perm less x acc). by constructor.
  - done.
  - rewrite (insertBy_perm less x acc). simpl. apply NoDup_cons. split.
    + rewrite elem_of_app. intros [Hin|Hin]; [apply (Hdisj x Hin); by left|done].
    + apply NoDup_app. split_and!; [done| |done].
      intros z Hz1 Hz2. apply (Hdisj z Hz1). by right.
Qed.

Lemma sortBy_sorted l :
  Forall D l -> NoDup l -> StronglySorted R (sortBy less l).
Proof. intros. apply sortBy_sorted_aux; [constructor|constructor|done|done]. Qed.

Lemma sorted_perm_eq l1 :
  forall l2, StronglySorted R l1 -> StronglySorted R l2 -> l1 ≡ₚ l2 -> l1 = l2.
Proof.
  induction l1 as [|x l1 IH]; intros l2 Hs1 Hs2 Hp.
  - symmetry. by apply Permutation_nil.
  - destruct l2 as [|y l2]; [by symmetry in Hp; apply Permutation_nil_cons in Hp|].
    apply StronglySorted_inv in Hs1 as [Hs1 Hx], Hs2 as [Hs2 Hy].
    assert (Hxin : x ∈ y :: l2) by (rewrite <- Hp; left).
    apply elem_of_cons in Hxin as [<-|Hxl2].
    + f_equal. apply IH; [done|done|]. by apply Permutation_cons_inv in Hp.
    + exfalso. rewrite Forall_forall in Hx, Hy.
      assert (Hyin : y ∈ x :: l1) by (rewrite Hp; left).
      apply elem_of_cons in Hyin as [->|Hyl1].
      * pose proof (Hy x Hxl2) as Hxx. unfold R in Hxx. by rewrite less_irrefl in Hxx.
      *
        pose proof (less_trans x y x (Hx y Hyl1) (Hy x Hxl2)) as Hxx.
        by rewrite less_irrefl in Hxx.
Qed.

Lemma sortBy_unique l1 l2 :
  l1 ≡ₚ l2 -> NoDup l1 -> Forall D l1 -> sortBy less l1 = sortBy less l2.
Proof.
  intros Hp Hnd HD. apply sorted_perm_eq.
  - by apply sortBy_sorted.
  - apply sortBy_sorted; [by rewrite <- Hp|by rewrite <- Hp].
  - by rewrite !sortBy_perm.
Qed.
End SortUnique.


Lemma CmpOrder_refl {A} (cmp : A -> A -> comparison) x :
  CmpOrder cmp -> cmp x x = Eq.
Proof. intros (_ & Ha & _). specialize (Ha x x). destruct (cmp x x); done. Qed.

Lemma string_compare_as_OT s1 s2 :
  String.compare s1 s2 = OrdersEx.String_as_OT.compare s1 s2.
Proof.
  (* The two fixpoints have the same body up to unfolding. *)
  reflexivity.
Qed.

Lemma string_CmpOrder : CmpOrder String.compare.
Proof.
  split_and!.
  - apply String.compare_eq_iff.
  - intros x y. apply String.compare_antisym.
  - intros x y z. rewrite !string_compare_as_OT. apply OrdersEx.String_as_OT.lt_strorder.
Qed.

Lemma nat_CmpOrder : CmpOrder Nat.compare.
Proof.
  split_and!.
  - intros x y. apply Nat.compare_eq_iff.
  - intros x y. apply Nat.compare_antisym.
  - intros x y z. rewrite !Nat.compare_lt_iff. lia.
Qed.

Lemma pairCompare_CmpOrder {A B} (ca : A -> A -> comparison) (cb : B -> B -> comparison) :
  CmpOrder ca -> CmpOrder cb -> CmpOrder (pairCompare ca cb).
Proof.
  intros Ha Hb. pose proof Ha as (Ea & Aa & Ta). pose proof Hb as (Eb & Ab & Tb).
  unfold pairCompare, lexCompare. split_and!.
  - intros [x1 x2] [y1 y2]; simpl.
    destruct (ca x1 y1) eqn:E; try done. intros E2.
    by rewrite (Ea _ _ E), (Eb _ _ E2).
  - intros [x1 x2] [y1 y2]; simpl. rewrite (Aa x1 y1), (Ab x2 y2).
    by destruct (ca x1 y1).
  - intros [x1 x2] [y1 y2] [z1 z2]; simpl.
    destruct (ca x1 y1) eqn:E1, (ca y1 z1) eqn:E2; try done.
    + apply Ea in E1, E2. subst. rewrite (CmpOrder_refl ca z1 Ha). apply Tb.
    + apply Ea in E1. subst. by rewrite E2.
    + apply Ea in E2. subst. by rewrite E1.
    + by rewrite (Ta _ _ _ E1 E2).
Qed.

Lemma keyCompare_CmpOrder : CmpOrder keyCompare.
Proof.
  unfold keyCompare.
  repeat apply pairCompare_CmpOrder; auto using string_CmpOrder, nat_CmpOrder.
Qed.


Lemma funcLess_irrefl g v : funcLess g v v = false.
Proof.
  unfold funcLess, funcCompare. by rewrite (CmpOrder_refl _ _ keyCompare_CmpOrder).
Qed.

Lemma funcLess_trans g x y z :
  funcLess g x y = true -> funcLess g y z = true -> funcLess g x z = true.
Proof.
  unfold funcLess, funcCompare. destruct keyCompare_CmpOrder as (_ & _ & T).
  destruct (keyCompare (funcKey g x) (funcKey g y)) eqn:E1; try done.
  destruct (keyCompare (funcKey g y) (funcKey g z)) eqn:E2; try done.
  by rewrite (T _ _ _ E1 E2).
Qed.

Lemma funcLess_total g x y :
  funcKeyInjective g ->
  (x ∈ graph_nodes g /\ is_Some (node_func g x)) ->
  (y ∈ graph_nodes g /\ is_Some (node_func g y)) -> x <> y ->
  funcLess g x y = true \/ funcLess g y x = true.
Proof.
  intros Hinj [Hx Fx] [Hy Fy] Hne. unfold funcLess, funcCompare.
  destruct keyCompare_CmpOrder as (E & An & _).
  rewrite (An (funcKey g x) (funcKey g y)).
  destruct (keyCompare (funcKey g x) (funcKey g y)) eqn:Exy; simpl; auto.
  exfalso. apply Hne, Hinj; auto.
Qed.

Lemma capLess_irrefl c : capLess c c = false.
Proof. unfold capLess. apply Nat.ltb_irrefl. Qed.

Lemma capLess_trans x y z :
  capLess x y = true -> capLess y z = true -> capLess x z = true.
Proof. unfold capLess. rewrite !Nat.ltb_lt. lia. Qed.

Lemma Capability_enum_inj x y : Capability_enum x = Capability_enum y -> x = y.
Proof.
  intros H. assert (Hr : forall c, Capability_of_enum (Capability_enum c) = c)
    by (intros []; reflexivity).
  by rewrite <- (Hr x), <- (Hr y), H.
Qed.

Lemma initialVisited_perm safe l1 l2 :
  l1 ≡ₚ l2 -> initialVisited safe l1 = initialVisited safe l2.
Proof.
  intros Hp. unfold initialVisited. apply foldl_perm_comm; [|done].
  intros m x y.
  destruct (bool_decide (x ∈ safe)), (bool_decide (y ∈ safe)); try done.
  destruct (decide (x = y)) as [->|Hne]; [done|]. by apply insert_insert_ne.
Qed.

Lemma explicitCap_func g cl v c : explicitCap g cl v = Some c -> is_Some (node_func g v).
Proof. unfold explicitCap. destruct (node_func g v); [eauto|done]. Qed.

Lemma getExtraNodesByCapability_in_nodes o g reflectFns unsafeFns c v :
  validOrder g o ->
  v ∈ lookupSet (getExtraNodesByCapability_in o g reflectFns unsafeFns) c ->
  v ∈ graph_nodes g /\ is_Some (node_func g v).
Proof.
  intros [Hg _]. revert c v.
  set (P (m : gmap Capability (gset Node)) :=
         forall c v, v ∈ lookupSet m c -> v ∈ graph_nodes g /\ is_Some (node_func g v)).
  change (P (getExtraNodesByCapability_in o g reflectFns unsafeFns)).
  assert (Hadd : forall m c x, P m -> x ∈ graph_nodes g -> is_Some (node_func g x) ->
                 P (nodeset_add m c x)).
  { intros m c x Hm Hx Fx c' v. rewrite lookupSet_add.
    intros [[_ ->]|Hv]; [done|by apply (Hm c')]. }
  assert (Hfound : forall c l m, P m -> P (addFound g c l m)).
  { intros c l. apply foldl_invariant. intros m x _ Hm. unfold addFound_step.
    destruct (bool_decide (x ∈ graph_nodes g)) eqn:E1,
             (bool_decide (is_Some (node_func g x))) eqn:E2; simpl; try done.
    apply bool_decide_eq_true in E1, E2. by apply Hadd. }
  unfold getExtraNodesByCapability_in. apply foldl_invariant.
  - intros m x Hx Hm. unfold asm_step.
    destruct (node_func g x) as [f|] eqn:Ef; [|done].
    destruct (Func_hasBlocks f); [done|].
    case_bool_decide; [done|]. apply Hadd; [done| |by rewrite Ef].
    by rewrite <- Hg.
  - apply Hfound, Hfound. intros c v Hv. by apply lookupSet_empty in Hv.
Qed.

Lemma classifyAndMerge_in_nodes o g reflectFns unsafeFns cfg :
  validOrder g o ->
  forall c v, v ∈ lookupSet (classifyAndMerge_in o g reflectFns unsafeFns cfg).1.2 c ->
  v ∈ graph_nodes g /\ is_Some (node_func g v).
Proof.
  intros Ho. pose proof (classifyAndMerge_in_spec o g reflectFns unsafeFns cfg (proj2 Ho)) as Hs.
  destruct (classifyAndMerge_in o g reflectFns unsafeFns cfg) as [[safe merged] expl].
  destruct Hs as (_ & _ & Hm). intros c v Hv. simpl in Hv. apply Hm in Hv.
  destruct Hv as [[Hv He]|[Hv _]].
  - split; [by rewrite <- (proj1 Ho)|]. by eapply explicitCap_func.
  - destruct (cfg_DisableBuiltin cfg); [by apply lookupSet_empty in Hv|].
    by eapply getExtraNodesByCapability_in_nodes.
Qed.

Lemma sortBy_caps_indep o1 o2 (m : gmap Capability (gset Node)) :
  validIterators o1 -> validIterators o2 ->
  sortBy capLess (order_caps o1 m) = sortBy capLess (order_caps o2 m).
Proof.
  intros H1 H2. apply (sortBy_unique capLess (fun _ => True)).
  - apply capLess_irrefl.
  - apply capLess_trans.
  - intros x y _ _ Hne. unfold capLess. rewrite !Nat.ltb_lt.
    assert (Capability_enum x <> Capability_enum y) by (intros E; by apply Hne, Capability_enum_inj).
    lia.
  - by apply order_caps_perm.
  - rewrite (proj1 H1 m). apply NoDup_fst_map_to_list.
  - by apply Forall_true.
Qed.

Lemma rootQueue_indep g safe o1 o2 (S : gset Node) :
  validIterators o1 -> validIterators o2 -> funcKeyInjective g ->
  (forall v, v ∈ S -> v ∈ graph_nodes g /\ is_Some (node_func g v)) ->
  rootQueue g safe (order_nodes o1 S) = rootQueue g safe (order_nodes o2 S).
Proof.
  intros H1 H2 Hinj HS. unfold rootQueue.
  apply (sortBy_unique (funcLess g) (fun v => v ∈ graph_nodes g /\ is_Some (node_func g v))).
  - apply funcLess_irrefl.
  - apply funcLess_trans.
  - intros x y Hx Hy Hne. by apply funcLess_total.
  - apply filter_perm. by apply order_nodes_perm.
  - apply NoDup_ListNoDup, List.NoDup_filter, NoDup_ListNoDup. rewrite (proj2 H1 S). apply NoDup_elements.
  - apply Forall_forall. intros v Hv.
    apply list_elem_of_In, filter_In in Hv as [Hv _]. apply list_elem_of_In in Hv.
    apply HS. by apply (order_nodes_elem o1).
Qed.

Lemma forEachCapability_indep g cl queried safe expl c fuel o1 o2 (S : gset Node) :
  validIterators o1 -> validIterators o2 -> funcKeyInjective g ->
  (forall v, v ∈ S -> v ∈ graph_nodes g /\ is_Some (node_func g v)) ->
  forEachCapability g cl queried safe expl c fuel (order_nodes o1 S) =
  forEachCapability g cl queried safe expl c fuel (order_nodes o2 S).
Proof.
  intros H1 H2 Hinj HS. unfold forEachCapability, rootEvents.
  rewrite (initialVisited_perm safe (order_nodes o1 S) (order_nodes o2 S))
    by (by apply order_nodes_perm).
  by rewrite (rootQueue_indep g safe o1 o2 S).
Qed.

(** C6: for fixed input and classifier, under the spec's assumption that
    the function key orders the functions totally, any two runs, whatever
    the iteration orders of the Go maps, make the same sequence of
    aggregator callbacks (capability, visited snapshot, node), and
    [GetCapabilityInfo] returns the same configuration and the same
    list (the intermediate granularity, computed by the unmodelled
    [intermediatePackages], apart). *)
Theorem forEachPath_deterministic g reflectFns unsafeFns queried cfg o1 o2 :
  validOrder g o1 -> validOrder g o2 -> funcKeyInjective g ->
  forEachPath_in o1 g reflectFns unsafeFns queried cfg =
  forEachPath_in o2 g reflectFns unsafeFns queried cfg /\
  (forall intermediatePackages stdPrefixes,
   cfg_Granularity cfg <> GranularityIntermediate ->
   GetCapabilityInfo_in intermediatePackages o1 g stdPrefixes reflectFns unsafeFns queried cfg =
   GetCapabilityInfo_in intermediatePackages o2 g stdPrefixes reflectFns unsafeFns queried cfg).
Proof.
  intros H1 H2 Hinj.
  assert (Hrun : forall cfg, forEachPath_in o1 g reflectFns unsafeFns queried cfg =
                             forEachPath_in o2 g reflectFns unsafeFns queried cfg).
  { intros cfg'. unfold forEachPath_in.
    pose proof (classifyAndMerge_in_nodes o2 g reflectFns unsafeFns cfg' H2) as Hn.
    rewrite (classifyAndMerge_in_indep g o1 o2) by done.
    destruct (classifyAndMerge_in o2 g reflectFns unsafeFns cfg') as [[safe nbc] expl].
    simpl in Hn.
    rewrite (sortBy_caps_indep o1 o2 nbc (proj2 H1) (proj2 H2)).
    f_equal. apply map_ext. intros c. f_equal.
    apply forEachCapability_indep; [apply H1|apply H2|done|]. intros v. apply Hn. }
  split; [apply Hrun|].
  intros ip sp Hgr. unfold GetCapabilityInfo_in. cbv zeta.
  destruct (bool_decide (cfg_Granularity cfg = GranularityUnset)); simpl;
    try (rewrite bool_decide_false by (simpl; congruence)); by rewrite Hrun.
Qed.

Lemma forEachPath_deterministic_witness :
  validOrder exGraph (canonicalOrder exGraph) /\
  validOrder exGraph (reversedOrder exGraph) /\
  funcKeyInjective exGraph /\
  forEachPath_in (canonicalOrder exGraph) exGraph ∅ ∅ exQueried exConfig =
  forEachPath_in (reversedOrder exGraph) exGraph ∅ ∅ exQueried exConfig.
Proof.
  assert (H1 : validOrder exGraph (canonicalOrder exGraph)).
  { split; [reflexivity|]. split; intros; reflexivity. }
  assert (H2 : validOrder exGraph (reversedOrder exGraph)).
  { split; [symmetry; apply Permutation_rev|]. split; intros; symmetry; apply Permutation_rev. }
  assert (H3 : funcKeyInjective exGraph).
  { intros v w Hv Hw _ _ Hk. apply list_elem_of_In in Hv, Hw. simpl in Hv, Hw.
    destruct Hv as [<-|[<-|[<-|[<-|[<-|[<-|[]]]]]]];
    destruct Hw as [<-|[<-|[<-|[<-|[<-|[<-|[]]]]]]];
    vm_compute in Hk; congruence. }
  split_and!; [exact H1|exact H2|exact H3|].
  exact (proj1 (forEachPath_deterministic exGraph ∅ ∅ exQueried exConfig
                  (canonicalOrder exGraph) (reversedOrder exGraph) H1 H2 H3)).
Defined.

Lemma eventCount_snoc tr ev k :
  eventCount (tr ++ [ev])%list k =
  eventCount tr k + (if bool_decide (ev_cap ev = k) then 1 else 0).
Proof.
  unfold eventCount. rewrite List.filter_app, length_app. simpl.
  destruct (bool_decide (ev_cap ev = k)); simpl; lia.
Qed.

Lemma statsCallback_inv g stdPrefixes cfg cm tr ev :
  statsInv cm tr -> statsInv (statsCallback g stdPrefixes cfg cm ev) (tr ++ [ev])%list.
Proof.
  intros [Hnone Hsome]. unfold statsCallback.
  set (cap := ev_cap ev).
  set (cm1 := match cm !! cap with
              | Some c => _ | None => _ end).
  assert (H1 : exists c1, cm1 !! cap = Some c1 /\ cc_capability c1 = cap /\
             cc_direct_count c1 + cc_transitive_count c1 + 1 = cc_count c1 /\
             cc_count c1 = eventCount tr cap + 1).
  { subst cm1. destruct (cm !! cap) as [c0|] eqn:H0.
    - destruct (Hsome _ _ H0) as (Hc & Hs & Hn).
      eexists. rewrite lookup_insert_eq. split; [reflexivity|]. simpl. split; [done|lia].
    - specialize (Hnone _ H0).
      eexists. rewrite lookup_insert_eq. split; [reflexivity|]. simpl. split; [done|lia]. }
  assert (H1ne : forall k, k <> cap -> cm1 !! k = cm !! k).
  { intros k Hk. subst cm1. destruct (cm !! cap); by rewrite lookup_insert_ne by congruence. }
  clearbody cm1. destruct H1 as (c1 & Hc1 & Hcap & Hsum & Hcnt).
  destruct (statsPathLoop g stdPrefixes _ _ _ _ _ _ _ _ _) as [isDirect ex].
  rewrite Hc1.
  set (cm2 := if isDirect then _ else _).
  assert (H2 : exists c2, cm2 !! cap = Some c2 /\ cc_capability c2 = cap /\
             cc_direct_count c2 + cc_transitive_count c2 = cc_count c2 /\
             cc_count c2 = eventCount tr cap + 1).
  { subst cm2. destruct isDirect; eexists; rewrite lookup_insert_eq;
      (split; [reflexivity|]); simpl; (split; [done|lia]). }
  assert (H2ne : forall k, k <> cap -> cm2 !! k = cm !! k).
  { intros k Hk. subst cm2. rewrite <- H1ne by done.
    destruct isDirect; by rewrite lookup_insert_ne by congruence. }
  clearbody cm2. destruct H2 as (c2 & Hc2 & Hcap2 & Hsum2 & Hcnt2).
  rewrite Hc2. split.
  - intros k Hk. destruct (decide (k = cap)) as [->|Hne].
    + by rewrite lookup_insert_eq in Hk.
    + rewrite lookup_insert_ne in Hk by congruence. rewrite H2ne in Hk by done.
      rewrite eventCount_snoc, bool_decide_false by done. rewrite Hnone by done. done.
  - intros k cc Hk. destruct (decide (k = cap)) as [->|Hne].
    + rewrite lookup_insert_eq in Hk. injection Hk as <-. simpl.
      rewrite eventCount_snoc, bool_decide_true by done. split; [done|lia].
    + rewrite lookup_insert_ne in Hk by congruence. rewrite H2ne in Hk by done.
      destruct (Hsome _ _ Hk) as (? & ? & ?).
      rewrite eventCount_snoc, bool_decide_false by done. split; [done|]. lia.
Qed.

Lemma statsFold_inv g stdPrefixes cfg tr :
  forall cm pre, statsInv cm pre ->
  statsInv (foldl (statsCallback g stdPrefixes cfg) cm tr) (pre ++ tr)%list.
Proof.
  induction tr as [|ev tr IH]; intros cm pre H; simpl.
  - by rewrite app_nil_r.
  - replace (pre ++ ev :: tr)%list with ((pre ++ [ev]) ++ tr)%list
      by (rewrite <- app_assoc; done).
    apply IH. by apply statsCallback_inv.
Qed.

(** C7: every record of [GetCapabilityStats] has
    [direct_count + transitive_count = count], where [count] is the number
    of callbacks of [forEachPath] for the record's capability. *)
Theorem capability_stats_counts_add_up (g : Graph) (stdPrefixes : list string)
    (reflectFns unsafeFns : gset Node) (queried : gset string) (cfg : Config) :
  Forall (fun s =>
      cs_direct_count s + cs_transitive_count s = cs_count s /\
      cs_count s = eventCount (forEachPath g reflectFns unsafeFns queried cfg) (cs_capability s))
    (GetCapabilityStats g stdPrefixes reflectFns unsafeFns queried cfg).
Proof.
  unfold GetCapabilityStats, capabilityStatsList.
  set (tr := forEachPath g reflectFns unsafeFns queried cfg).
  assert (Hinv : statsInv (foldl (statsCallback g stdPrefixes cfg) ∅ tr) tr).
  { apply (statsFold_inv g stdPrefixes cfg tr ∅ []).
    split; [intros k _; done|intros k cc Hk; by rewrite lookup_empty in Hk]. }
  destruct Hinv as [_ Hsome].
  apply Forall_forall. intros s Hs.
  rewrite (sortBy_perm _ _) in Hs.
  apply list_elem_of_In, in_map_iff in Hs as [[k cc] [<- Hkc]].
  apply list_elem_of_In, elem_of_map_to_list in Hkc.
  destruct (Hsome _ _ Hkc) as (Hk & Hsum & Hcnt). simpl. rewrite Hk. done.
Qed.

(** C10: [GetCapabilityInfo] leaves the caller's [Config] with
    [Granularity] set to function granularity when it was unset on entry,
    and unchanged otherwise; no other field of the [Config] changes. *)
Theorem GetCapabilityInfo_config_effect intermediatePackages (o : MapOrder) (g : Graph)
    (stdPrefixes : list string) (reflectFns unsafeFns : gset Node)
    (queried : gset string) (config : Config) :
  let config' := (GetCapabilityInfo_in intermediatePackages o g stdPrefixes reflectFns
                    unsafeFns queried config).1 in
  cfg_Granularity config' =
    (if bool_decide (cfg_Granularity config = GranularityUnset)
     then GranularityFunction else cfg_Granularity config) /\
  cfg_Classifier config' = cfg_Classifier config /\
  cfg_DisableBuiltin config' = cfg_DisableBuiltin config /\
  cfg_CapabilitySet config' = cfg_CapabilitySet config /\
  cfg_OmitPaths config' = cfg_OmitPaths config.
Proof.
  unfold GetCapabilityInfo_in.
  destruct (bool_decide (cfg_Granularity config = GranularityUnset));
    destruct (bool_decide (cfg_Granularity _ = GranularityIntermediate)); simpl;
    repeat split.
Qed.

Lemma capabilityInfoLoop_spec g stdPrefixes nodes o fg fuel :
  forall i n ctype path ie w,
  (ctype = CAPABILITY_TYPE_DIRECT \/ ctype = CAPABILITY_TYPE_TRANSITIVE) ->
  let '(n', ctype', path') :=
    capabilityInfoLoop g stdPrefixes fuel nodes o fg (S i) n ctype path ie w in
  exists ext, path' = (if o then path else path ++ ext)%list /\
    map fst ext = bfsChain fuel nodes w /\
    (ctype' = CAPABILITY_TYPE_DIRECT \/ ctype' = CAPABILITY_TYPE_TRANSITIVE) /\
    (ctype' = CAPABILITY_TYPE_DIRECT <->
       ctype = CAPABILITY_TYPE_DIRECT /\
       Forall (fun u => packagePath g u = n \/ isStdLib stdPrefixes (packagePath g u) = true)
         (bfsChain fuel nodes w)).
Proof.
  induction fuel as [|fuel IH]; intros i n ctype path ie w Hct; simpl.
  { exists []. rewrite app_nil_r. split; [by destruct o|]. split; [done|]. split; [done|].
    split; [intros H; split; [done|constructor]|intros [H _]; done]. }
  set (ctype1 := if negb (String.eqb n (packagePath g w)) &&
                    negb (isStdLib stdPrefixes (packagePath g w))
                 then CAPABILITY_TYPE_TRANSITIVE else ctype).
  assert (Hct1 : ctype1 = CAPABILITY_TYPE_DIRECT \/ ctype1 = CAPABILITY_TYPE_TRANSITIVE).
  { subst ctype1. destruct (_ && _); [by right|done]. }
  assert (Hiff : ctype1 = CAPABILITY_TYPE_DIRECT <->
                 ctype = CAPABILITY_TYPE_DIRECT /\
                 (packagePath g w = n \/ isStdLib stdPrefixes (packagePath g w) = true)).
  { subst ctype1.
    destruct (String.eqb_spec n (packagePath g w)) as [Heq|Hne];
      destruct (isStdLib stdPrefixes (packagePath g w)); simpl;
      (split; [intros H; split; [done|]|intros [H1 H2]]); try done;
      first [left; done | right; done | destruct H2; congruence]. }
  clearbody ctype1.
  set (path1 := if negb o || false then (path ++ [(w, ie)])%list else path).
  assert (Hpath1 : path1 = if o then path else (path ++ [(w, ie)])%list)
    by (subst path1; by destruct o).
  clearbody path1.
  destruct (bfsNext (nodes !! w)) as [w'|].
  - specialize (IH (S i) n ctype1 path1 (bfsEdge (nodes !! w)) w' Hct1).
    destruct (capabilityInfoLoop g stdPrefixes fuel nodes o fg (S (S i)) n ctype1 path1
                (bfsEdge (nodes !! w)) w') as [[n' ct'] p'].
    destruct IH as (ext & Hp & Hc & Hd & Hi).
    exists ((w, ie) :: ext). split.
    { rewrite Hp, Hpath1. destruct o; [done|]. by rewrite <- app_assoc. }
    split; [simpl; by rewrite Hc|]. split; [done|].
    rewrite Hi, Hiff. rewrite Forall_cons. tauto.
  - exists [(w, ie)]. split; [done|]. split; [done|]. split; [done|].
    rewrite Hiff. rewrite Forall_cons. split.
    + intros [? ?]. split; [done|]. split; [done|constructor].
    + intros [? [? _]]. done.
Qed.

(** C4: for every record built by the [GetCapabilityInfo] callback for
    [v], whether [OmitPaths] is set or not, the capability type is direct
    or transitive and is decided on the witness path, the BFS chain
    [bfsChain] from [v] that the callback walks: the chain is [v :: rest],
    and the type is direct iff every function of [rest] belongs to [v]'s
    package or to a standard-library package. When paths are not
    omitted, the record's path lists exactly that chain. *)
Theorem capability_type_direct_iff (g : Graph) (stdPrefixes : list string) (cfg : Config)
    (cap : Capability) (nodes : gmap Node bfsState) (v : Node) :
  let info := capabilityInfoOf g stdPrefixes cfg cap nodes v in
  (ci_capabilityType info = CAPABILITY_TYPE_DIRECT \/
   ci_capabilityType info = CAPABILITY_TYPE_TRANSITIVE) /\
  exists rest, bfsChain (S (size nodes)) nodes v = v :: rest /\
    (cfg_OmitPaths cfg = false -> map fst (ci_path info) = v :: rest) /\
    (ci_capabilityType info = CAPABILITY_TYPE_DIRECT <->
     Forall (fun w => packagePath g w = packagePath g v \/
                      isStdLib stdPrefixes (packagePath g w) = true) rest).
Proof.
  unfold capabilityInfoOf. cbn [capabilityInfoLoop bfsChain].
  rewrite Nat.eqb_refl. simpl negb. cbn [orb andb].
  replace (packagePath g v) with (funcPkgPath g v) by done.
  rewrite String.eqb_refl. simpl.
  set (path0 := if negb (cfg_OmitPaths cfg) || bool_decide (cfg_Granularity cfg = GranularityFunction)
                then [(v, None)] else []).
  assert (Hpath0 : cfg_OmitPaths cfg = false -> path0 = [(v, None)])
    by (intros Ho; subst path0; by rewrite Ho).
  clearbody path0.
  destruct (bfsNext (nodes !! v)) as [w|].
  - pose proof (capabilityInfoLoop_spec g stdPrefixes nodes (cfg_OmitPaths cfg)
                  (bool_decide (cfg_Granularity cfg = GranularityFunction)) (size nodes) 0
                  (funcPkgPath g v) CAPABILITY_TYPE_DIRECT path0
                  (bfsEdge (nodes !! v)) w (or_introl eq_refl)) as H.
    destruct (capabilityInfoLoop g stdPrefixes (size nodes) nodes (cfg_OmitPaths cfg)
                (bool_decide (cfg_Granularity cfg = GranularityFunction)) 1
                (funcPkgPath g v) CAPABILITY_TYPE_DIRECT path0
                (bfsEdge (nodes !! v)) w) as [[n' ct'] p'].
    destruct H as (ext & Hp & Hc & Hd & Hi). simpl. split; [done|].
    exists (bfsChain (size nodes) nodes w). split; [done|]. split.
    + intros Ho. rewrite Hp, Ho, (Hpath0 Ho). simpl. by rewrite Hc.
    + rewrite Hi. unfold packagePath. tauto.
  - simpl. split; [by left|]. exists []. split; [done|]. split.
    + intros Ho. by rewrite (Hpath0 Ho).
    + split; [constructor|done].
Qed.

Lemma capability_type_direct_iff_witness :
  bfsChain (S (size (st_visited (capabilityBfs exGraph ∅ ∅ exQueried exConfig CAPABILITY_FILES))))
    (st_visited (capabilityBfs exGraph ∅ ∅ exQueried exConfig CAPABILITY_FILES)) 1 = [1; 2; 3] /\
  ci_path (capabilityInfoOf exGraph exStdPrefixes
    (mkConfig exClassifier false GranularityPackage None true) CAPABILITY_FILES
    (st_visited (capabilityBfs exGraph ∅ ∅ exQueried exConfig CAPABILITY_FILES)) 1) = [] /\
  ci_capabilityType (capabilityInfoOf exGraph exStdPrefixes
    (mkConfig exClassifier false GranularityPackage None true) CAPABILITY_FILES
    (st_visited (capabilityBfs exGraph ∅ ∅ exQueried exConfig CAPABILITY_FILES)) 1)
    = CAPABILITY_TYPE_TRANSITIVE.
Proof.
  assert (Hc : bfsChain (S (size (st_visited (capabilityBfs exGraph ∅ ∅ exQueried exConfig
                 CAPABILITY_FILES)))) (st_visited (capabilityBfs exGraph ∅ ∅ exQueried exConfig
                 CAPABILITY_FILES)) 1 = [1; 2; 3]) by (vm_compute; reflexivity).
  destruct (capability_type_direct_iff exGraph exStdPrefixes
              (mkConfig exClassifier false GranularityPackage None true) CAPABILITY_FILES
              (st_visited (capabilityBfs exGraph ∅ ∅ exQueried exConfig CAPABILITY_FILES))
              1) as [Hd [rest [Hp [_ Hi]]]].
  split; [exact Hc|]. split; [vm_compute; reflexivity|].
  rewrite Hc in Hp. injection Hp as <-.
  destruct Hd as [Hd|Hd]; [|exact Hd].
  apply Hi in Hd. inversion Hd as [|? ? [H2|H2] _]; vm_compute in H2; discriminate.
Defined.

(** ** Claims on the environment-read scanner *)

(** C8: the report does not always hold the unquoted name. With
    [analyzer/env.go], [os.Getenv("HOME")] records the literal with its
    quotes, and [const K = "PATH"; os.Getenv(K)] records the quoted
    [String()] of the constant. With [testpkgs/getenv/getenv.go] the
    double-quoted literal is unquoted, but a raw literal keeps its
    backquotes, a constant holding a double quote is recorded in its
    escaped form, and a constant of 80 characters is recorded cut to 68
    characters followed by "...". *)
Theorem env_report_keeps_quoted_forms :
  EnvGo.envVars (EnvGo.GetEnvReportInstance
    (EnvGo.reportCallsReadingEnv [literalPackage "P" (dq ++ "HOME" ++ dq)] None))
    = {[dq ++ "HOME" ++ dq]} /\
  EnvGo.envVars (EnvGo.GetEnvReportInstance
    (EnvGo.reportCallsReadingEnv [constantPackage "P" (ConstString "PATH")] None))
    = {[dq ++ "PATH" ++ dq]} /\
  GetenvGo.namesOf
    (GetenvGo.reportCallsReadingEnv [literalPackage "P" (dq ++ "HOME" ++ dq)] None) "P"
    = {["HOME"]} /\
  GetenvGo.namesOf
    (GetenvGo.reportCallsReadingEnv [literalPackage "P" "`HOME`"] None) "P"
    = {["`HOME`"]} /\
  GetenvGo.namesOf
    (GetenvGo.reportCallsReadingEnv [constantPackage "P" (ConstString ("A" ++ dq ++ "B"))]
       None) "P"
    = {["A" ++ bs ++ dq ++ "B"]} /\
  GetenvGo.namesOf
    (GetenvGo.reportCallsReadingEnv [constantPackage "P" (ConstString (repeatString 80 "a"))]
       None) "P"
    = {[repeatString 68 "a" ++ "..."]}.
Proof. repeat split; by_computation. Qed.

Lemma namesOf_Add envReport p key q :
  GetenvGo.namesOf (GetenvGo.Add envReport p key) q =
  (if bool_decide (q = pkg_path p) then {[key]} else ∅) ∪ GetenvGo.namesOf envReport q.
Proof.
  unfold GetenvGo.namesOf, GetenvGo.Add. cbn [GetenvGo.GetEnvReportInstance].
  case_bool_decide as H.
  - subst q. rewrite lookup_insert_eq. done.
  - rewrite lookup_insert_ne by congruence. by rewrite (left_id_L ∅ union).
Qed.

Lemma namesOf_None q : GetenvGo.namesOf None q = ∅.
Proof. unfold GetenvGo.namesOf. simpl. by rewrite lookup_empty. Qed.

(** A step that adds names to the report, whatever report it starts from. *)
Lemma namesOf_foldl {X} (f : option GetenvGo.EnvReport -> X -> option GetenvGo.EnvReport)
    (Hf : forall st x q, GetenvGo.namesOf (f st x) q =
                         GetenvGo.namesOf st q ∪ GetenvGo.namesOf (f None x) q) :
  forall (l : list X) st q,
  GetenvGo.namesOf (foldl f st l) q =
  GetenvGo.namesOf st q ∪ GetenvGo.namesOf (foldl f None l) q.
Proof.
  induction l as [|x l IH]; intros st q; simpl.
  - rewrite namesOf_None. by rewrite (right_id_L ∅ union).
  - rewrite (IH (f st x)), (IH (f None x)), Hf. by rewrite (assoc_L union).
Qed.

Lemma namesOf_pre p st n q :
  GetenvGo.namesOf (GetenvGo.pre p st n) q =
  GetenvGo.namesOf st q ∪ GetenvGo.namesOf (GetenvGo.pre p None n) q.
Proof.
  unfold GetenvGo.pre.
  destruct (isReadingEnv (pkg_uses p) n) as [[a|]|];
    [destruct a as [value|id| | |];
       [|destruct (pkg_uses p id) as [[|v|]|]| | |]| |];
    rewrite ?namesOf_Add, ?namesOf_None;
    rewrite ?(right_id_L ∅ union), ?(left_id_L ∅ union); try done;
    by rewrite (comm_L union).
Qed.

(** The [analyzer/env.go] analogues: a step that adds names to the set
    of environment variables, whatever report it starts from. *)
Lemma envVars_foldl {X} (f : option EnvGo.EnvReport -> X -> option EnvGo.EnvReport)
    (Hf : forall st x, EnvGo.envVars (EnvGo.GetEnvReportInstance (f st x)) =
                       EnvGo.envVars (EnvGo.GetEnvReportInstance st) ∪
                       EnvGo.envVars (EnvGo.GetEnvReportInstance (f None x))) :
  forall (l : list X) st,
  EnvGo.envVars (EnvGo.GetEnvReportInstance (foldl f st l)) =
  EnvGo.envVars (EnvGo.GetEnvReportInstance st) ∪
  EnvGo.envVars (EnvGo.GetEnvReportInstance (foldl f None l)).
Proof.
  induction l as [|x l IH]; intros st; simpl.
  - by rewrite (right_id_L ∅ union).
  - rewrite (IH (f st x)), (IH (f None x)), Hf. by rewrite (assoc_L union).
Qed.

Lemma envVars_pre p st n :
  EnvGo.envVars (EnvGo.GetEnvReportInstance (EnvGo.pre p st n)) =
  EnvGo.envVars (EnvGo.GetEnvReportInstance st) ∪
  EnvGo.envVars (EnvGo.GetEnvReportInstance (EnvGo.pre p None n)).
Proof.
  unfold EnvGo.pre, EnvGo.addVar, EnvGo.addDynamic.
  destruct (isReadingEnv (pkg_uses p) n) as [[a|]|];
    [destruct a as [value|id| | |];
       [|destruct (pkg_uses p id) as [[|v|]|]| | |]| |]; simpl;
    rewrite ?(right_id_L ∅ union), ?(left_id_L ∅ union); try done;
    by rewrite (comm_L union).
Qed.

(** C9 (corrected): the report is not owned by the caller. In both
    [analyzer/env.go] and [testpkgs/getenv/getenv.go] it is a
    package-level singleton, created by [GetEnvReportInstance] and never
    reset, and an analysis adds what it finds to the report left by the
    earlier ones: after [reportCallsReadingEnv] the names recorded for
    every package ([getenv.go]), and the set of variable names
    ([env.go]), are the union of those held before and those the same
    analysis finds on a fresh report. *)
Theorem env_report_shared_between_analyses :
  (forall pkgs envReport q,
     GetenvGo.namesOf (GetenvGo.reportCallsReadingEnv pkgs envReport) q =
     GetenvGo.namesOf envReport q ∪
     GetenvGo.namesOf (GetenvGo.reportCallsReadingEnv pkgs None) q) /\
  (forall pkgs envReport,
     EnvGo.envVars (EnvGo.GetEnvReportInstance (EnvGo.reportCallsReadingEnv pkgs envReport)) =
     EnvGo.envVars (EnvGo.GetEnvReportInstance envReport) ∪
     EnvGo.envVars (EnvGo.GetEnvReportInstance (EnvGo.reportCallsReadingEnv pkgs None))).
Proof.
  split.
  - intros pkgs envReport q. unfold GetenvGo.reportCallsReadingEnv,
      forEachPackageIncludingDependencies.
    apply namesOf_foldl. intros st p q'.
    apply namesOf_foldl, namesOf_pre.
  - intros pkgs envReport. unfold EnvGo.reportCallsReadingEnv,
      forEachPackageIncludingDependencies.
    apply envVars_foldl. intros st p.
    apply envVars_foldl, envVars_pre.
Qed.

(** C9 as stated fails: an analysis of a package [B] reading [PATH], run
    after one of a package [A] reading [HOME] in the same process,
    reports [HOME] for [A] ([getenv.go]) and both [HOME] and [PATH]
    ([env.go]); an analysis of [B] alone reports neither. *)
Lemma env_report_shared_counterexample :
  ~ (forall pkgs1 pkgs2 q,
       GetenvGo.namesOf (GetenvGo.reportCallsReadingEnv pkgs2
                           (GetenvGo.reportCallsReadingEnv pkgs1 None)) q =
       GetenvGo.namesOf (GetenvGo.reportCallsReadingEnv pkgs2 None) q) /\
  ~ (forall pkgs1 pkgs2,
       EnvGo.envVars (EnvGo.GetEnvReportInstance (EnvGo.reportCallsReadingEnv pkgs2
                        (EnvGo.reportCallsReadingEnv pkgs1 None))) =
       EnvGo.envVars (EnvGo.GetEnvReportInstance (EnvGo.reportCallsReadingEnv pkgs2 None))).
Proof.
  split; intros H.
  - specialize (H [literalPackage "A" (dq ++ "HOME" ++ dq)]
                  [literalPackage "B" (dq ++ "PATH" ++ dq)] "A").
    assert (E1 : GetenvGo.namesOf
      (GetenvGo.reportCallsReadingEnv [literalPackage "B" (dq ++ "PATH" ++ dq)]
         (GetenvGo.reportCallsReadingEnv [literalPackage "A" (dq ++ "HOME" ++ dq)] None)) "A"
      = {["HOME"]}) by by_computation.
    assert (E2 : GetenvGo.namesOf
      (GetenvGo.reportCallsReadingEnv [literalPackage "B" (dq ++ "PATH" ++ dq)] None) "A"
      = ∅) by by_computation.
    rewrite E1, E2 in H. assert (Hin : "HOME" ∈ (∅ : gset string)) by (rewrite <- H; set_solver).
    set_solver.
  - specialize (H [literalPackage "A" (dq ++ "HOME" ++ dq)]
                  [literalPackage "B" (dq ++ "PATH" ++ dq)]).
    assert (E1 : EnvGo.envVars (EnvGo.GetEnvReportInstance
      (EnvGo.reportCallsReadingEnv [literalPackage "B" (dq ++ "PATH" ++ dq)]
         (EnvGo.reportCallsReadingEnv [literalPackage "A" (dq ++ "HOME" ++ dq)] None)))
      = {[dq ++ "HOME" ++ dq; dq ++ "PATH" ++ dq]}) by by_computation.
    assert (E2 : EnvGo.envVars (EnvGo.GetEnvReportInstance
      (EnvGo.reportCallsReadingEnv [literalPackage "B" (dq ++ "PATH" ++ dq)] None))
      = {[dq ++ "PATH" ++ dq]}) by by_computation.
    rewrite E1, E2 in H.
    assert (Hin : dq ++ "HOME" ++ dq ∈ ({[dq ++ "PATH" ++ dq]} : gset string)).
    { rewrite <- H. set_solver. }
    apply elem_of_singleton in Hin. vm_compute in Hin. discriminate.
Qed.

(* ------------------------------------------------------------------ *)
(** ** Further properties of the aggregators and the environment scanners *)

Lemma Capability_String_inj c1 c2 : Capability_String c1 = Capability_String c2 -> c1 = c2.
Proof. destruct c1, c2; simpl; congruence. Qed.

Lemma countsFold_spec tr :
  forall cm pre, (Z.of_nat (List.length (pre ++ tr)) < 2 ^ 63)%Z ->
  (forall c, cm !! Capability_String c =
             if decide (eventCount pre c = 0) then None
             else Some (Z.of_nat (eventCount pre c))) ->
  (forall c, foldl countsCallback cm tr !! Capability_String c =
             if decide (eventCount (pre ++ tr) c = 0) then None
             else Some (Z.of_nat (eventCount (pre ++ tr) c))).
Proof.
  induction tr as [|ev tr IH]; intros cm pre Hlen Hcm; simpl.
  - by rewrite app_nil_r.
  - replace (pre ++ ev :: tr)%list with ((pre ++ [ev]) ++ tr)%list in *
      by (rewrite <- app_assoc; done).
    apply IH; [done|]. intros c.
    assert (Hle : (eventCount (pre ++ [ev]) c <= List.length (pre ++ [ev]))%nat).
    { unfold eventCount. apply List.filter_length_le. }
    rewrite !length_app in Hlen. rewrite !length_app in Hle.
    rewrite eventCount_snoc. unfold countsCallback.
    destruct (decide (ev_cap ev = c)) as [<-|Hne].
    + rewrite bool_decide_true by done.
      specialize (Hcm (ev_cap ev)).
      destruct (cm !! Capability_String (ev_cap ev)) as [n|] eqn:E;
        rewrite lookup_insert_eq;
        destruct (decide (eventCount pre (ev_cap ev) = 0)) as [H0|H0]; try congruence.
      * injection Hcm as ->. rewrite decide_False by lia. f_equal.
        unfold wrapInt64. rewrite eventCount_snoc, bool_decide_true in Hle by done.
        rewrite Z.mod_small; [lia|]. change (Datatypes.length [ev]) with 1%nat in *. lia.
      * rewrite H0. done.
    + rewrite bool_decide_false by done. rewrite Nat.add_0_r.
      rewrite <- Hcm.
      destruct (cm !! Capability_String (ev_cap ev));
        rewrite lookup_insert_ne; try done;
        intros E; by apply Hne, Capability_String_inj.
Qed.

Lemma outputLess_true_le g a b :
  outputLess g a b = true ->
  Capability_enum (ci_capability a.1) <= Capability_enum (ci_capability b.1).
Proof.
  unfold outputLess. destruct (Nat.eqb _ _) eqn:E; simpl.
  - apply Nat.eqb_eq in E. lia.
  - rewrite Nat.ltb_lt. lia.
Qed.

Lemma outputLess_false_ge g a b :
  outputLess g a b = false ->
  Capability_enum (ci_capability b.1) <= Capability_enum (ci_capability a.1).
Proof.
  unfold outputLess. destruct (Nat.eqb _ _) eqn:E; simpl.
  - apply Nat.eqb_eq in E. lia.
  - rewrite Nat.ltb_ge. lia.
Qed.

Lemma insertBy_outputLess_sorted g x l :
  StronglySorted capLe l -> StronglySorted capLe (insertBy (outputLess g) x l).
Proof.
  induction l as [|y l IH]; intros Hs; simpl.
  - repeat constructor.
  - apply StronglySorted_inv in Hs as [Hs Hy].
    destruct (outputLess g x y) eqn:Exy.
    + apply outputLess_true_le in Exy.
      constructor; [by constructor|]. constructor; [done|].
      eapply List.Forall_impl; [|exact Hy]. unfold capLe in *. intros z Hz. lia.
    + apply outputLess_false_ge in Exy.
      constructor; [by apply IH|].
      apply Forall_forall. intros z Hz.
      rewrite (insertBy_perm _ x l) in Hz. apply elem_of_cons in Hz as [->|Hz]; [done|].
      rewrite Forall_forall in Hy. by apply Hy.
Qed.

Lemma sortBy_outputLess_sorted g l :
  StronglySorted capLe (sortBy (outputLess g) l).
Proof.
  unfold sortBy. assert (Hgen : forall acc, StronglySorted capLe acc ->
    StronglySorted capLe (foldl (fun acc x => insertBy (outputLess g) x acc) acc l)).
  { induction l as [|x l IH]; intros acc Hs; simpl; [done|].
    apply IH. by apply insertBy_outputLess_sorted. }
  apply Hgen. constructor.
Qed.

Lemma StronglySorted_sublist {A} (R : A -> A -> Prop) l1 l2 :
  l1 `sublist_of` l2 -> StronglySorted R l2 -> StronglySorted R l1.
Proof.
  induction 1 as [|x l1 l2 Hsub IH|x l1 l2 Hsub IH]; intros Hs; [constructor| |].
  - apply StronglySorted_inv in Hs as [Hs Hx]. constructor; [by apply IH|].
    rewrite Forall_forall in Hx |- *. intros y Hy. apply Hx. by eapply elem_of_sublist.
  - apply StronglySorted_inv in Hs as [Hs _]. by apply IH.
Qed.

Lemma StronglySorted_map_fst {A B} (R : A -> A -> Prop) (l : list (A * B)) :
  StronglySorted (fun a b => R a.1 b.1) l -> StronglySorted R (map fst l).
Proof.
  induction l as [|x l IH]; intros Hs; simpl; [constructor|].
  apply StronglySorted_inv in Hs as [Hs Hx]. constructor; [by apply IH|].
  apply Forall_forall. intros y Hy. apply list_elem_of_fmap_1 in Hy as [z [-> Hz]].
  rewrite Forall_forall in Hx. by apply Hx.
Qed.

Lemma deletePackageDuplicates_sublist g seen l :
  deletePackageDuplicates g seen l `sublist_of` l.
Proof.
  revert seen. induction l as [|o l IH]; intros seen; simpl; [constructor|].
  case_bool_decide; [by apply sublist_cons, IH|by apply sublist_skip, IH].
Qed.

(** [GetCapabilityInfo] (function and package granularity) lists its
    records in increasing capability number, whatever the callbacks. *)
Theorem capabilityInfoList_sorted_by_capability g stdPrefixes cfg trace :
  StronglySorted (fun a b => Capability_enum (ci_capability a) <= Capability_enum (ci_capability b))
    (capabilityInfoList g stdPrefixes cfg trace).
Proof.
  unfold capabilityInfoList. apply StronglySorted_map_fst.
  case_bool_decide.
  - eapply StronglySorted_sublist; [apply deletePackageDuplicates_sublist|].
    apply sortBy_outputLess_sorted.
  - apply sortBy_outputLess_sorted.
Qed.

Lemma deletePackageDuplicates_keys g seen l :
  NoDup (map (dedupKey g) (deletePackageDuplicates g seen l)) /\
  Forall (fun o => dedupKey g o ∉ seen) (deletePackageDuplicates g seen l).
Proof.
  revert seen. induction l as [|o l IH]; intros seen; simpl; [split; constructor|].
  case_bool_decide as Hin; [apply IH|].
  destruct (IH (dedupKey g o :: seen)) as [Hnd Hf]. unfold dedupKey in *.
  split.
  - simpl. apply NoDup_cons. split; [|done].
    intros Hk. apply list_elem_of_fmap_1 in Hk as [o' [Ho' Hm]].
    rewrite Forall_forall in Hf. apply (Hf o' Hm). rewrite <- Ho'. left.
  - constructor; [done|]. eapply List.Forall_impl; [|exact Hf].
    intros o' Ho' Hs. apply Ho'. by right.
Qed.

Lemma deletePackageDuplicates_first g seen l1 o l2 :
  dedupKey g o ∉ seen -> dedupKey g o ∉ map (dedupKey g) l1 ->
  o ∈ deletePackageDuplicates g seen (l1 ++ o :: l2).
Proof.
  revert seen. induction l1 as [|o1 l1 IH]; intros seen Hs Hl1; simpl.
  - unfold dedupKey in Hs. rewrite bool_decide_false by done. left.
  - case_bool_decide; [apply IH; [done|]|right; apply IH].
    + intros Hk. apply Hl1. by right.
    + intros Hk. apply elem_of_cons in Hk as [Hk|Hk]; [|done].
      apply Hl1. rewrite Hk. left.
    + intros Hk. apply Hl1. by right.
Qed.

(** [slices.DeleteFunc] with [del]: the result is a sublist of the
    input with one entry per (capability, package path), and the entry
    kept for a key is the first entry of the input with that key. *)
Theorem deletePackageDuplicates_keeps_first_per_package g l :
  let r := deletePackageDuplicates g [] l in
  r `sublist_of` l /\ NoDup (map (dedupKey g) r) /\
  (forall l1 o l2, l = (l1 ++ o :: l2)%list -> dedupKey g o ∉ map (dedupKey g) l1 ->
     o ∈ r /\ forall o', o' ∈ r -> dedupKey g o' = dedupKey g o -> o' = o).
Proof.
  intros r. destruct (deletePackageDuplicates_keys g [] l) as [Hnd _].
  split_and!; [apply deletePackageDuplicates_sublist|done|].
  intros l1 o l2 -> Hl1.
  assert (Ho : o ∈ r) by (apply deletePackageDuplicates_first; [set_solver|done]).
  split; [done|]. intros o' Ho' Hk.
  apply list_elem_of_lookup_1 in Ho as [i Hi], Ho' as [j Hj].
  assert (i = j) as ->.
  { apply (NoDup_lookup (map (dedupKey g) r) i j (dedupKey g o)); [done| |].
    - by rewrite list_lookup_fmap, Hi.
    - rewrite list_lookup_fmap, Hj. simpl. congruence. }
  congruence.
Qed.

Lemma countsFold_keys tr : forall cm,
  (forall k, (forall c, k <> Capability_String c) -> cm !! k = None) ->
  (forall k, (forall c, k <> Capability_String c) -> foldl countsCallback cm tr !! k = None).
Proof.
  induction tr as [|ev tr IH]; intros cm Hcm; simpl; [done|].
  apply IH. intros k Hk. unfold countsCallback.
  destruct (cm !! _); rewrite lookup_insert_ne by (intros E; by apply (Hk (ev_cap ev))); auto.
Qed.

(** [GetCapabilityCounts]: while fewer than [2^63] callbacks run, the
    entry of [cap.String()] is the number of callbacks for [cap], and
    absent when there is none; no other key is present. *)
Theorem GetCapabilityCounts_spec g reflectFns unsafeFns queried cfg :
  (Z.of_nat (List.length (forEachPath g reflectFns unsafeFns queried cfg)) < 2 ^ 63)%Z ->
  (forall c, GetCapabilityCounts g reflectFns unsafeFns queried cfg !! Capability_String c =
     if decide (eventCount (forEachPath g reflectFns unsafeFns queried cfg) c = 0) then None
     else Some (Z.of_nat (eventCount (forEachPath g reflectFns unsafeFns queried cfg) c))) /\
  (forall k, (forall c, k <> Capability_String c) ->
     GetCapabilityCounts g reflectFns unsafeFns queried cfg !! k = None).
Proof.
  intros Hlen. unfold GetCapabilityCounts. split.
  - intros c. apply (countsFold_spec _ ∅ []); [done|].
    intros c'. rewrite lookup_empty. done.
  - apply countsFold_keys. intros. apply lookup_empty.
Qed.

Lemma GetCapabilityCounts_spec_witness :
  (Z.of_nat (List.length (forEachPath exGraph ∅ ∅ exQueried exConfig)) < 2 ^ 63)%Z /\
  GetCapabilityCounts exGraph ∅ ∅ exQueried exConfig !! Capability_String CAPABILITY_FILES =
     (if decide (eventCount (forEachPath exGraph ∅ ∅ exQueried exConfig) CAPABILITY_FILES = 0)
      then None
      else Some (Z.of_nat (eventCount (forEachPath exGraph ∅ ∅ exQueried exConfig) CAPABILITY_FILES))).
Proof.
  assert (H : (Z.of_nat (List.length (forEachPath exGraph ∅ ∅ exQueried exConfig)) < 2 ^ 63)%Z)
    by (vm_compute; reflexivity).
  split; [exact H|]. apply (proj1 (GetCapabilityCounts_spec _ _ _ _ _ H)).
Defined.

Lemma statsCallback_dom g stdPrefixes cfg cm ev k :
  is_Some (statsCallback g stdPrefixes cfg cm ev !! k) <-> is_Some (cm !! k) \/ k = ev_cap ev.
Proof.
  unfold statsCallback.
  destruct (statsPathLoop _ _ _ _ _ _ _ _ _ _ _) as [isDirect e].
  destruct (decide (k = ev_cap ev)) as [->|Hne].
  - split; [by right|]. intros _. repeat case_match; by rewrite lookup_insert_eq.
  - split.
    + intros H. left. revert H. repeat case_match; rewrite !lookup_insert_ne by congruence; done.
    + intros [H|H]; [|done]. repeat case_match; rewrite !lookup_insert_ne by congruence; done.
Qed.

Lemma statsFold_dom g stdPrefixes cfg tr : forall cm k,
  is_Some (foldl (statsCallback g stdPrefixes cfg) cm tr !! k) <->
  is_Some (cm !! k) \/ exists ev, ev ∈ tr /\ ev_cap ev = k.
Proof.
  induction tr as [|ev tr IH]; intros cm k; simpl.
  - split; [by left|]. intros [H|(ev & Hev & _)]; [done|]. by apply elem_of_nil in Hev.
  - rewrite IH, statsCallback_dom. split.
    + intros [[H| ->]|(ev' & Hev' & Hk)]; [by left|right; exists ev; split; [left|done]|].
      right. exists ev'. split; [by right|done].
    + intros [H|(ev' & Hev' & Hk)]; [by left; left|].
      apply elem_of_cons in Hev' as [->|Hev']; [by left; right|].
      right. by exists ev'.
Qed.

Lemma eventCount_nonzero tr k :
  eventCount tr k <> 0 <-> exists ev, ev ∈ tr /\ ev_cap ev = k.
Proof.
  unfold eventCount. split.
  - intros H. destruct (List.filter _ tr) as [|ev l] eqn:E; [done|].
    assert (Hin : List.In ev (List.filter (fun ev => bool_decide (ev_cap ev = k)) tr))
      by (rewrite E; left; done).
    apply List.filter_In in Hin as [Hin Hk]. exists ev.
    split; [by apply list_elem_of_In|]. by apply bool_decide_eq_true in Hk.
  - intros (ev & Hev & Hk). apply list_elem_of_In in Hev.
    assert (Hin : List.In ev (List.filter (fun ev => bool_decide (ev_cap ev = k)) tr))
      by (apply List.filter_In; split; [done|by apply bool_decide_eq_true]).
    destruct (List.filter _ tr); [done|simpl; lia].
Qed.

(** [GetCapabilityStats] holds exactly one record per capability that
    has a callback, in strictly increasing capability number. *)
Theorem GetCapabilityStats_one_record_per_capability g stdPrefixes reflectFns unsafeFns queried cfg :
  StronglySorted (fun a b => Capability_enum (cs_capability a) < Capability_enum (cs_capability b))
    (GetCapabilityStats g stdPrefixes reflectFns unsafeFns queried cfg) /\
  (forall c, (exists s, s ∈ GetCapabilityStats g stdPrefixes reflectFns unsafeFns queried cfg /\
                        cs_capability s = c) <->
             eventCount (forEachPath g reflectFns unsafeFns queried cfg) c <> 0).
Proof.
  unfold GetCapabilityStats, capabilityStatsList.
  set (tr := forEachPath g reflectFns unsafeFns queried cfg).
  set (cm := foldl (statsCallback g stdPrefixes cfg) ∅ tr).
  assert (Hinv : statsInv cm tr).
  { apply (statsFold_inv g stdPrefixes cfg tr ∅ []).
    split; [intros k _; done|intros k cc Hk; by rewrite lookup_empty in Hk]. }
  destruct Hinv as [Hnone Hsome].
  set (f := fun kc : Capability * CapabilityCounter =>
              mkCapabilityStats (cc_capability kc.2) (cc_count kc.2)
                (cc_direct_count kc.2) (cc_transitive_count kc.2) (cc_example kc.2)).
  change (map _ (map_to_list cm)) with (map f (map_to_list cm)).
  assert (Hcs : forall s, s ∈ map f (map_to_list cm) <->
                exists cc, cm !! cs_capability s = Some cc /\ s = f (cs_capability s, cc)).
  { intros s. split.
    - intros Hs. apply list_elem_of_fmap_1 in Hs as [[k cc] [-> Hkc]].
      apply elem_of_map_to_list in Hkc. destruct (Hsome _ _ Hkc) as [Hk _].
      exists cc. simpl. rewrite Hk. done.
    - intros [cc [Hcc Hs]]. rewrite Hs. apply list_elem_of_fmap_2.
      by apply elem_of_map_to_list. }
  split.
  - assert (Hsorted : StronglySorted (fun a b => capLess (cs_capability a) (cs_capability b) = true)
             (sortBy (fun a b => capLess (cs_capability a) (cs_capability b)) (map f (map_to_list cm)))).
    { apply (sortBy_sorted _ (fun s => s ∈ map f (map_to_list cm))).
      - intros x. apply capLess_irrefl.
      - intros x y z. apply capLess_trans.
      - intros x y Hx Hy Hne. unfold capLess. rewrite !Nat.ltb_lt.
        destruct (Nat.lt_total (Capability_enum (cs_capability x)) (Capability_enum (cs_capability y)))
          as [H|[H|H]]; [by left| |by right].
        exfalso. apply Hne. apply Capability_enum_inj in H.
        apply Hcs in Hx as [cx [Hcx Hx]], Hy as [cy [Hcy Hy]].
        rewrite Hx, Hy, H. rewrite H in Hcx. congruence.
      - by apply Forall_forall.
      - apply NoDup_fmap_2_strong; [|apply NoDup_map_to_list].
        intros [k1 c1] [k2 c2] H1 H2 Heq.
        apply elem_of_map_to_list in H1, H2.
        destruct (Hsome _ _ H1) as [Hk1 _], (Hsome _ _ H2) as [Hk2 _].
        assert (k1 = k2) as <-.
        { rewrite <- Hk1, <- Hk2. change (cc_capability c1) with (cs_capability (f (k1, c1))).
          rewrite Heq. done. }
        congruence. }
    revert Hsorted. apply StronglySorted_ind; [intros; constructor|].
    intros a l _ IH Ha. constructor; [done|].
    eapply List.Forall_impl; [|exact Ha]. intros b. unfold capLess. by rewrite Nat.ltb_lt.
  - intros c. rewrite eventCount_nonzero. split.
    + intros (s & Hs & <-). rewrite (sortBy_perm _ _) in Hs.
      apply Hcs in Hs as [cc [Hcc _]].
      assert (Hd : is_Some (cm !! cs_capability s)) by (rewrite Hcc; eauto).
      apply statsFold_dom in Hd as [[? H]|?]; [by rewrite lookup_empty in H|done].
    + intros Hex. assert (Hd : is_Some (cm !! c)) by (apply statsFold_dom; by right).
      destruct Hd as [cc Hcc].
      exists (f (c, cc)). split; [|by destruct (Hsome _ _ Hcc)].
      rewrite (sortBy_perm _ _). apply list_elem_of_fmap_2. by apply elem_of_map_to_list.
Qed.

Lemma string_length_app (s1 s2 : string) :
  String.length (s1 ++ s2) = String.length s1 + String.length s2.
Proof. induction s1; simpl; auto. Qed.

Lemma substring_prefix_app (l s : string) : substring 0 (String.length l) (l ++ s) = l.
Proof. induction l; simpl; [by destruct s|by rewrite IHl]. Qed.

Lemma substring_shift_app (l s : string) n :
  substring (String.length l) n (l ++ s) = substring 0 n s.
Proof. induction l; simpl; auto. Qed.

Lemma substring_full (s : string) : substring 0 (String.length s) s = s.
Proof. induction s; simpl; [done|by rewrite IHs]. Qed.

Lemma substring_split (s : string) n :
  n <= String.length s ->
  substring 0 n s ++ substring n (String.length s - n) s = s.
Proof.
  revert n. induction s as [|c s IH]; intros n Hn; simpl in *.
  - by replace n with 0 by lia.
  - destruct n as [|n]; simpl.
    + by rewrite substring_full.
    + change (String c (substring 0 n s ++ substring n (String.length s - n) s) = String c s). by rewrite IH by lia.
Qed.

Lemma substring_length (s : string) m n :
  m + n <= String.length s -> String.length (substring m n s) = n.
Proof.
  revert m n. induction s as [|c s IH]; intros m n H; simpl in *.
  - destruct m, n; simpl in *; lia.
  - destruct m as [|m]; [destruct n as [|n]; simpl; [done|]|]; rewrite IH; lia.
Qed.

Lemma removePrefix_cases (s l : string) :
  (exists s', s = l ++ s' /\ removePrefix s l = s') \/
  ((forall s', s <> l ++ s') /\ removePrefix s l = s).
Proof.
  unfold removePrefix.
  destruct (Nat.ltb (String.length s) (String.length l)
            || negb (String.eqb (substring 0 (String.length l) s) l)) eqn:E.
  - right. split; [|done]. intros s' ->.
    rewrite substring_prefix_app, String.eqb_refl, string_length_app in E.
    apply orb_true_iff in E as [E|E]; [apply Nat.ltb_lt in E; lia|done].
  - left. apply orb_false_iff in E as [E1 E2].
    apply Nat.ltb_ge in E1. apply negb_false_iff, String.eqb_eq in E2.
    eexists. split; [|reflexivity].
    rewrite <- (substring_split s (String.length l)) at 1 by done. by rewrite E2.
Qed.

(** [removePrefix s l] drops [l] when [s] starts with it, and returns
    [s] unchanged otherwise. *)
Theorem removePrefix_spec (s l : string) :
  (exists s', s = l ++ s' /\ removePrefix s l = s') \/
  ((forall s', s <> l ++ s') /\ removePrefix s l = s).
Proof. apply removePrefix_cases. Qed.

Lemma removePostfix_cases (s l : string) :
  (exists s', s = s' ++ l /\ removePostfix s l = s') \/
  ((forall s', s <> s' ++ l) /\ removePostfix s l = s).
Proof.
  unfold removePostfix.
  destruct (Nat.ltb (String.length s) (String.length l)
            || negb (String.eqb (substring (String.length s - String.length l)
                                           (String.length l) s) l)) eqn:E.
  - right. split; [|done]. intros s' ->.
    rewrite string_length_app in E.
    replace (String.length s' + String.length l - String.length l) with (String.length s') in E by lia.
    rewrite substring_shift_app, substring_full, String.eqb_refl in E.
    apply orb_true_iff in E as [E|E]; [apply Nat.ltb_lt in E; lia|done].
  - left. apply orb_false_iff in E as [E1 E2].
    apply Nat.ltb_ge in E1. apply negb_false_iff, String.eqb_eq in E2.
    eexists. split; [|reflexivity].
    rewrite <- (substring_split s (String.length s - String.length l)) at 1 by lia.
    replace (String.length s - (String.length s - String.length l)) with (String.length l) by lia.
    by rewrite E2.
Qed.

(** [removePostfix s l] drops [l] when [s] ends with it, and returns
    [s] unchanged otherwise. *)
Theorem removePostfix_spec (s l : string) :
  (exists s', s = s' ++ l /\ removePostfix s l = s') \/
  ((forall s', s <> s' ++ l) /\ removePostfix s l = s).
Proof. apply removePostfix_cases. Qed.

Lemma removePrefix_app (l s : string) : removePrefix (l ++ s) l = s.
Proof.
  unfold removePrefix. rewrite substring_prefix_app, String.eqb_refl, string_length_app.
  replace (Nat.ltb _ _) with false by (symmetry; apply Nat.ltb_ge; lia). simpl.
  replace (String.length l + String.length s - String.length l) with (String.length s) by lia.
  by rewrite substring_shift_app, substring_full.
Qed.

Lemma removePostfix_app (s l : string) : removePostfix (s ++ l) l = s.
Proof.
  unfold removePostfix. rewrite string_length_app.
  replace (String.length s + String.length l - String.length l) with (String.length s) by lia.
  rewrite substring_shift_app, substring_full, String.eqb_refl.
  replace (Nat.ltb _ _) with false by (symmetry; apply Nat.ltb_ge; lia). simpl.
  apply substring_prefix_app.
Qed.

Lemma list_ascii_of_string_app' (s1 s2 : string) :
  list_ascii_of_string (s1 ++ s2) = (list_ascii_of_string s1 ++ list_ascii_of_string s2)%list.
Proof. induction s1; simpl; [done|by rewrite IHs1]. Qed.

(** [trimQuotes] strips one double quote at each end of a quoted
    string, and turns a lone double quote into the empty string. *)
Theorem trimQuotes_quoted (s : string) :
  trimQuotes (dq ++ s ++ dq) = s /\ trimQuotes dq = "".
Proof.
  split; [|reflexivity]. unfold trimQuotes.
  change (dq ++ s ++ dq) with ((dq ++ s) ++ dq).
  by rewrite removePostfix_app, removePrefix_app.
Qed.

(** [trimQuotes] leaves a string without double quotes unchanged, such
    as a backquoted raw literal. *)
Theorem trimQuotes_unquoted (s : string) :
  ascii_of_nat 34 ∉ list_ascii_of_string s -> trimQuotes s = s.
Proof.
  intros Hs. unfold trimQuotes.
  assert (Hdq : forall t u, s <> t ++ dq ++ u).
  { intros t u ->. apply Hs. rewrite !list_ascii_of_string_app'. simpl. set_solver. }
  destruct (removePostfix_cases s dq) as [(s' & -> & _)|[_ ->]].
  - exfalso. by apply (Hdq s' "").
  - destruct (removePrefix_cases s dq) as [(s' & -> & _)|[_ ->]]; [|done].
    exfalso. by apply (Hdq "" s').
Qed.

Lemma trimQuotes_unquoted_witness :
  (ascii_of_nat 34 ∉ list_ascii_of_string "`FOO`") /\ trimQuotes "`FOO`" = "`FOO`".
Proof.
  assert (H : ascii_of_nat 34 ∉ list_ascii_of_string "`FOO`"). { by_computation. }
  split; [exact H|]. exact (trimQuotes_unquoted _ H).
Defined.

(** [isReadingEnv] accepts exactly the statements calling [Getenv],
    [LookupEnv] or [Environ] through an identifier naming the package [os]
    or [syscall]: [Environ] with any arguments (no argument returned),
    [Getenv] and [LookupEnv] only with exactly one argument, returned. *)
Theorem isReadingEnv_spec (uses : nat -> option Obj) (node : AstNode) (r : option Expr) :
  isReadingEnv uses node = Some r <->
  exists pkgIdent path name args,
    node = ExprStmt (CallExpr (SelectorExpr (Ident pkgIdent) name) args) /\
    uses pkgIdent = Some (PkgName path) /\ (path = "os" \/ path = "syscall") /\
    ((name = "Environ" /\ r = None) \/
     ((name = "Getenv" \/ name = "LookupEnv") /\ exists a, args = [a] /\ r = Some a)).
Proof.
  split.
  - destruct node as [x|]; [|done]. destruct x as [| |fn args| |]; try done.
    destruct fn as [| | |x name|]; try done. destruct x as [|pkgIdent| | |]; try done.
    simpl. destruct (uses pkgIdent) as [[path| |]|] eqn:Hu; try done.
    intros H. exists pkgIdent, path, name, args. split_and!; [done|done| |].
    + destruct (String.eqb_spec path "os"); [by left|].
      destruct (String.eqb_spec path "syscall"); [by right|]. done.
    + destruct (negb _ && negb _); [done|].
      destruct (String.eqb_spec name "Getenv"), (String.eqb_spec name "Environ"),
               (String.eqb_spec name "LookupEnv"); simpl in H; subst; try done;
      first [ left; split; [done|congruence]
            | right; split; [first [by left|by right]|];
              destruct args as [|a [|]]; try done; exists a; split; [done|congruence] ].
  - intros (pkgIdent & path & name & args & -> & Hu & Hp & Hn). simpl. rewrite Hu.
    destruct Hp as [->| ->]; simpl;
    destruct Hn as [[-> ->]|[[-> | ->] (a & -> & ->)]]; reflexivity.
Qed.

Lemma EnvGo_pre_cases p n :
  (forall st, EnvGo.pre p st n = st) \/
  (exists k, forall st, EnvGo.pre p st n = EnvGo.addVar st k) \/
  (forall st, EnvGo.pre p st n = EnvGo.addDynamic st).
Proof.
  unfold EnvGo.pre.
  destruct (isReadingEnv (pkg_uses p) n) as [[a|]|]; [|by right; right|by left].
  destruct a as [value|id| | |]; try (by right; right).
  - right; left. by exists value.
  - destruct (pkg_uses p id) as [[| |]|]; try (by right; right); [|by left].
    right; left. eexists. intros st. reflexivity.
Qed.

Lemma EnvGo_pre_comm p q n m st :
  EnvGo.pre q (EnvGo.pre p st n) m = EnvGo.pre p (EnvGo.pre q st m) n.
Proof.
  destruct (EnvGo_pre_cases p n) as [Hp|[[k Hp]|Hp]], (EnvGo_pre_cases q m) as [Hq|[[k' Hq]|Hq]];
    rewrite ?Hp, ?Hq; try done; unfold EnvGo.addVar, EnvGo.addDynamic; simpl;
    f_equal; f_equal; try (apply leibniz_equiv; set_solver);
    rewrite ?N.Div0.add_mod_idemp_l; lia.
Qed.

(** [reportCallsReadingEnv] of [analyzer/env.go]: the report does not
    depend on the order in which the packages are visited. *)
Theorem EnvGo_reportCallsReadingEnv_package_order pkgs1 pkgs2 envReport :
  pkgs1 ≡ₚ pkgs2 ->
  EnvGo.reportCallsReadingEnv pkgs1 envReport = EnvGo.reportCallsReadingEnv pkgs2 envReport.
Proof.
  intros Hp. unfold EnvGo.reportCallsReadingEnv, forEachPackageIncludingDependencies.
  apply foldl_perm_comm; [|done].
  intros st p q. apply foldl_swap. intros m x y. apply EnvGo_pre_comm.
Qed.

Lemma GetenvGo_pre_cases p n :
  (forall st, GetenvGo.pre p st n = st) \/
  (exists k, forall st, GetenvGo.pre p st n = GetenvGo.Add st p k).
Proof.
  unfold GetenvGo.pre.
  destruct (isReadingEnv (pkg_uses p) n) as [[a|]|]; [|by right; eexists|by left].
  destruct a as [value|id| | |]; try (by right; eexists).
  destruct (pkg_uses p id) as [[| |]|]; try (by right; eexists). by left.
Qed.

Lemma GetenvGo_Add_comm st p q k k' :
  GetenvGo.Add (GetenvGo.Add st p k) q k' = GetenvGo.Add (GetenvGo.Add st q k') p k.
Proof.
  unfold GetenvGo.Add. simpl. f_equal.
  set (r := GetenvGo.GetEnvReportInstance st).
  destruct (decide (pkg_path p = pkg_path q)) as [E|Hne].
  - rewrite <- E, !lookup_insert_eq, !insert_insert_eq. f_equal. simpl.
    apply leibniz_equiv. set_solver.
  - rewrite !lookup_insert_ne by congruence. by apply insert_insert_ne.
Qed.

Lemma GetenvGo_pre_comm p q n m st :
  GetenvGo.pre q (GetenvGo.pre p st n) m = GetenvGo.pre p (GetenvGo.pre q st m) n.
Proof.
  destruct (GetenvGo_pre_cases p n) as [Hp|[k Hp]], (GetenvGo_pre_cases q m) as [Hq|[k' Hq]];
    rewrite ?Hp, ?Hq; try done. apply GetenvGo_Add_comm.
Qed.

(** [reportCallsReadingEnv] of [testpkgs/getenv/getenv.go]: the report
    does not depend on the order in which the packages are visited. *)
Theorem GetenvGo_reportCallsReadingEnv_package_order pkgs1 pkgs2 envReport :
  pkgs1 ≡ₚ pkgs2 ->
  GetenvGo.reportCallsReadingEnv pkgs1 envReport = GetenvGo.reportCallsReadingEnv pkgs2 envReport.
Proof.
  intros Hp. unfold GetenvGo.reportCallsReadingEnv, forEachPackageIncludingDependencies.
  apply foldl_perm_comm; [|done].
  intros st p q. apply foldl_swap. intros m x y. apply GetenvGo_pre_comm.
Qed.

Lemma GetenvGo_pre_other p st n q :
  q <> pkg_path p -> GetenvGo.namesOf (GetenvGo.pre p st n) q = GetenvGo.namesOf st q.
Proof.
  intros Hq. destruct (GetenvGo_pre_cases p n) as [Hp|[k Hp]]; rewrite Hp; [done|].
  unfold GetenvGo.namesOf, GetenvGo.Add. simpl. by rewrite lookup_insert_ne by congruence.
Qed.

(** [reportCallsReadingEnv] of [testpkgs/getenv/getenv.go] leaves the
    names of every package outside [pkgs] unchanged. *)
Theorem GetenvGo_reportCallsReadingEnv_frame pkgs envReport q :
  q ∉ map pkg_path pkgs ->
  GetenvGo.namesOf (GetenvGo.reportCallsReadingEnv pkgs envReport) q =
  GetenvGo.namesOf envReport q.
Proof.
  unfold GetenvGo.reportCallsReadingEnv, forEachPackageIncludingDependencies.
  revert envReport. induction pkgs as [|p pkgs IH]; intros st Hq; simpl; [done|].
  rewrite IH by (intros H; apply Hq; by right).
  apply (foldl_invariant (fun st' => GetenvGo.namesOf st' q = GetenvGo.namesOf st q)); [|done].
  intros m x _ Hm. rewrite GetenvGo_pre_other; [done|]. intros ->. apply Hq. left.
Qed.

Lemma countKey_step counts k k' n :
  (Z.of_nat (n + if bool_decide (k = k') then 1 else 0) < 2 ^ 63)%Z -> keyCountIs counts k n ->
  keyCountIs (countKey counts k') k (n + if bool_decide (k = k') then 1 else 0).
Proof.
  intros Hn Hc. unfold keyCountIs, countKey in *.
  case_bool_decide as E.
  - subst k'. rewrite lookup_insert_eq, decide_False by lia. f_equal.
    rewrite Hc. unfold wrapInt64.
    destruct (decide (n = 0)) as [->|Hn0]; simpl; rewrite Z.mod_small; lia.
  - rewrite lookup_insert_ne by congruence. by rewrite Nat.add_0_r.
Qed.

Lemma countKey_inner ks k : NoDup ks -> forall counts n,
  (Z.of_nat (n + if bool_decide (k ∈ ks) then 1 else 0) < 2 ^ 63)%Z -> keyCountIs counts k n ->
  keyCountIs (foldl countKey counts ks) k (n + if bool_decide (k ∈ ks) then 1 else 0).
Proof.
  induction ks as [|k' ks IH]; intros Hnd counts n Hn Hc; simpl.
  - rewrite bool_decide_false in * by set_solver. by rewrite Nat.add_0_r.
  - apply NoDup_cons in Hnd as [Hk' Hnd].
    destruct (decide (k = k')) as [<-|Hne].
    + rewrite bool_decide_true in * by set_solver.
      pose proof (countKey_step counts k k n) as Hs. rewrite bool_decide_true in Hs by done.
      specialize (Hs Hn Hc).
      replace (n + 1) with (n + 1 + if bool_decide (k ∈ ks) then 1 else 0)
        by (rewrite bool_decide_false by done; lia).
      apply IH; [done| |done]. rewrite bool_decide_false by done. lia.
    + pose proof (countKey_step counts k k' n) as Hs. rewrite bool_decide_false in Hs by done.
      rewrite Nat.add_0_r in Hs.
      assert (Hiff : bool_decide (k ∈ k' :: ks) = bool_decide (k ∈ ks)).
      { apply bool_decide_ext. set_solver. }
      rewrite Hiff in *. apply IH; [done|done|]. apply Hs; [lia|done].
Qed.

Lemma countKey_outer order k : Forall (fun pv : string * list string => NoDup pv.2) order ->
  forall counts n,
  (Z.of_nat (n + List.length (filter (fun pv : string * list string => k ∈ pv.2) order)) < 2 ^ 63)%Z ->
  keyCountIs counts k n ->
  keyCountIs (foldl (fun counts pv => foldl countKey counts pv.2) counts order) k
    (n + List.length (filter (fun pv : string * list string => k ∈ pv.2) order)).
Proof.
  induction order as [|pv order IH]; intros Hnd counts n Hn Hc; simpl.
  - by rewrite Nat.add_0_r.
  - apply Forall_cons in Hnd as [Hpv Hnd]. rewrite filter_cons in *.
    pose proof (countKey_inner pv.2 k Hpv counts n) as Hi.
    destruct (decide (k ∈ pv.2)) as [Hk|Hk].
    + rewrite bool_decide_true in Hi by done. simpl in Hn |- *.
      replace (n + S _) with (n + 1 + List.length (filter (fun pv : string * list string => k ∈ pv.2) order)) by lia.
      apply IH; [done|lia|]. apply Hi; [lia|done].
    + rewrite bool_decide_false, Nat.add_0_r in Hi by done.
      apply IH; [done|lia|]. apply Hi; [lia|done].
Qed.

Lemma filter_length_fmap_set (order : list (string * list string)) k :
  List.length (filter (fun pv : string * gset string => k ∈ pv.2)
    ((fun pv : string * list string => (pv.1, list_to_set pv.2 : gset string)) <$> order)) =
  List.length (filter (fun pv : string * list string => k ∈ pv.2) order).
Proof.
  induction order as [|pv order IH]; [done|]. rewrite fmap_cons, !filter_cons. cbn [fst snd].
  destruct (decide (k ∈ pv.2)) as [H|H].
  - rewrite decide_True by (by apply elem_of_list_to_set). cbn [List.length]. by f_equal.
  - rewrite decide_False by (by rewrite elem_of_list_to_set). exact IH.
Qed.

(** [EnvVarCounts]: [nil] for an empty report; otherwise, for every
    iteration order, the count of a name is the number of packages whose
    set holds it, with no entry for a name no package holds (for fewer
    than [2^63] packages). *)
Theorem EnvVarCounts_counts report order :
  validReportOrder report order -> (Z.of_nat (size report) < 2 ^ 63)%Z ->
  (report = ∅ /\ EnvVarCounts_in order report = None) \/
  (report <> ∅ /\ exists counts, EnvVarCounts_in order report = Some counts /\
     forall k, keyCountIs counts k
       (List.length (filter (fun pv : string * gset string => k ∈ pv.2) (map_to_list report)))).
Proof.
  intros [Hperm Hnd] Hsize. unfold EnvVarCounts_in.
  destruct (Nat.eqb_spec (size report) 0) as [H0|H0].
  - left. split; [by apply map_size_empty_iff|done].
  - right. split; [intros ->; by rewrite map_size_empty in H0|].
    eexists. split; [reflexivity|]. intros k.
    assert (Hlen : List.length (filter (fun pv : string * gset string => k ∈ pv.2) (map_to_list report)) =
                   List.length (filter (fun pv : string * list string => k ∈ pv.2) order)).
    { etransitivity; [|apply filter_length_fmap_set]. apply Permutation_length.
      apply filter_Permutation. by symmetry. }
    assert (Hle : List.length (filter (fun pv : string * gset string => k ∈ pv.2) (map_to_list report))
                  <= size report).
    { rewrite <- length_map_to_list. apply length_filter. }
    rewrite Hlen in Hle |- *.
    apply (countKey_outer order k Hnd ∅ 0); [simpl; lia|].
    unfold keyCountIs. by rewrite lookup_empty.
Qed.


Lemma EnvGo_reportCallsReadingEnv_package_order_witness :
  exEnvPackages ≡ₚ rev exEnvPackages /\
  EnvGo.reportCallsReadingEnv exEnvPackages None =
  EnvGo.reportCallsReadingEnv (rev exEnvPackages) None.
Proof.
  assert (H : exEnvPackages ≡ₚ rev exEnvPackages) by (symmetry; apply Permutation_rev).
  split; [exact H|]. exact (EnvGo_reportCallsReadingEnv_package_order _ _ None H).
Defined.

Lemma GetenvGo_reportCallsReadingEnv_package_order_witness :
  exEnvPackages ≡ₚ rev exEnvPackages /\
  GetenvGo.reportCallsReadingEnv exEnvPackages None =
  GetenvGo.reportCallsReadingEnv (rev exEnvPackages) None.
Proof.
  assert (H : exEnvPackages ≡ₚ rev exEnvPackages) by (symmetry; apply Permutation_rev).
  split; [exact H|]. exact (GetenvGo_reportCallsReadingEnv_package_order _ _ None H).
Defined.

Lemma GetenvGo_reportCallsReadingEnv_frame_witness :
  "example.com/c" ∉ map pkg_path exEnvPackages /\
  GetenvGo.namesOf (GetenvGo.reportCallsReadingEnv exEnvPackages
                      (Some {["example.com/c" := {["X"]}]})) "example.com/c" =
  GetenvGo.namesOf (Some {["example.com/c" := {["X"]}]}) "example.com/c".
Proof.
  assert (H : "example.com/c" ∉ map pkg_path exEnvPackages). { by_computation. }
  split; [exact H|]. exact (GetenvGo_reportCallsReadingEnv_frame _ _ _ H).
Defined.



Lemma EnvVarCounts_counts_witness :
  validReportOrder exReport exReportOrder /\ (Z.of_nat (size exReport) < 2 ^ 63)%Z /\
  ((exReport = ∅ /\ EnvVarCounts_in exReportOrder exReport = None) \/
   (exReport <> ∅ /\ exists counts, EnvVarCounts_in exReportOrder exReport = Some counts /\
      forall k, keyCountIs counts k
        (List.length (filter (fun pv : string * gset string => k ∈ pv.2) (map_to_list exReport))))) /\
  EnvVarCounts_in exReportOrder exReport = Some {["HOME" := 2%Z; "PATH" := 1%Z]}.
Proof.
  assert (H1 : validReportOrder exReport exReportOrder).
  { split; [|by_computation]. by_computation. }
  assert (H2 : (Z.of_nat (size exReport) < 2 ^ 63)%Z). { by_computation. }
  split; [exact H1|]. split; [exact H2|].
  split; [exact (EnvVarCounts_counts exReport exReportOrder H1 H2)|]. by_computation.
Defined.

(* ------------------------------------------------------------------ *)
(** ** Properties of the graph searches of [CapabilityGraph] *)

Section SearchBackwardsProofs.
Variable g : Graph.
Variable cl : Classifier.
Variables safe expl : gset Node.
Variable nbc : gmap Capability (gset Node).

Local Abbreviation R := (reachesCapability g cl safe expl nbc).
Local Abbreviation Inv := (sbInv g cl safe expl nbc).

Lemma sbIncomingEdges_spec v e :
  e ∈ sbIncomingEdges g cl safe expl v ->
  e ∈ node_in g v /\ IncludeCall cl e = true /\ (Caller e ∉ safe) /\ Caller e ∉ expl.
Proof.
  unfold sbIncomingEdges. rewrite (sortBy_perm _ _).
  rewrite list_elem_of_In, List.filter_In, <- list_elem_of_In. intros [Hin Hf].
  destruct (IncludeCall cl e); simpl in Hf; [|done].
  repeat case_bool_decide; done.
Qed.

Lemma sbVisitEdge_inv v st e :
  R v -> e ∈ sbIncomingEdges g cl safe expl v -> Inv st -> Inv (sbVisitEdge st e).
Proof.
  intros Hv He [H1 H2]. apply sbIncomingEdges_spec in He as (Hin & Hinc & Hs & Hx).
  unfold sbVisitEdge. destruct (st.1 !! Caller e) eqn:E; [done|].
  split; simpl.
  - intros w Hw. destruct (decide (w = Caller e)) as [->|Hne].
    + by eapply reaches_call.
    + rewrite lookup_insert_ne in Hw by congruence. by apply H1.
  - intros w Hw. apply elem_of_app in Hw as [Hw|Hw].
    + destruct (decide (w = Caller e)) as [->|Hne]; [by rewrite lookup_insert_eq|].
      rewrite lookup_insert_ne by congruence. by apply H2.
    + apply list_elem_of_singleton in Hw as ->. by rewrite lookup_insert_eq.
Qed.

Lemma sbLoop_inv fuel : forall st, Inv st -> Inv (sbLoop g cl safe expl fuel st).
Proof.
  induction fuel as [|fuel IH]; intros [vis q] Hst; simpl; [done|].
  destruct q as [|v q]; [done|]. apply IH.
  destruct Hst as [H1 H2]. simpl in H2.
  assert (Hv : R v) by (apply H1, H2; left).
  apply (foldl_invariant Inv); [|split; [done|intros w Hw; apply H2; by right]].
  intros m e He Hm. by apply (sbVisitEdge_inv v).
Qed.

Lemma sbInit_inv o :
  validIterators o -> Inv (sbInit safe o nbc).
Proof.
  intros [_ Hnodes]. unfold sbInit.
  apply (foldl_invariant Inv); [|split; [intros v [? H]; simpl in H; by rewrite lookup_empty in H|
                                           intros v H; by apply elem_of_nil in H]].
  intros st c _ Hst.
  apply (foldl_invariant Inv); [|done].
  intros st' v Hv [H1 H2]. case_bool_decide as Hs; [done|].
  rewrite Hnodes in Hv. apply elem_of_elements in Hv.
  split; simpl.
  - intros w Hw. destruct (decide (w = v)) as [->|Hne]; [by eapply reaches_root|].
    rewrite lookup_insert_ne in Hw by congruence. by apply H1.
  - intros w Hw. apply elem_of_app in Hw as [Hw|Hw].
    + destruct (decide (w = v)) as [->|Hne]; [by rewrite lookup_insert_eq|].
      rewrite lookup_insert_ne by congruence. by apply H2.
    + apply list_elem_of_singleton in Hw as ->. by rewrite lookup_insert_eq.
Qed.
End SearchBackwardsProofs.

Lemma sbReach_sound g cl safe expl nbc o fuel v :
  validIterators o ->
  is_Some (searchBackwardsFromCapabilities_fuel g cl safe expl fuel o nbc !! v) ->
  (v ∉ safe) /\ reachesCapability g cl safe expl nbc v.
Proof.
  intros Ho Hv.
  assert (HR : reachesCapability g cl safe expl nbc v).
  { unfold searchBackwardsFromCapabilities_fuel in Hv.
    destruct (sbInit_inv g cl safe expl nbc o Ho) as [H1 H2].
    destruct (sbLoop_inv g cl safe expl nbc fuel
                ((sbInit safe o nbc).1, sortBy (funcLess g) (sbInit safe o nbc).2)) as [H _];
      [|by apply H].
    split; [done|]. simpl. intros w Hw. rewrite (sortBy_perm _ _) in Hw. by apply H2. }
  split; [|done]. by destruct HR.
Qed.

Section SearchForwardsProofs.
Variable g : Graph.
Variable cl : Classifier.
Variable node_out : Node -> list Edge.
Variable o : MapOrder.
Variable nbc : gmap Capability (gset Node).
Variable expl : gset Node.
Variable bfc : gmap Node bfsState.

Local Abbreviation sfCallsOk := (sfCallsOk cl node_out expl bfc).
Local Abbreviation sfCapsOk := (sfCapsOk nbc).
Local Abbreviation sfInv := (sfInv cl node_out nbc expl bfc).

Lemma outputNodes_app l1 l2 :
  outputNodes (l1 ++ l2) = (outputNodes l1 ++ outputNodes l2)%list.
Proof. induction l1 as [|[] l1 IH]; simpl; rewrite ?IH; done. Qed.

Lemma outputNodes_caps v cs :
  outputNodes (map (fun c => OutputCapability v c) cs) = [].
Proof. induction cs; simpl; done. Qed.





Lemma sfOutgoingEdges_spec v e :
  e ∈ sfOutgoingEdges g cl node_out bfc v ->
  e ∈ node_out v /\ IncludeCall cl e = true /\ is_Some (bfc !! Callee e).
Proof.
  unfold sfOutgoingEdges. rewrite (sortBy_perm _ _).
  rewrite list_elem_of_In, List.filter_In, <- list_elem_of_In. intros [Hin Hf].
  destruct (IncludeCall cl e); simpl in Hf; [|done].
  destruct (bfc !! Callee e); done.
Qed.

Lemma seen_length st :
  sfInv st -> List.length (sfSeen st) <= size bfc.
Proof.
  intros (H1 & H2 & H3 & _).
  rewrite <- (size_list_to_set (C:=gset Node)) by done.
  rewrite <- (size_dom bfc). apply subseteq_size.
  intros x Hx. apply elem_of_list_to_set in Hx. apply elem_of_dom.
  by apply H1, H2.
Qed.

Lemma sfCallStep_cases st prev e :
  (sfCallStep (st, prev) e).1 = st \/
  (sfCallStep (st, prev) e).1 =
    match sf_fromQueries st !! Callee e with
    | Some _ => mkSfSt (sf_fromQueries st) (sf_queue st) (sf_trace st ++ [OutputCall e])%list
    | None => mkSfSt (<[Callee e := Some e]> (sf_fromQueries st))
                     (sf_queue st ++ [Callee e])%list (sf_trace st ++ [OutputCall e])%list
    end.
Proof. unfold sfCallStep. destruct prev; [case_bool_decide|]; auto. Qed.

Lemma sfCallStep_inv v j fq0 e : forall st prev,
  sfInv st -> sf_trace st !! j = Some (OutputNode fq0 v) -> v ∉ expl ->
  e ∈ sfOutgoingEdges g cl node_out bfc v ->
  sfInv (sfCallStep (st, prev) e).1 /\
  sf_trace st `prefix_of` sf_trace (sfCallStep (st, prev) e).1 /\
  outputNodes (sf_trace (sfCallStep (st, prev) e).1) = outputNodes (sf_trace st) /\
  sfSeen st `prefix_of` sfSeen (sfCallStep (st, prev) e).1.
Proof.
  intros [fq q tr] prev Hst Hj Hv He.
  destruct (sfOutgoingEdges_spec v e He) as (Hout & Hinc & Hbfc).
  destruct (sfCallStep_cases (mkSfSt fq q tr) prev e) as [->| ->].
  { split; [done|]. done. }
  destruct Hst as (H1 & H2 & H3 & H5 & H6 & H7).
  unfold sfInv, sfSeen in *. simpl in *.
  assert (Hon : outputNodes (tr ++ [OutputCall e])%list = outputNodes tr)
    by (rewrite outputNodes_app; simpl; by rewrite app_nil_r).
  assert (Hcalls : sfCallsOk (tr ++ [OutputCall e])%list).
  { intros i e' Hi. apply lookup_app_Some in Hi as [Hi|[Hle Hi]].
    - destruct (H5 i e' Hi) as (? & ? & j' & fq' & w & ? & Hj' & ?).
      split; [done|]. split; [done|]. exists j', fq', w.
      split; [done|]. split; [|done]. by apply lookup_app_l_Some.
    - apply list_lookup_singleton_Some in Hi as [Hi Heq]. injection Heq as <-.
      split; [done|]. split; [done|]. exists j, fq0, v.
      apply lookup_lt_Some in Hj as Hlt.
      split; [lia|]. split; [by apply lookup_app_l_Some|]. done. }
  assert (Hcaps : sfCapsOk (tr ++ [OutputCall e])%list).
  { intros i w c Hi. apply lookup_app_Some in Hi as [Hi|[Hle Hi]].
    - destruct (H6 i w c Hi) as (? & j' & fq' & ? & Hj').
      split; [done|]. exists j', fq'. split; [done|]. by apply lookup_app_l_Some.
    - by apply list_lookup_singleton_Some in Hi as [_ ?]. }
  destruct (fq !! Callee e) eqn:Hw; simpl; rewrite Hon.
  - split; [|split; [by apply prefix_app_r|done]].
    split; [done|]. split; [done|]. split; [done|]. split; [done|]. split; [done|].
    intros i e' Hi. apply lookup_app_Some in Hi as [Hi|[Hle Hi]]; [by apply (H7 i)|].
    apply list_lookup_singleton_Some in Hi as [_ Heq]. injection Heq as <-.
    apply H2. by rewrite Hw.
  - split; [|split; [by apply prefix_app_r|split; [done|]]].
    2:{ rewrite app_assoc. by apply prefix_app_r. }
    assert (Hnew : Callee e ∉ (outputNodes tr ++ q)%list).
    { intros Hin. apply H2 in Hin as [? Hs]. by rewrite Hs in Hw. }
    split; [|split; [|split; [|split; [|split]]]]; try done.
    + intros w Hw'. destruct (decide (w = Callee e)) as [->|Hne]; [done|].
      rewrite lookup_insert_ne in Hw' by congruence. by apply H1.
    + intros w. rewrite app_assoc, elem_of_app, list_elem_of_singleton.
      destruct (decide (w = Callee e)) as [->|Hne].
      * rewrite lookup_insert_eq. split; [by right|done].
      * rewrite lookup_insert_ne by congruence. rewrite H2. naive_solver.
    + rewrite app_assoc. apply NoDup_app. split; [done|]. split; [|apply NoDup_singleton].
      intros w Hw' Hw''. by apply list_elem_of_singleton in Hw'' as ->.
    + intros i e' Hi. rewrite app_assoc, elem_of_app, list_elem_of_singleton.
      apply lookup_app_Some in Hi as [Hi|[Hle Hi]]; [left; by apply (H7 i)|].
      apply list_lookup_singleton_Some in Hi as [_ Heq]. injection Heq as <-. by right.
Qed.

Lemma sfCallSteps_inv v j fq0 : forall es st prev,
  sfInv st -> sf_trace st !! j = Some (OutputNode fq0 v) -> v ∉ expl ->
  (forall e, e ∈ es -> e ∈ sfOutgoingEdges g cl node_out bfc v) ->
  sfInv (foldl sfCallStep (st, prev) es).1 /\
  outputNodes (sf_trace (foldl sfCallStep (st, prev) es).1) = outputNodes (sf_trace st) /\
  sfSeen st `prefix_of` sfSeen (foldl sfCallStep (st, prev) es).1 /\
  sf_trace st `prefix_of` sf_trace (foldl sfCallStep (st, prev) es).1.
Proof.
  induction es as [|e es IH]; intros st prev Hst Hj Hv Hes; cbn [foldl]; [done|].
  destruct (sfCallStep_inv v j fq0 e st prev Hst Hj Hv (Hes e ltac:(left)))
    as (Hst' & Hpre & Hon & Hseen).
  destruct (sfCallStep (st, prev) e) as [st' prev'] eqn:E. cbn [fst] in *.
  destruct (IH st' prev' Hst') as (? & Hon' & Hseen' & Hpre').
  - by eapply prefix_lookup_Some.
  - done.
  - intros e' He'. apply Hes. by right.
  - split; [done|]. split; [by rewrite Hon'|]. split; [by trans (sfSeen st')|].
    by trans (sf_trace st').
Qed.

Lemma sfVisit_inv fq v q tr :
  sfInv (mkSfSt fq (v :: q) tr) ->
  sfInv (sfVisit g cl node_out o nbc expl bfc (mkSfSt fq q tr) v) /\
  outputNodes (sf_trace (sfVisit g cl node_out o nbc expl bfc (mkSfSt fq q tr) v))
    = (outputNodes tr ++ [v])%list /\
  sfSeen (mkSfSt fq (v :: q) tr)
    `prefix_of` sfSeen (sfVisit g cl node_out o nbc expl bfc (mkSfSt fq q tr) v).
Proof.
  intros Hst. unfold sfVisit. simpl.
  set (cs := List.filter (fun c => bool_decide (v ∈ lookupSet nbc c)) (order_caps o nbc)).
  set (tr1 := ((tr ++ [OutputNode fq v]) ++ map (fun c => OutputCapability v c) cs)%list).
  assert (Hon : outputNodes tr1 = (outputNodes tr ++ [v])%list).
  { unfold tr1. rewrite !outputNodes_app, outputNodes_caps. simpl. by rewrite !app_nil_r. }
  assert (Hseen : sfSeen (mkSfSt fq q tr1) = sfSeen (mkSfSt fq (v :: q) tr)).
  { unfold sfSeen. simpl. rewrite Hon, <- app_assoc. done. }
  assert (Hnode : tr1 !! List.length tr = Some (OutputNode fq v)).
  { unfold tr1. rewrite <- app_assoc. rewrite lookup_app_r by lia.
    by rewrite Nat.sub_diag. }
  destruct Hst as (H1 & H2 & H3 & H5 & H6 & H7). simpl in *.
  assert (Hst1 : sfInv (mkSfSt fq q tr1)).
  { split; [done|]. split; [intros w; rewrite Hseen; apply H2|].
    split; [by rewrite Hseen|]. rewrite Hseen. simpl.
    assert (Hmid : forall i, (tr1 !! i = tr !! i) \/
                   (List.length tr <= i /\ exists ev, tr1 !! i = Some ev /\
                     (ev = OutputNode fq v \/ exists c, c ∈ cs /\ ev = OutputCapability v c))
                   \/ tr1 !! i = None).
    { intros i. destruct (tr1 !! i) as [ev|] eqn:Ei; [|by right; right].
      unfold tr1 in Ei. rewrite <- app_assoc in Ei.
      apply lookup_app_Some in Ei as [Ei|[Hle Ei]].
      - left. by rewrite Ei.
      - right; left. split; [done|]. exists ev. split.
        + done.
        + destruct (i - List.length tr) as [|k] eqn:Ek; simpl in Ei.
          * injection Ei as <-. by left.
          * right. apply list_lookup_fmap_Some in Ei as (c & -> & Hc).
            exists c. split; [|done]. by eapply list_elem_of_lookup_2. }
    split; [|split].
    - intros i e Hi. destruct (Hmid i) as [Heq|[(_ & ev & Hev & Hk)|Hnone]];
        [|rewrite Hi in Hev; injection Hev as <-; naive_solver|congruence].
      rewrite Heq in Hi. destruct (H5 i e Hi) as (? & ? & j & fq' & w & ? & Hj & ?).
      split; [done|]. split; [done|]. exists j, fq', w. split; [done|].
      split; [|done]. unfold tr1. rewrite <- app_assoc. by apply lookup_app_l_Some.
    - intros i w c Hi. destruct (Hmid i) as [Heq|[(Hle & ev & Hev & Hk)|Hnone]]; [|
        |congruence].
      + rewrite Heq in Hi. destruct (H6 i w c Hi) as (? & j & fq' & ? & Hj).
        split; [done|]. exists j, fq'. split; [done|].
        unfold tr1. rewrite <- app_assoc. by apply lookup_app_l_Some.
      + rewrite Hi in Hev. injection Hev as <-.
        destruct Hk as [Hk|(c' & Hc' & Hk)]; [done|]. injection Hk as -> ->.
        unfold cs in Hc'. apply list_elem_of_In, List.filter_In in Hc' as [_ Hc'].
        apply bool_decide_eq_true in Hc'. split; [done|].
        exists (List.length tr), fq. split; [|done].
        destruct (decide (i = List.length tr)) as [->|]; [|lia].
        rewrite Hnode in Hi. discriminate.
    - intros i e Hi. destruct (Hmid i) as [Heq|[(_ & ev & Hev & Hk)|Hnone]];
        [|rewrite Hi in Hev; injection Hev as <-; naive_solver|congruence].
      rewrite Heq in Hi. by apply (H7 i). }
  destruct (bool_decide (v ∈ expl)) eqn:Hx.
  - split; [done|]. split; [done|]. by rewrite Hseen.
  - apply bool_decide_eq_false in Hx.
    destruct (sfCallSteps_inv v (List.length tr) fq (sfOutgoingEdges g cl node_out bfc v)
                (mkSfSt fq q tr1) None Hst1 Hnode Hx) as (? & Hon' & Hpre & _); [done|].
    split; [done|]. split; [by rewrite Hon'|]. by rewrite <- Hseen.
Qed.

Lemma sfLoop_inv fuel : forall st,
  sfInv st ->
  sfInv (sfLoop g cl node_out o nbc expl bfc fuel st) /\
  sfSeen st `prefix_of` sfSeen (sfLoop g cl node_out o nbc expl bfc fuel st).
Proof.
  induction fuel as [|fuel IH]; intros [fq q tr] Hst; simpl; [done|].
  destruct q as [|v q]; [done|].
  destruct (sfVisit_inv fq v q tr Hst) as (Hst' & _ & Hpre).
  destruct (IH _ Hst') as [? Hpre']. split; [done|]. by trans (sfSeen
    (sfVisit g cl node_out o nbc expl bfc (mkSfSt fq q tr) v)).
Qed.

Lemma sfLoop_empties fuel : forall st,
  sfInv st -> size bfc < List.length (outputNodes (sf_trace st)) + fuel ->
  sf_queue (sfLoop g cl node_out o nbc expl bfc fuel st) = [].
Proof.
  induction fuel as [|fuel IH]; intros [fq q tr] Hst Hlt; simpl.
  - apply seen_length in Hst. unfold sfSeen in Hst. simpl in *.
    rewrite length_app in Hst. destruct q; [done|]. simpl in Hst. lia.
  - destruct q as [|v q]; [done|].
    destruct (sfVisit_inv fq v q tr Hst) as (Hst' & Hon & _).
    apply IH; [done|]. rewrite Hon, length_app. simpl in *. lia.
Qed.
End SearchForwardsProofs.

Section SearchForwardsResult.
Variable g : Graph.
Variable cl : Classifier.
Variable node_out : Node -> list Edge.
Variable o : MapOrder.
Variable nbc : gmap Capability (gset Node).
Variable expl : gset Node.
Variable bfc : gmap Node bfsState.

Local Abbreviation canReach := (canReach bfc).

Lemma sfInitStep_fold l : forall st,
  NoDup l -> (forall x, x ∈ l -> x ∉ sf_queue st) -> sf_trace st = [] ->
  (forall v, is_Some (sf_fromQueries st !! v) -> is_Some (bfc !! v)) ->
  (forall v, is_Some (sf_fromQueries st !! v) <-> v ∈ sf_queue st) ->
  NoDup (sf_queue st) ->
  let st' := foldl (sfInitStep bfc) st l in
  sf_trace st' = [] /\
  (forall v, is_Some (sf_fromQueries st' !! v) -> is_Some (bfc !! v)) /\
  (forall v, is_Some (sf_fromQueries st' !! v) <-> v ∈ sf_queue st') /\
  NoDup (sf_queue st') /\
  sf_queue st' = (sf_queue st ++ List.filter canReach l)%list.
Proof.
  induction l as [|x l IH]; intros [fq q tr] Hl Hfresh Htr H1 H2 H3; simpl in *.
  { by rewrite app_nil_r. }
  apply NoDup_cons in Hl as [Hx Hl].
  destruct (bfc !! x) eqn:Hb.
  - assert (Hs : sfInitStep bfc (mkSfSt fq q tr) x = mkSfSt (<[x:=None]> fq) (q ++ [x])%list tr)
      by (unfold sfInitStep; by rewrite Hb).
    assert (Hc : canReach x = true) by (unfold canReach; by rewrite Hb).
    rewrite Hs, Hc.
    assert (Hxq : x ∉ q) by (apply Hfresh; left).
    destruct (IH (mkSfSt (<[x:=None]> fq) (q ++ [x])%list tr)) as (? & ? & ? & ? & Hq);
      simpl; try done.
    + intros y Hy. rewrite elem_of_app, list_elem_of_singleton. intros [Hy'| ->]; [|done].
      by apply (Hfresh y); [right|].
    + intros v. destruct (decide (v = x)) as [->|]; [by rewrite Hb|].
      rewrite lookup_insert_ne by congruence. apply H1.
    + intros v. rewrite elem_of_app, list_elem_of_singleton.
      destruct (decide (v = x)) as [->|]; [rewrite lookup_insert_eq; naive_solver|].
      rewrite lookup_insert_ne by congruence. rewrite H2. naive_solver.
    + apply NoDup_app. split; [done|]. split; [|apply NoDup_singleton].
      intros y Hy Hy'. by apply list_elem_of_singleton in Hy' as ->.
    + split; [done|]. split; [done|]. split; [done|]. split; [done|].
      rewrite Hq. simpl. by rewrite <- app_assoc.
  - assert (Hs : sfInitStep bfc (mkSfSt fq q tr) x = mkSfSt fq q tr)
      by (unfold sfInitStep; by rewrite Hb).
    assert (Hc : canReach x = false) by (unfold canReach; by rewrite Hb).
    rewrite Hs, Hc.
    apply IH; try done. intros y Hy. apply Hfresh. by right.
Qed.

Lemma sfInit_inv nodes :
  validIterators o ->
  sfInv cl node_out nbc expl bfc (sfInit g o bfc nodes) /\
  sf_queue (sfInit g o bfc nodes) =
    sortBy (funcLess g) (List.filter canReach (order_nodes o nodes)).
Proof.
  intros [_ Hnodes]. unfold sfInit.
  destruct (sfInitStep_fold (order_nodes o nodes) (mkSfSt ∅ [] [])) as (_ & H1 & H2 & H3 & Hq).
  - rewrite Hnodes. apply NoDup_elements.
  - intros x _ Hx. by apply elem_of_nil in Hx.
  - done.
  - intros v [? Hv]. simpl in Hv. by rewrite lookup_empty in Hv.
  - intros v. simpl. rewrite lookup_empty.
    split; [intros [? ?]; done|intros Hv; by apply elem_of_nil in Hv].
  - constructor.
  - split; [|simpl; by rewrite Hq].
    clear Hq.
    unfold sfInv, sfSeen. simpl.
    split; [done|]. split; [intros v; rewrite (sortBy_perm _ _); apply H2|].
    split; [by rewrite (sortBy_perm _ _)|].
    split; [intros i e Hi; by rewrite lookup_nil in Hi|].
    split; [intros i v c Hi; by rewrite lookup_nil in Hi|].
    intros i e Hi; by rewrite lookup_nil in Hi.
Qed.

Lemma sfFinal nodes :
  validIterators o ->
  let st := sfLoop g cl node_out o nbc expl bfc (S (size bfc)) (sfInit g o bfc nodes) in
  sfInv cl node_out nbc expl bfc st /\
  sfSeen st = outputNodes (sf_trace st) /\
  sortBy (funcLess g) (List.filter canReach (order_nodes o nodes))
    `prefix_of` outputNodes (sf_trace st).
Proof.
  intros Ho st. destruct (sfInit_inv nodes Ho) as [Hinit Hq].
  destruct (sfLoop_inv g cl node_out o nbc expl bfc (S (size bfc)) _ Hinit) as [Hst Hpre].
  assert (Hempty : sf_queue st = []).
  { apply sfLoop_empties; [done|]. simpl. lia. }
  assert (Hseen : sfSeen st = outputNodes (sf_trace st)).
  { unfold sfSeen. rewrite Hempty. apply app_nil_r. }
  split; [done|]. split; [done|]. rewrite <- Hseen, <- Hq.
  unfold sfSeen at 1 in Hpre. done.
Qed.
End SearchForwardsResult.

Section SearchForwardsCaps.
Variable g : Graph.
Variable cl : Classifier.
Variable node_out : Node -> list Edge.
Variable o : MapOrder.
Variable nbc : gmap Capability (gset Node).
Variable expl : gset Node.
Variable bfc : gmap Node bfsState.

Local Abbreviation capsComplete := (capsComplete nbc).

Lemma sfCallSteps_prefix es : forall st prev,
  sf_trace st `prefix_of` sf_trace (foldl sfCallStep (st, prev) es).1.
Proof.
  induction es as [|e es IH]; intros st prev; cbn [foldl]; [done|].
  destruct (sfCallStep (st, prev) e) as [st' prev'] eqn:E.
  trans (sf_trace st'); [|apply IH].
  assert (Hst' : st' = (sfCallStep (st, prev) e).1) by (by rewrite E).
  rewrite Hst'. destruct (sfCallStep_cases st prev e) as [->| ->]; [done|].
  destruct (sf_fromQueries st !! Callee e); simpl; by apply prefix_app_r.
Qed.

Lemma lookupSet_key c v :
  v ∈ lookupSet nbc c -> c ∈ map fst (map_to_list nbc).
Proof.
  unfold lookupSet. destruct (nbc !! c) as [s|] eqn:Hc; simpl; [|set_solver].
  intros _. apply list_elem_of_In, (in_map fst (map_to_list nbc) (c, s)), list_elem_of_In.
  by apply elem_of_map_to_list.
Qed.

Lemma sfVisit_caps fq v q tr :
  validIterators o ->
  sfInv cl node_out nbc expl bfc (mkSfSt fq (v :: q) tr) -> capsComplete tr ->
  capsComplete (sf_trace (sfVisit g cl node_out o nbc expl bfc (mkSfSt fq q tr) v)).
Proof.
  intros [Hcaps _] Hst Hc.
  destruct (sfVisit_inv g cl node_out o nbc expl bfc fq v q tr Hst) as (_ & Hon & _).
  set (cs := List.filter (fun c => bool_decide (v ∈ lookupSet nbc c)) (order_caps o nbc)).
  set (tr1 := ((tr ++ [OutputNode fq v]) ++ map (fun c => OutputCapability v c) cs)%list).
  assert (Hpre : tr1 `prefix_of` sf_trace (sfVisit g cl node_out o nbc expl bfc (mkSfSt fq q tr) v)).
  { unfold sfVisit. simpl. fold cs. fold tr1.
    destruct (bool_decide (v ∈ expl)); [done|].
    apply (sfCallSteps_prefix _ (mkSfSt fq q tr1) None). }
  intros w c Hw Hwc. rewrite Hon in Hw.
  apply (elem_of_prefix tr1); [|done]. unfold tr1.
  apply elem_of_app in Hw as [Hw|Hw].
  - rewrite <- app_assoc. apply elem_of_app. left. by apply Hc.
  - apply list_elem_of_singleton in Hw as ->. apply elem_of_app. right.
    apply list_elem_of_In, (in_map (fun c => OutputCapability v c) cs c).
    unfold cs. apply List.filter_In. split.
    + apply list_elem_of_In. rewrite Hcaps. by apply (lookupSet_key c v).
    + by apply bool_decide_eq_true.
Qed.

Lemma sfLoop_caps fuel : forall st,
  validIterators o -> sfInv cl node_out nbc expl bfc st -> capsComplete (sf_trace st) ->
  capsComplete (sf_trace (sfLoop g cl node_out o nbc expl bfc fuel st)).
Proof.
  induction fuel as [|fuel IH]; intros [fq q tr] Ho Hst Hc; simpl; [done|].
  destruct q as [|v q]; [done|].
  destruct (sfVisit_inv g cl node_out o nbc expl bfc fq v q tr Hst) as (Hst' & _ & _).
  apply IH; [done|done|]. by apply sfVisit_caps.
Qed.

Lemma sfFinal_caps nodes :
  validIterators o ->
  capsComplete (searchForwardsFromQueriedFunctions g cl node_out o nbc expl bfc nodes).
Proof.
  intros Ho. unfold searchForwardsFromQueriedFunctions.
  apply sfLoop_caps; [done|by apply sfInit_inv|].
  intros v c Hv. unfold sfInit in Hv. simpl in Hv. by apply elem_of_nil in Hv.
Qed.
End SearchForwardsCaps.

Lemma reachesCapability_mono g cl safe expl nbc1 nbc2 v :
  (forall c, lookupSet nbc1 c ⊆ lookupSet nbc2 c) ->
  reachesCapability g cl safe expl nbc1 v -> reachesCapability g cl safe expl nbc2 v.
Proof.
  intros Hsub H. induction H as [c v Hv Hs|v e Hin Hinc Hs Hx _ IH].
  - apply (reaches_root _ _ _ _ _ c v); [by apply Hsub|done].
  - by eapply reaches_call.
Qed.

Lemma lookupSet_singleton_sub nbc c c' :
  lookupSet {[c := lookupSet nbc c]} c' ⊆ lookupSet nbc c'.
Proof.
  unfold lookupSet at 1. destruct (decide (c' = c)) as [->|Hne].
  - by rewrite lookup_singleton_eq.
  - rewrite lookup_singleton_ne by congruence. simpl. set_solver.
Qed.

Lemma lookupSet_singleton_key nbc c c' v :
  v ∈ lookupSet {[c := lookupSet nbc c]} c' -> c' = c.
Proof.
  unfold lookupSet at 1. destruct (decide (c' = c)) as [->|Hne]; [done|].
  rewrite lookup_singleton_ne by congruence. simpl. set_solver.
Qed.

(** What one [search] call outputs. *)
Lemma CapabilityGraph_search o g node_out queried cl safe expl nbc' tr :
  validIterators o ->
  capabilityGraphSearch o g node_out queried cl safe expl nbc' = Some tr ->
  (forall v, v ∈ outputNodes tr -> (v ∉ safe) /\ reachesCapability g cl safe expl nbc' v) /\
  (forall v c, OutputCapability v c ∈ tr -> v ∈ lookupSet nbc' c).
Proof.
  intros Ho Hs. unfold capabilityGraphSearch in Hs.
  destruct (canBeReachedFromQuery _ _ _ _) as [roots|]; [|done]. injection Hs as <-.
  split.
  - intros v Hv.
    destruct (sfFinal g cl node_out o nbc' expl
               (searchBackwardsFromCapabilities g cl safe expl o nbc') roots Ho)
      as ((H1 & H2 & _) & Hseen & _).
    unfold searchForwardsFromQueriedFunctions in Hv. rewrite <- Hseen in Hv.
    apply (sbReach_sound g cl safe expl nbc' o
             (S (List.length (sbInit safe o nbc').2 + List.length (graph_nodes g))) v Ho).
    by apply H1, H2.
  - intros v c Hin. apply list_elem_of_lookup_1 in Hin as [i Hi].
    destruct (sfFinal g cl node_out o nbc' expl
               (searchBackwardsFromCapabilities g cl safe expl o nbc') roots Ho)
      as ((_ & _ & _ & _ & H6 & _) & _ & _).
    by destruct (H6 i v c Hi).
Qed.

Lemma canonicalOrder_iterators g : validIterators (canonicalOrder g).
Proof. split; intros; reflexivity. Qed.

(** [searchBackwardsFromCapabilities]: every node it returns is not
    safe and reaches a node of some nodeset, through edges accepted by
    [IncludeCall] whose callers are neither safe nor explicitly
    classified. *)
Theorem searchBackwards_sound g cl safe expl nbc o v :
  validIterators o ->
  is_Some (searchBackwardsFromCapabilities g cl safe expl o nbc !! v) ->
  (v ∉ safe) /\ reachesCapability g cl safe expl nbc v.
Proof.
  intros Ho Hv. by apply (sbReach_sound g cl safe expl nbc o
                   (S (List.length (sbInit safe o nbc).2 + List.length (graph_nodes g))) v Ho).
Qed.

Lemma searchBackwards_sound_witness :
  validIterators exOrder /\ is_Some (exBfc !! 1) /\
  (1 ∉ exSafe) /\ reachesCapability exGraph exClassifier exSafe exExpl exNbc 1.
Proof.
  assert (Ho : validIterators exOrder) by apply canonicalOrder_iterators.
  assert (H1 : is_Some (exBfc !! 1)) by (vm_compute; by eexists).
  split; [exact Ho|]. split; [exact H1|].
  exact (searchBackwards_sound exGraph exClassifier exSafe exExpl exNbc exOrder 1 Ho H1).
Defined.

(** [searchForwardsFromQueriedFunctions]: [outputNode] is called at
    most once per node, and only for nodes of [bfsFromCapabilities]. *)
Theorem searchForwards_outputNode_once g cl node_out o nbc expl bfc nodes :
  validIterators o ->
  let tr := searchForwardsFromQueriedFunctions g cl node_out o nbc expl bfc nodes in
  NoDup (outputNodes tr) /\ forall v, v ∈ outputNodes tr -> is_Some (bfc !! v).
Proof.
  intros Ho tr. destruct (sfFinal g cl node_out o nbc expl bfc nodes Ho) as ((H1 & H2 & H3 & _) & Hseen & _).
  unfold tr, searchForwardsFromQueriedFunctions. rewrite <- Hseen.
  split; [done|]. intros v Hv. by apply H1, H2.
Qed.

Lemma searchForwards_outputNode_once_witness :
  validIterators exOrder /\
  NoDup (outputNodes exTrace) /\ forall v, v ∈ outputNodes exTrace -> is_Some (exBfc !! v).
Proof.
  assert (Ho : validIterators exOrder) by apply canonicalOrder_iterators.
  split; [exact Ho|].
  exact (searchForwards_outputNode_once exGraph exClassifier exNodeOut exOrder exNbc exExpl exBfc exRoots Ho).
Defined.

(** [searchForwardsFromQueriedFunctions]: the first calls of
    [outputNode] are for the given nodes that are in
    [bfsFromCapabilities], sorted [byFunction]. *)
Theorem searchForwards_roots_first g cl node_out o nbc expl bfc nodes :
  validIterators o ->
  sortBy (funcLess g) (List.filter (fun v => match bfc !! v with Some _ => true | None => false end)
                                   (order_nodes o nodes))
    `prefix_of` outputNodes (searchForwardsFromQueriedFunctions g cl node_out o nbc expl bfc nodes).
Proof.
  intros Ho. by destruct (sfFinal g cl node_out o nbc expl bfc nodes Ho) as (_ & _ & H).
Qed.

Lemma searchForwards_roots_first_witness :
  validIterators exOrder /\
  [5; 1; 6] `prefix_of` outputNodes exTrace.
Proof.
  assert (Ho : validIterators exOrder) by apply canonicalOrder_iterators.
  split; [exact Ho|].
  pose proof (searchForwards_roots_first exGraph exClassifier exNodeOut exOrder exNbc exExpl exBfc exRoots Ho) as H.
  vm_compute in H. exact H.
Defined.

(** [searchForwardsFromQueriedFunctions]: every edge passed to
    [outputCall] is accepted by [IncludeCall], its callee is passed to
    [outputNode], and it is an outgoing edge of a node that is not
    explicitly classified and was passed to [outputNode] before. *)
Theorem searchForwards_outputCall g cl node_out o nbc expl bfc nodes i e :
  validIterators o ->
  let tr := searchForwardsFromQueriedFunctions g cl node_out o nbc expl bfc nodes in
  tr !! i = Some (OutputCall e) ->
  IncludeCall cl e = true /\ Callee e ∈ outputNodes tr /\
  exists j fq v, j < i /\ tr !! j = Some (OutputNode fq v) /\
                 (v ∉ expl) /\ e ∈ node_out v.
Proof.
  intros Ho tr Hi. destruct (sfFinal g cl node_out o nbc expl bfc nodes Ho) as ((_ & _ & _ & H5 & _ & H7) & Hseen & _).
  unfold tr, searchForwardsFromQueriedFunctions in *. rewrite <- Hseen.
  destruct (H5 i e Hi) as (? & _ & ?). split; [done|]. split; [|done]. by apply (H7 i).
Qed.

Lemma searchForwards_outputCall_witness :
  validIterators exOrder /\ exTrace !! 1 = Some (OutputCall (mkEdge 5 3 30)) /\
  IncludeCall exClassifier (mkEdge 5 3 30) = true /\ Callee (mkEdge 5 3 30) ∈ outputNodes exTrace /\
  exists j fq v, j < 1 /\ exTrace !! j = Some (OutputNode fq v) /\
                 (v ∉ exExpl) /\ mkEdge 5 3 30 ∈ exNodeOut v.
Proof.
  assert (Ho : validIterators exOrder) by apply canonicalOrder_iterators.
  assert (Hi : exTrace !! 1 = Some (OutputCall (mkEdge 5 3 30))) by (vm_compute; reflexivity).
  split; [exact Ho|]. split; [exact Hi|].
  exact (searchForwards_outputCall exGraph exClassifier exNodeOut exOrder exNbc exExpl exBfc exRoots 1 _ Ho Hi).
Defined.

(** [searchForwardsFromQueriedFunctions]: every call
    [outputCapability(v, c)] has [v] in the nodeset of [c] and comes
    after [outputNode(v)]. *)
Theorem searchForwards_outputCapability g cl node_out o nbc expl bfc nodes i v c :
  validIterators o ->
  let tr := searchForwardsFromQueriedFunctions g cl node_out o nbc expl bfc nodes in
  tr !! i = Some (OutputCapability v c) ->
  v ∈ lookupSet nbc c /\ exists j fq, j < i /\ tr !! j = Some (OutputNode fq v).
Proof.
  intros Ho tr Hi. destruct (sfFinal g cl node_out o nbc expl bfc nodes Ho) as ((_ & _ & _ & _ & H6 & _) & _ & _).
  by apply (H6 i).
Qed.

Lemma searchForwards_outputCapability_witness :
  validIterators exOrder /\ exTrace !! 7 = Some (OutputCapability 3 CAPABILITY_FILES) /\
  3 ∈ lookupSet exNbc CAPABILITY_FILES /\
  exists j fq, j < 7 /\ exTrace !! j = Some (OutputNode fq 3).
Proof.
  assert (Ho : validIterators exOrder) by apply canonicalOrder_iterators.
  assert (Hi : exTrace !! 7 = Some (OutputCapability 3 CAPABILITY_FILES)) by (vm_compute; reflexivity).
  split; [exact Ho|]. split; [exact Hi|].
  exact (searchForwards_outputCapability exGraph exClassifier exNodeOut exOrder exNbc exExpl exBfc exRoots 7 3 CAPABILITY_FILES Ho Hi).
Defined.

(** [searchForwardsFromQueriedFunctions]: every node passed to
    [outputNode] is passed to [outputCapability] with each capability
    whose nodeset holds it. *)
Theorem searchForwards_outputCapability_complete g cl node_out o nbc expl bfc nodes v c :
  validIterators o ->
  let tr := searchForwardsFromQueriedFunctions g cl node_out o nbc expl bfc nodes in
  v ∈ outputNodes tr -> v ∈ lookupSet nbc c -> OutputCapability v c ∈ tr.
Proof. intros Ho tr. by apply sfFinal_caps. Qed.

Lemma searchForwards_outputCapability_complete_witness :
  validIterators exOrder /\ 6 ∈ outputNodes exTrace /\
  6 ∈ lookupSet exNbc CAPABILITY_ARBITRARY_EXECUTION /\
  OutputCapability 6 CAPABILITY_ARBITRARY_EXECUTION ∈ exTrace.
Proof.
  assert (Ho : validIterators exOrder) by apply canonicalOrder_iterators.
  assert (Hv : 6 ∈ outputNodes exTrace) by by_computation.
  assert (Hc : 6 ∈ lookupSet exNbc CAPABILITY_ARBITRARY_EXECUTION) by by_computation.
  split; [exact Ho|]. split; [exact Hv|]. split; [exact Hc|].
  exact (searchForwards_outputCapability_complete exGraph exClassifier exNodeOut exOrder exNbc exExpl exBfc exRoots 6 _ Ho Hv Hc).
Defined.

(** [CapabilityGraph], with or without a filter: when it does not
    panic, every node passed to [outputNode] is not safe and reaches a
    node of the merged nodesets, through edges accepted by
    [IncludeCall] whose callers are neither safe nor explicitly
    classified. *)
Theorem CapabilityGraph_nodes o g node_out reflectFns unsafeFns queried cfg filter tr v :
  validIterators o ->
  CapabilityGraph_in o g node_out reflectFns unsafeFns queried cfg filter = Some tr ->
  v ∈ outputNodes tr ->
  let '(safe, nbc, expl) := classifyAndMerge_in o g reflectFns unsafeFns cfg in
  (v ∉ safe) /\ reachesCapability g (cfg_Classifier cfg) safe expl nbc v.
Proof.
  intros Ho. unfold CapabilityGraph_in.
  destruct (classifyAndMerge_in o g reflectFns unsafeFns cfg) as [[safe nbc] expl].
  destruct filter as [f|].
  - revert tr. set (P := fun acc : option (list GraphEvent) => forall tr, acc = Some tr ->
      v ∈ outputNodes tr -> (v ∉ safe) /\ reachesCapability g (cfg_Classifier cfg) safe expl nbc v).
    apply (foldl_invariant P).
    + intros acc c _ Hacc tr Htr Hv. destruct acc as [tr0|]; [|done].
      revert Htr. destruct (f c); [|intros Htr; injection Htr as <-; by apply (Hacc tr0)].
      destruct (capabilityGraphSearch o g node_out queried (cfg_Classifier cfg) safe expl
                  {[c := lookupSet nbc c]}) as [tr'|] eqn:Hs; [|done]. intros Htr.
      injection Htr as <-. rewrite outputNodes_app, elem_of_app in Hv.
      destruct Hv as [Hv|Hv]; [by apply (Hacc tr0)|].
      destruct (CapabilityGraph_search o g node_out queried (cfg_Classifier cfg) safe expl
                  {[c := lookupSet nbc c]} tr' Ho Hs) as [Hn _].
      destruct (Hn v Hv) as [? HR]. split; [done|].
      eapply reachesCapability_mono; [|done]. intros c'. apply lookupSet_singleton_sub.
    + intros tr Htr. injection Htr as <-. simpl. intros Hv. by apply elem_of_nil in Hv.
  - intros Hs Hv. by apply (CapabilityGraph_search o g node_out queried _ _ _ nbc tr Ho Hs).
Qed.

Lemma CapabilityGraph_nodes_witness :
  validIterators exOrder /\
  CapabilityGraph_in exOrder exGraph exNodeOut ∅ ∅ exQueried exConfig None = Some exTrace /\
  2 ∈ outputNodes exTrace /\
  (2 ∉ exSafe) /\ reachesCapability exGraph exClassifier exSafe exExpl exNbc 2.
Proof.
  assert (Ho : validIterators exOrder) by apply canonicalOrder_iterators.
  assert (Hs : CapabilityGraph_in exOrder exGraph exNodeOut ∅ ∅ exQueried exConfig None = Some exTrace)
    by (vm_compute; reflexivity).
  assert (Hv : 2 ∈ outputNodes exTrace) by by_computation.
  split; [exact Ho|]. split; [exact Hs|]. split; [exact Hv|].
  exact (CapabilityGraph_nodes exOrder exGraph exNodeOut ∅ ∅ exQueried exConfig None exTrace 2 Ho Hs Hv).
Defined.

(** [CapabilityGraph] with a filter: [outputCapability(v, c)] is only
    called for capabilities [c] the filter accepts, with [v] in the
    merged nodeset of [c]. *)
Theorem CapabilityGraph_filter o g node_out reflectFns unsafeFns queried cfg f tr v c :
  validIterators o ->
  CapabilityGraph_in o g node_out reflectFns unsafeFns queried cfg (Some f) = Some tr ->
  OutputCapability v c ∈ tr ->
  f c = true /\ v ∈ lookupSet (classifyAndMerge_in o g reflectFns unsafeFns cfg).1.2 c.
Proof.
  intros Ho. unfold CapabilityGraph_in.
  destruct (classifyAndMerge_in o g reflectFns unsafeFns cfg) as [[safe nbc] expl]. simpl.
  revert tr. set (P := fun acc : option (list GraphEvent) => forall tr, acc = Some tr ->
      OutputCapability v c ∈ tr -> f c = true /\ v ∈ lookupSet nbc c).
  apply (foldl_invariant P).
  - intros acc c0 _ Hacc tr Htr Hv. destruct acc as [tr0|]; [|done].
    revert Htr. destruct (f c0) eqn:Hf; [|intros Htr; injection Htr as <-; by apply (Hacc tr0)].
    destruct (capabilityGraphSearch o g node_out queried (cfg_Classifier cfg) safe expl
                {[c0 := lookupSet nbc c0]}) as [tr'|] eqn:Hs; [|done]. intros Htr.
    injection Htr as <-. apply elem_of_app in Hv as [Hv|Hv]; [by apply (Hacc tr0)|].
    destruct (CapabilityGraph_search o g node_out queried (cfg_Classifier cfg) safe expl
                {[c0 := lookupSet nbc c0]} tr' Ho Hs) as [_ Hc].
    specialize (Hc v c Hv). pose proof (lookupSet_singleton_key nbc c0 c v Hc) as ->.
    split; [done|]. by apply lookupSet_singleton_sub in Hc.
  - intros tr Htr. injection Htr as <-. intros Hv. by apply elem_of_nil in Hv.
Qed.

Lemma CapabilityGraph_filter_witness :
  let f := fun c => bool_decide (c = CAPABILITY_FILES) in
  let tr := default [] (CapabilityGraph_in exOrder exGraph exNodeOut ∅ ∅ exQueried exConfig (Some f)) in
  validIterators exOrder /\
  CapabilityGraph_in exOrder exGraph exNodeOut ∅ ∅ exQueried exConfig (Some f) = Some tr /\
  OutputCapability 3 CAPABILITY_FILES ∈ tr /\
  f CAPABILITY_FILES = true /\ 3 ∈ lookupSet exNbc CAPABILITY_FILES.
Proof.
  intros f tr.
  assert (Ho : validIterators exOrder) by apply canonicalOrder_iterators.
  assert (Hs : CapabilityGraph_in exOrder exGraph exNodeOut ∅ ∅ exQueried exConfig (Some f) = Some tr)
    by (vm_compute; reflexivity).
  assert (Hv : OutputCapability 3 CAPABILITY_FILES ∈ tr) by (vm_compute; by repeat constructor).
  split; [exact Ho|]. split; [exact Hs|]. split; [exact Hv|].
  exact (CapabilityGraph_filter exOrder exGraph exNodeOut ∅ ∅ exQueried exConfig f tr 3 _ Ho Hs Hv).
Defined.

(** ** Properties of [intermediatePackages] *)

Lemma searchBackwards_callerKeyed g cl safe expl o nbc fuel :
  callerKeyed cl (searchBackwardsFromCapabilities_fuel g cl safe expl fuel o nbc).
Proof.
  unfold searchBackwardsFromCapabilities_fuel.
  set (P := fun st : gmap Node bfsState * list Node => callerKeyed cl st.1).
  assert (Hinit : P (sbInit safe o nbc)).
  { unfold sbInit. apply (foldl_invariant P); [|unfold P; intros v e; simpl; by rewrite lookup_empty].
    intros st c _ Hst. apply (foldl_invariant P); [|done].
    intros st' v _ Hst'. case_bool_decide; [done|].
    intros w e. unfold P in Hst'. simpl.
    destruct (decide (w = v)) as [->|Hne]; [by rewrite lookup_insert_eq|].
    rewrite lookup_insert_ne by congruence. apply Hst'. }
  assert (Hloop : forall fuel st, P st -> P (sbLoop g cl safe expl fuel st)).
  { induction fuel0 as [|fuel0 IH]; intros [vis q] Hst; simpl; [done|].
    destruct q as [|v q]; [done|]. apply IH.
    apply (foldl_invariant P); [|done].
    intros st e He Hm. apply sbIncomingEdges_spec in He as (_ & Hinc & _ & _).
    unfold sbVisitEdge. destruct (st.1 !! Caller e); [done|].
    intros w e'. simpl. destruct (decide (w = Caller e)) as [->|Hne].
    - rewrite lookup_insert_eq. intros [= <-]. done.
    - rewrite lookup_insert_ne by congruence. apply Hm. }
  apply (Hloop fuel (_, _)). exact Hinit.
Qed.

Section ForwardSnapshots.
Variable g : Graph.
Variable cl : Classifier.
Variable node_out : Node -> list Edge.
Variable o : MapOrder.
Variable nbc : gmap Capability (gset Node).
Variable expl : gset Node.
Variable bfc : gmap Node bfsState.

Local Abbreviation snapInv := (snapInv cl).

Lemma sfVisit_snapInv st v : snapInv st -> snapInv (sfVisit g cl node_out o nbc expl bfc st v).
Proof.
  intros [H1 H2]. unfold sfVisit.
  assert (Hmid : snapInv (mkSfSt (sf_fromQueries st) (sf_queue st)
            ((sf_trace st ++ [OutputNode (sf_fromQueries st) v]) ++
             map (fun c => OutputCapability v c)
               (List.filter (fun c => bool_decide (v ∈ lookupSet nbc c)) (order_caps o nbc)))%list)).
  { split; [done|]. simpl. intros fq w Hin.
    rewrite !elem_of_app in Hin. destruct Hin as [[Hin|Hin]|Hin].
    - by apply (H2 fq w).
    - apply list_elem_of_singleton in Hin. by injection Hin as -> ->.
    - apply list_elem_of_In, in_map_iff in Hin as (c & Hc & _). discriminate. }
  case_bool_decide; [done|].
  set (P := fun stp : SfSt * option Node => snapInv stp.1).
  match goal with |- snapInv (foldl ?f ?a ?l).1 => change (P (foldl f a l)) end.
  apply (foldl_invariant P); [|done].
  intros [st' prev] e He [Hf Ht]. apply sfOutgoingEdges_spec in He as (_ & Hinc & _).
  unfold P. simpl.
  assert (Htr : forall fq w, OutputNode fq w ∈ (sf_trace st' ++ [OutputCall e])%list ->
                 calleeKeyed cl fq).
  { intros fq w Hin. apply elem_of_app in Hin as [Hin|Hin]; [by apply (Ht fq w)|].
    apply list_elem_of_singleton in Hin. discriminate. }
  destruct (match prev with Some c => bool_decide (Callee e = c) | None => false end); [split; done|].
  destruct (sf_fromQueries st' !! Callee e) eqn:E; split; simpl; try done.
  intros w e'. destruct (decide (w = Callee e)) as [->|Hne].
  - rewrite lookup_insert_eq. intros [= <-]. done.
  - rewrite lookup_insert_ne by congruence. apply Hf.
Qed.

Lemma sfLoop_snapInv fuel : forall st, snapInv st ->
  snapInv (sfLoop g cl node_out o nbc expl bfc fuel st).
Proof.
  induction fuel as [|fuel IH]; intros st Hst; simpl; [done|].
  destruct (sf_queue st) as [|v q]; [done|]. apply IH, sfVisit_snapInv.
  destruct Hst as [H1 H2]. by split.
Qed.

Lemma sfInit_snapInv nodes : snapInv (sfInit g o bfc nodes).
Proof.
  unfold sfInit.
  assert (H : calleeKeyed cl (sf_fromQueries (foldl (sfInitStep bfc) (mkSfSt ∅ [] []) (order_nodes o nodes)))).
  { apply (foldl_invariant (fun st => calleeKeyed cl (sf_fromQueries st)));
      [|intros v e; simpl; by rewrite lookup_empty].
    intros st v _ Hst. unfold sfInitStep. destruct (bfc !! v); [|done].
    intros w e. simpl. destruct (decide (w = v)) as [->|Hne]; [by rewrite lookup_insert_eq|].
    rewrite lookup_insert_ne by congruence. apply Hst. }
  split; [done|]. simpl. intros fq v Hin. by apply elem_of_nil in Hin.
Qed.

Lemma searchForwards_snapshots nodes fq v :
  OutputNode fq v ∈ searchForwardsFromQueriedFunctions g cl node_out o nbc expl bfc nodes ->
  calleeKeyed cl fq.
Proof.
  unfold searchForwardsFromQueriedFunctions.
  destruct (sfLoop_snapInv (S (size bfc)) _ (sfInit_snapInv nodes)) as [_ H]. apply H.
Qed.
End ForwardSnapshots.

Lemma outputNode_elem tr fq v : OutputNode fq v ∈ tr -> v ∈ outputNodes tr.
Proof.
  induction tr as [|ev tr IH]; intros Hin; [by apply elem_of_nil in Hin|].
  apply elem_of_cons in Hin as [<-|Hin]; simpl; [left|].
  destruct ev; [right|..]; by apply IH.
Qed.

Lemma capabilityGraphSearch_snapshots o g node_out queried cl safe expl ns tr fq v :
  capabilityGraphSearch o g node_out queried cl safe expl ns = Some tr ->
  OutputNode fq v ∈ tr -> calleeKeyed cl fq.
Proof.
  unfold capabilityGraphSearch. destruct (canBeReachedFromQuery _ _ _ _) as [roots|]; [|done].
  intros [= <-]. apply searchForwards_snapshots.
Qed.

Lemma edgeChain_cons cl a l :
  edgeChain cl (a :: l) <->
  (match l with
   | [] => True
   | b :: _ => exists e, b.2 = Some e /\ Caller e = a.1 /\ Callee e = b.1 /\ IncludeCall cl e = true
   end) /\ edgeChain cl l.
Proof. destruct l; simpl; tauto. Qed.

Lemma edgeChain_snoc cl l a b :
  edgeChain cl l -> last l = Some a ->
  (exists e, b.2 = Some e /\ Caller e = a.1 /\ Callee e = b.1 /\ IncludeCall cl e = true) ->
  edgeChain cl (l ++ [b]).
Proof.
  induction l as [|x l IH]; intros Hc Hl Hab; [done|].
  destruct l as [|y l].
  - simpl in Hl. injection Hl as ->. simpl. done.
  - apply edgeChain_cons in Hc as [Hxy Hc]. simpl app. apply edgeChain_cons. split; [done|].
    apply IH; [done| |done]. by rewrite last_cons_cons in Hl.
Qed.

Lemma reverse_head_last {A} (l : list A) :
  match reverse l with [] => l = [] | b :: _ => last l = Some b end.
Proof.
  destruct (reverse l) as [|b l'] eqn:E.
  - by apply (f_equal reverse) in E; rewrite reverse_involutive in E.
  - apply (f_equal reverse) in E. rewrite reverse_involutive, reverse_cons in E. subst.
    apply last_snoc.
Qed.

Section PathLoops.
Variable cl : Classifier.

Lemma queryPathLoop_chain fq node fuel : calleeKeyed cl fq ->
  forall path v,
  edgeChain cl (reverse path) ->
  match path with [] => v = node | a :: _ => a.1 = node end ->
  (forall a, last path = Some a ->
     exists e, a.2 = Some e /\ Caller e = v /\ Callee e = a.1 /\ IncludeCall cl e = true) ->
  let r := queryPathLoop fuel fq path v in
  edgeChain cl (reverse r) /\ match r with [] => path = [] | a :: _ => a.1 = node end.
Proof.
  intros Hfq. induction fuel as [|fuel IH]; intros path v Hc Hh Hl; simpl.
  - split; [done|]. by destruct path.
  - assert (Hc' : edgeChain cl (reverse (path ++ [(v, bfsEdge (fq !! v))]))).
    { rewrite reverse_snoc. apply edgeChain_cons. split; [|done].
      pose proof (reverse_head_last path) as Hr.
      destruct (reverse path) as [|b l']; [done|]. by apply Hl. }
    assert (Hh' : match (path ++ [(v, bfsEdge (fq !! v))])%list with
                  | [] => False | a :: _ => a.1 = node end).
    { destruct path; simpl; done. }
    destruct (bfsEdge (fq !! v)) as [e|] eqn:He.
    + destruct (IH (path ++ [(v, Some e)])%list (Caller e) Hc') as [IH1 IH2].
      * destruct (path ++ [(v, Some e)])%list; [done|]. done.
      * intros a Ha. rewrite last_snoc in Ha. injection Ha as <-.
        exists e. simpl. unfold bfsEdge in He.
        destruct (fq !! v) as [[e'|]|] eqn:Ev; try discriminate. injection He as ->.
        destruct (Hfq v e Ev). done.
      * split; [done|]. destruct (queryPathLoop fuel fq (path ++ [(v, Some e)]) (Caller e)).
        -- subst. destruct path; discriminate.
        -- done.
    + split; [done|]. destruct (path ++ [(v, None)])%list; done.
Qed.

Lemma capabilityPathLoop_chain bfc fuel : callerKeyed cl bfc ->
  forall path v,
  edgeChain cl path -> (exists x, last path = Some (v, x)) ->
  let r := capabilityPathLoop fuel bfc path v in
  edgeChain cl r /\ path `prefix_of` r.
Proof.
  intros Hb. induction fuel as [|fuel IH]; intros path v Hc [x Hl]; simpl; [done|].
  destruct (bfsEdge (bfc !! v)) as [e|] eqn:He; [|done].
  unfold bfsEdge in He. destruct (bfc !! v) as [[e'|]|] eqn:Ev; try discriminate.
  injection He as ->. destruct (Hb v e Ev) as [Hce Hinc].
  destruct (IH (path ++ [(Callee e, Some e)])%list (Callee e)) as [IH1 IH2].
  - eapply edgeChain_snoc; [done|done|]. exists e. simpl. done.
  - exists (Some e). apply last_snoc.
  - split; [done|]. etrans; [|exact IH2]. by apply prefix_app_r.
Qed.

Lemma queryPathLoop_prefix fq fuel : forall path v, path `prefix_of` queryPathLoop fuel fq path v.
Proof.
  induction fuel as [|fuel IH]; intros path v; simpl; [done|].
  destruct (bfsEdge (fq !! v)); [|by apply prefix_app_r].
  etrans; [|apply IH]. by apply prefix_app_r.
Qed.

Lemma queryPathLoop_first fq n node :
  exists e0 r', queryPathLoop (S n) fq [] node = (node, e0) :: r'.
Proof.
  simpl. destruct (bfsEdge (fq !! node)) as [e|]; [|by eexists _, []].
  destruct (queryPathLoop_prefix fq n [(node, Some e)] (Caller e)) as [k Hk].
  rewrite Hk. by eexists _, k.
Qed.

Lemma intermediatePath_spec fq bfc node n1 n2 :
  calleeKeyed cl fq -> callerKeyed cl bfc ->
  let p := capabilityPathLoop (S n2) bfc (reverse (queryPathLoop (S n1) fq [] node)) node in
  p <> [] /\ edgeChain cl p /\ exists e, (node, e) ∈ p.
Proof.
  intros Hfq Hb p.
  destruct (queryPathLoop_chain fq node (S n1) Hfq [] node) as [Hq1 _]; [done|done|done|].
  destruct (queryPathLoop_first fq n1 node) as (e0 & r' & Er).
  unfold p in *. rewrite Er in Hq1 |- *. rewrite reverse_cons in Hq1 |- *.
  destruct (capabilityPathLoop_chain bfc (S n2) Hb (reverse r' ++ [(node, e0)])%list node)
    as [Hp1 [k Hk]]; [done|exists e0; apply last_snoc|].
  rewrite Hk. split_and!; [|by rewrite <- Hk|exists e0; set_solver].
  destruct (reverse r'); simpl; done.
Qed.
End PathLoops.

Lemma outputNodes_elem tr v : v ∈ outputNodes tr -> exists fq, OutputNode fq v ∈ tr.
Proof.
  induction tr as [|ev tr IH]; intros H; simpl in H; [by apply elem_of_nil in H|].
  destruct ev as [fq w| |]; [apply elem_of_cons in H as [->|H]; [exists fq; left|]|..];
    destruct (IH H) as [fq' Hfq']; exists fq'; by right.
Qed.

Lemma foldl_none {A B} (f : option A -> B -> option A) (l : list B) :
  (forall x, f None x = None) -> foldl f None l = None.
Proof. intros Hf. induction l as [|x l IH]; simpl; [done|]. by rewrite Hf. Qed.

Lemma intermediateLess_irrefl a : intermediateLess a a = false.
Proof.
  unfold intermediateLess. rewrite Nat.eqb_refl. simpl.
  by rewrite (CmpOrder_refl String.compare _ string_CmpOrder).
Qed.

Lemma intermediateLess_true a b :
  intermediateLess a b = true <->
  Capability_enum (ci_capability a) < Capability_enum (ci_capability b) \/
  (Capability_enum (ci_capability a) = Capability_enum (ci_capability b) /\
   String.compare (ci_packageDir a) (ci_packageDir b) = Lt).
Proof.
  unfold intermediateLess.
  destruct (Nat.eqb_spec (Capability_enum (ci_capability a)) (Capability_enum (ci_capability b)))
    as [E|E]; simpl.
  - destruct (String.compare _ _); split; intros H; try (right; split; done); try done;
      destruct H as [H|[_ H]]; (lia || done).
  - rewrite Nat.ltb_lt. split; [by left|]. intros [H|[H _]]; [done|done].
Qed.

Lemma intermediateLess_trans a b c :
  intermediateLess a b = true -> intermediateLess b c = true -> intermediateLess a c = true.
Proof.
  rewrite !intermediateLess_true. destruct string_CmpOrder as (_ & _ & Ht).
  intros [H1|[H1 H1']] [H2|[H2 H2']]; [left; lia|left; lia|left; lia|].
  right. split; [lia|]. eauto.
Qed.

Lemma intermediateLess_total a b :
  (ci_capability a, ci_packageDir a) <> (ci_capability b, ci_packageDir b) ->
  intermediateLess a b = true \/ intermediateLess b a = true.
Proof.
  intros Hne. rewrite !intermediateLess_true.
  destruct string_CmpOrder as (He & Ha & _).
  destruct (Nat.lt_total (Capability_enum (ci_capability a)) (Capability_enum (ci_capability b)))
    as [H|[H|H]]; [by left; left| |by right; left].
  pose proof (Capability_enum_inj _ _ H) as Hc.
  destruct (String.compare (ci_packageDir a) (ci_packageDir b)) eqn:E.
  - apply He in E. congruence.
  - left. by right.
  - right. right. split; [lia|]. by rewrite Ha, E.
Qed.

Lemma StronglySorted_NoDup_map {A B} (R : A -> A -> Prop) (f : A -> B) l :
  StronglySorted R l -> (forall a b, R a b -> f a <> f b) -> NoDup (map f l).
Proof.
  intros Hs Hf. induction Hs as [|a l Hs IH Ha]; simpl; constructor; [|done].
  intros Hin. apply list_elem_of_In, in_map_iff in Hin as (b & Hb & Hbl).
  apply list_elem_of_In in Hbl. rewrite Forall_forall in Ha.
  by apply (Hf a b (Ha b Hbl)).
Qed.

Section IntermediateProofs.
Variable nodeToPackage : Node -> option (string * string).
Variable Has : Capability -> bool.

Local Abbreviation iEvent := (intermediateEvent nodeToPackage).
Local Abbreviation iSeen := (intermediateSeen nodeToPackage Has).

Lemma intermediateEvent_keyed omit c bfc seen ev :
  seenKeyed seen -> seenKeyed (iEvent omit c bfc seen ev).
Proof.
  intros Hs. destruct ev as [fq v| |]; try done. simpl. unfold intermediateNodeCallback.
  destruct (nodeToPackage v) as [[p n]|]; [|done]. destruct (seen !! (p, c)); [done|].
  intros k ci. destruct (decide (k = (p, c))) as [->|Hne].
  - rewrite lookup_insert_eq. by intros [= <-].
  - rewrite lookup_insert_ne by congruence. apply Hs.
Qed.

Lemma intermediateSeen_keyed o g node_out reflectFns unsafeFns queried cfg seen :
  iSeen o g node_out reflectFns unsafeFns queried cfg = Some seen -> seenKeyed seen.
Proof.
  unfold intermediateSeen.
  destruct (classifyAndMerge_in o g reflectFns unsafeFns cfg) as [[safe nbc] expl].
  revert seen. set (P := fun acc : option (gmap (string * Capability) CapabilityInfo) =>
    forall seen, acc = Some seen -> seenKeyed seen).
  apply (foldl_invariant P); [|intros seen [= <-] k ci; by rewrite lookup_empty].
  intros acc c _ Hacc seen. destruct acc as [s|]; [|done].
  destruct (Has c); [|by apply Hacc].
  destruct (capabilityGraphSearch _ _ _ _ _ _ _ _) as [tr|]; [|done]. intros [= <-].
  apply (foldl_invariant seenKeyed); [|by apply Hacc].
  intros m ev _ Hm. by apply intermediateEvent_keyed.
Qed.

Section Ok.
Variable g : Graph.
Variable cl : Classifier.
Variables safe expl : gset Node.
Variable nbc : gmap Capability (gset Node).
Variable omit : bool.

Local Abbreviation seenOk := (seenOk nodeToPackage Has g cl safe expl nbc omit).

Lemma intermediateEvent_ok c bfc seen ev :
  Has c = true -> is_Some (nbc !! c) -> callerKeyed cl bfc ->
  (forall fq v, ev = OutputNode fq v ->
     calleeKeyed cl fq /\ (v ∉ safe) /\
     reachesCapability g cl safe expl {[c := lookupSet nbc c]} v) ->
  seenOk seen -> seenOk (iEvent omit c bfc seen ev).
Proof.
  intros Hc Hnbc Hb Hev Hs. destruct ev as [fq v| |]; try done.
  destruct (Hev fq v eq_refl) as (Hfq & Hsafe & Hreach). simpl. unfold intermediateNodeCallback.
  destruct (nodeToPackage v) as [[p n]|] eqn:Hp; [|done]. destruct (seen !! (p, c)); [done|].
  intros k ci. destruct (decide (k = (p, c))) as [->|Hne].
  - rewrite lookup_insert_eq. intros [= <-]. simpl. split_and!; [done|done| |].
    + exists v. split_and!; [done|done|done|]. intros ->.
      by destruct (intermediatePath_spec cl fq bfc v (size fq) (size bfc) Hfq Hb) as (_ & _ & ?).
    + destruct omit; [done|].
      by destruct (intermediatePath_spec cl fq bfc v (size fq) (size bfc) Hfq Hb) as (? & ? & _).
  - rewrite lookup_insert_ne by congruence. apply Hs.
Qed.
End Ok.

Lemma intermediateSeen_ok o g node_out reflectFns unsafeFns queried cfg seen :
  validIterators o ->
  iSeen o g node_out reflectFns unsafeFns queried cfg = Some seen ->
  let '(safe, nbc, expl) := classifyAndMerge_in o g reflectFns unsafeFns cfg in
  seenOk nodeToPackage Has g (cfg_Classifier cfg) safe expl nbc (cfg_OmitPaths cfg) seen.
Proof.
  intros Ho. unfold intermediateSeen.
  destruct (classifyAndMerge_in o g reflectFns unsafeFns cfg) as [[safe nbc] expl].
  revert seen. set (P := fun acc : option (gmap (string * Capability) CapabilityInfo) =>
    forall seen, acc = Some seen -> seenOk nodeToPackage Has g (cfg_Classifier cfg) safe expl nbc (cfg_OmitPaths cfg) seen).
  apply (foldl_invariant P); [|intros seen [= <-] k ci; by rewrite lookup_empty].
  intros acc c Hcin Hacc seen. destruct acc as [s|]; [|done].
  destruct (Has c) eqn:Hc; [|by apply Hacc].
  destruct (capabilityGraphSearch o g node_out queried (cfg_Classifier cfg) safe expl
              {[c := lookupSet nbc c]}) as [tr|] eqn:Hs; [|done]. intros [= <-].
  destruct (CapabilityGraph_search o g node_out queried (cfg_Classifier cfg) safe expl
              {[c := lookupSet nbc c]} tr Ho Hs) as [Hn _].
  apply (foldl_invariant (seenOk nodeToPackage Has g (cfg_Classifier cfg) safe expl nbc (cfg_OmitPaths cfg)));
    [|by apply Hacc].
  intros m ev Hev Hm. apply intermediateEvent_ok; try done.
  - by apply (order_caps_elem o nbc c Ho).
  - apply searchBackwards_callerKeyed.
  - intros fq v ->. split; [by apply (capabilityGraphSearch_snapshots _ _ _ _ _ _ _ _ _ fq v Hs)|].
    apply Hn. by apply (outputNode_elem _ fq).
Qed.

Lemma intermediateEvent_mono omit c bfc seen ev k x :
  seen !! k = Some x -> iEvent omit c bfc seen ev !! k = Some x.
Proof.
  intros Hk. destruct ev as [fq v| |]; try done. simpl. unfold intermediateNodeCallback.
  destruct (nodeToPackage v) as [[p n]|]; [|done]. destruct (seen !! (p, c)) eqn:E; [done|].
  rewrite lookup_insert_ne; [done|]. intros <-. congruence.
Qed.

Lemma intermediateEvents_mono omit c bfc tr : forall seen k,
  is_Some (seen !! k) -> is_Some (foldl (iEvent omit c bfc) seen tr !! k).
Proof.
  induction tr as [|ev tr IH]; intros seen k [x Hx]; simpl; [eauto|].
  apply IH. exists x. by apply intermediateEvent_mono.
Qed.

Lemma intermediateEvents_adds omit c bfc tr fq v p n : forall seen,
  OutputNode fq v ∈ tr -> nodeToPackage v = Some (p, n) ->
  is_Some (foldl (iEvent omit c bfc) seen tr !! (p, c)).
Proof.
  induction tr as [|ev tr IH]; intros seen Hin Hp; [by apply elem_of_nil in Hin|].
  simpl. apply elem_of_cons in Hin as [<-|Hin]; [|by apply IH].
  apply intermediateEvents_mono. simpl. unfold intermediateNodeCallback. rewrite Hp.
  destruct (seen !! (p, c)) eqn:E; [by eexists|]. rewrite lookup_insert_eq. by eexists.
Qed.

Lemma intermediateSeen_complete o g node_out reflectFns unsafeFns queried cfg seen :
  validIterators o ->
  iSeen o g node_out reflectFns unsafeFns queried cfg = Some seen ->
  let '(safe, nbc, expl) := classifyAndMerge_in o g reflectFns unsafeFns cfg in
  forall c tr v p n, is_Some (nbc !! c) -> Has c = true ->
  capabilityGraphSearch o g node_out queried (cfg_Classifier cfg) safe expl
    {[c := lookupSet nbc c]} = Some tr ->
  v ∈ outputNodes tr -> nodeToPackage v = Some (p, n) ->
  is_Some (seen !! (p, c)).
Proof.
  intros Ho. unfold intermediateSeen.
  destruct (classifyAndMerge_in o g reflectFns unsafeFns cfg) as [[safe nbc] expl].
  intros Hseen c tr v p n Hnbc Hc Hs Hv Hp.
  apply (order_caps_elem o nbc c Ho), list_elem_of_split in Hnbc as (l1 & l2 & Hl).
  match type of Hseen with foldl ?F ?a0 _ = _ => set (F0 := F) in Hseen end.
  rewrite Hl, foldl_app in Hseen. cbn [foldl] in Hseen.
  assert (Hn : forall x, F0 None x = None) by done.
  destruct (foldl F0 _ l1) as [s1|]; [|by rewrite Hn, foldl_none in Hseen].
  unfold F0 at 2 in Hseen. cbn beta iota in Hseen. rewrite Hc, Hs in Hseen. revert Hseen.
  destruct (outputNodes_elem tr v Hv) as [fq Hfq].
  pose proof (intermediateEvents_adds (cfg_OmitPaths cfg) c
    (searchBackwardsFromCapabilities g (cfg_Classifier cfg) safe expl o {[c := lookupSet nbc c]})
    tr fq v p n s1 Hfq Hp) as Hadd.
  revert seen. set (P := fun acc : option (gmap (string * Capability) CapabilityInfo) =>
    forall seen, acc = Some seen -> is_Some (seen !! (p, c))).
  apply (foldl_invariant P); [|intros seen [= <-]; done].
  intros acc c' _ Hacc seen. unfold F0. destruct acc as [s|]; [|done].
  destruct (Has c'); [|by apply Hacc].
  destruct (capabilityGraphSearch o g node_out queried (cfg_Classifier cfg) safe expl
              {[c' := lookupSet nbc c']}) as [tr'|]; [|done]. intros [= <-].
  apply intermediateEvents_mono. by apply Hacc.
Qed.

Lemma map_fmap_list {A B} (f : A -> B) (l : list A) : map f l = f <$> l.
Proof. induction l as [|x l IH]; simpl; [done|]. by rewrite IH. Qed.

Lemma seen_values_NoDup (seen : gmap (string * Capability) CapabilityInfo) :
  seenKeyed seen -> NoDup (map snd (map_to_list seen)).
Proof.
  intros Hk. rewrite map_fmap_list.
  apply (NoDup_fmap_1 (fun ci => (ci_packageDir ci, ci_capability ci))).
  rewrite <- list_fmap_compose.
  assert (E : ((fun ci => (ci_packageDir ci, ci_capability ci)) ∘ snd) <$> map_to_list seen =
              fst <$> map_to_list seen).
  { apply list_fmap_ext. intros i [k ci] Hin.
    apply list_elem_of_lookup_2, elem_of_map_to_list in Hin.
    simpl. symmetry. by apply Hk. }
  rewrite E. apply NoDup_fst_map_to_list.
Qed.

Lemma seen_values_elem (seen : gmap (string * Capability) CapabilityInfo) ci :
  ci ∈ map snd (map_to_list seen) <-> exists k, seen !! k = Some ci.
Proof.
  rewrite list_elem_of_In, in_map_iff. split.
  - intros ([k x] & <- & Hin). apply list_elem_of_In, elem_of_map_to_list in Hin. eauto.
  - intros [k Hk]. exists (k, ci). split; [done|]. apply list_elem_of_In. by apply elem_of_map_to_list.
Qed.

Lemma seen_sorted (seen : gmap (string * Capability) CapabilityInfo) l :
  seenKeyed seen -> l ≡ₚ map snd (map_to_list seen) ->
  StronglySorted (fun a b => intermediateLess a b = true) (sortBy intermediateLess l).
Proof.
  intros Hk Hp. apply (sortBy_sorted _ (fun ci => exists k, seen !! k = Some ci)).
  - apply intermediateLess_irrefl.
  - apply intermediateLess_trans.
  - intros x y [kx Hx] [ky Hy] Hne. apply intermediateLess_total.
    intros [= Hc Hd]. apply Hne. apply Hk in Hx as Ex, Hy as Ey.
    assert (kx = ky) by (rewrite Ex, Ey; congruence). subst. congruence.
  - apply Forall_forall. intros ci Hci. rewrite Hp in Hci. by apply seen_values_elem.
  - rewrite Hp. by apply seen_values_NoDup.
Qed.
End IntermediateProofs.

(** [intermediatePackages]: the records are sorted by capability
    number, then package path, and no two have the same capability and
    package path. *)
Theorem intermediatePackages_sorted nodeToPackage Has order_seen o g node_out
    reflectFns unsafeFns queried cfg cis :
  (forall m, order_seen m ≡ₚ map snd (map_to_list m)) ->
  intermediatePackages_in nodeToPackage Has order_seen o g node_out reflectFns unsafeFns
    queried cfg = Some cis ->
  StronglySorted (fun a b => intermediateLess a b = true) cis /\
  NoDup (map (fun ci => (ci_capability ci, ci_packageDir ci)) cis).
Proof.
  intros Hos. unfold intermediatePackages_in.
  destruct (intermediateSeen nodeToPackage Has o g node_out reflectFns unsafeFns queried cfg)
    as [seen|] eqn:Hs; [|done]. intros [= <-].
  assert (Hsort := seen_sorted seen (order_seen seen)
                     (intermediateSeen_keyed nodeToPackage Has _ _ _ _ _ _ _ seen Hs) (Hos seen)).
  split; [done|]. apply (StronglySorted_NoDup_map _ _ _ Hsort).
  intros a b Hab Heq. injection Heq as Hc Hd. apply intermediateLess_true in Hab.
  rewrite Hc, Hd in Hab. rewrite (CmpOrder_refl String.compare _ string_CmpOrder) in Hab.
  destruct Hab as [H|[_ H]]; [lia|done].
Qed.

(** [intermediatePackages]: each record is for a capability that
    [CapabilitySet.Has] accepts and that has a nodeset, and names the
    package of a function that is not safe and reaches a node of that
    capability's nodeset; unless paths are omitted, that function is on
    the record's path. *)
Theorem intermediatePackages_sound nodeToPackage Has order_seen o g node_out
    reflectFns unsafeFns queried cfg cis ci :
  validIterators o ->
  (forall m, order_seen m ≡ₚ map snd (map_to_list m)) ->
  intermediatePackages_in nodeToPackage Has order_seen o g node_out reflectFns unsafeFns
    queried cfg = Some cis ->
  ci ∈ cis ->
  let '(safe, nbc, expl) := classifyAndMerge_in o g reflectFns unsafeFns cfg in
  Has (ci_capability ci) = true /\ is_Some (nbc !! ci_capability ci) /\
  exists v, nodeToPackage v = Some (ci_packageDir ci, ci_packageName ci) /\
    (v ∉ safe) /\
    reachesCapability g (cfg_Classifier cfg) safe expl
      {[ci_capability ci := lookupSet nbc (ci_capability ci)]} v /\
    (cfg_OmitPaths cfg = false -> exists e, (v, e) ∈ ci_path ci).
Proof.
  intros Ho Hos. unfold intermediatePackages_in.
  destruct (intermediateSeen nodeToPackage Has o g node_out reflectFns unsafeFns queried cfg)
    as [seen|] eqn:Hs; [|done]. intros [= <-] Hci.
  pose proof (intermediateSeen_ok nodeToPackage Has o g node_out reflectFns unsafeFns queried
                cfg seen Ho Hs) as Hok.
  destruct (classifyAndMerge_in o g reflectFns unsafeFns cfg) as [[safe nbc] expl].
  rewrite (sortBy_perm _ _), Hos, seen_values_elem in Hci. destruct Hci as [k Hk].
  by destruct (Hok k ci Hk) as (? & ? & ? & _).
Qed.

(** [intermediatePackages]: each record's path is empty when paths are
    omitted; otherwise it is not empty and every entry after the first
    carries a call edge accepted by [IncludeCall] from the previous
    entry's function to its own. *)
Theorem intermediatePackages_paths nodeToPackage Has order_seen o g node_out
    reflectFns unsafeFns queried cfg cis ci :
  validIterators o ->
  (forall m, order_seen m ≡ₚ map snd (map_to_list m)) ->
  intermediatePackages_in nodeToPackage Has order_seen o g node_out reflectFns unsafeFns
    queried cfg = Some cis ->
  ci ∈ cis ->
  if cfg_OmitPaths cfg then ci_path ci = []
  else ci_path ci <> [] /\ edgeChain (cfg_Classifier cfg) (ci_path ci).
Proof.
  intros Ho Hos. unfold intermediatePackages_in.
  destruct (intermediateSeen nodeToPackage Has o g node_out reflectFns unsafeFns queried cfg)
    as [seen|] eqn:Hs; [|done]. intros [= <-] Hci.
  pose proof (intermediateSeen_ok nodeToPackage Has o g node_out reflectFns unsafeFns queried
                cfg seen Ho Hs) as Hok.
  destruct (classifyAndMerge_in o g reflectFns unsafeFns cfg) as [[safe nbc] expl].
  rewrite (sortBy_perm _ _), Hos, seen_values_elem in Hci. destruct Hci as [k Hk].
  by destruct (Hok k ci Hk) as (_ & _ & _ & ?).
Qed.

(** [intermediatePackages]: for every capability that [Has] accepts,
    every function output by [CapabilityGraph]'s search for it whose
    package [nodeToPackage] gives has a record for that capability and
    package path. *)
Theorem intermediatePackages_complete nodeToPackage Has order_seen o g node_out
    reflectFns unsafeFns queried cfg cis c tr v p n :
  validIterators o ->
  (forall m, order_seen m ≡ₚ map snd (map_to_list m)) ->
  intermediatePackages_in nodeToPackage Has order_seen o g node_out reflectFns unsafeFns
    queried cfg = Some cis ->
  let cm := classifyAndMerge_in o g reflectFns unsafeFns cfg in
  Has c = true -> is_Some (cm.1.2 !! c) ->
  capabilityGraphSearch o g node_out queried (cfg_Classifier cfg) cm.1.1 cm.2
    {[c := lookupSet cm.1.2 c]} = Some tr ->
  v ∈ outputNodes tr -> nodeToPackage v = Some (p, n) ->
  exists ci, ci ∈ cis /\ ci_capability ci = c /\ ci_packageDir ci = p.
Proof.
  intros Ho Hos. unfold intermediatePackages_in.
  destruct (intermediateSeen nodeToPackage Has o g node_out reflectFns unsafeFns queried cfg)
    as [seen|] eqn:Hs; [|done]. intros [= <-] Hc Hnbc Htr Hv Hp.
  pose proof (intermediateSeen_complete nodeToPackage Has o g node_out reflectFns unsafeFns
                queried cfg seen Ho Hs) as Hcomp.
  pose proof (intermediateSeen_keyed nodeToPackage Has o g node_out reflectFns unsafeFns
                queried cfg seen Hs) as Hk.
  destruct (classifyAndMerge_in o g reflectFns unsafeFns cfg) as [[safe nbc] expl].
  simpl in *. destruct (Hcomp c tr v p n Hnbc Hc Htr Hv Hp) as [ci Hci].
  exists ci. pose proof (Hk _ _ Hci) as Hkey. injection Hkey as <- <-. split_and!; [|done|done].
  rewrite (sortBy_perm _ _), Hos, seen_values_elem. eauto.
Qed.

(** [intermediatePackages]: the result does not depend on the order in
    which [range seen] visits the map. *)
Theorem intermediatePackages_seen_order nodeToPackage Has order_seen1 order_seen2 o g node_out
    reflectFns unsafeFns queried cfg :
  (forall m, order_seen1 m ≡ₚ map snd (map_to_list m)) ->
  (forall m, order_seen2 m ≡ₚ map snd (map_to_list m)) ->
  intermediatePackages_in nodeToPackage Has order_seen1 o g node_out reflectFns unsafeFns queried cfg =
  intermediatePackages_in nodeToPackage Has order_seen2 o g node_out reflectFns unsafeFns queried cfg.
Proof.
  intros H1 H2. unfold intermediatePackages_in.
  destruct (intermediateSeen nodeToPackage Has o g node_out reflectFns unsafeFns queried cfg)
    as [seen|] eqn:Hs; [|done].
  pose proof (intermediateSeen_keyed nodeToPackage Has o g node_out reflectFns unsafeFns
                queried cfg seen Hs) as Hk.
  f_equal. apply (sortBy_unique intermediateLess (fun ci => exists k, seen !! k = Some ci)).
  - apply intermediateLess_irrefl.
  - apply intermediateLess_trans.
  - intros x y [kx Hx] [ky Hy] Hne. apply intermediateLess_total.
    intros [= Hc Hd]. apply Hne. apply Hk in Hx as Ex, Hy as Ey.
    assert (kx = ky) by (rewrite Ex, Ey; congruence). subst. congruence.
  - by rewrite H1, H2.
  - rewrite H1. by apply seen_values_NoDup.
  - apply Forall_forall. intros ci Hci. rewrite H1 in Hci. by apply seen_values_elem.
Qed.

Lemma exOrderSeen_valid : forall m, exOrderSeen m ≡ₚ map snd (map_to_list m).
Proof. intros m. reflexivity. Qed.

Lemma intermediatePackages_sorted_witness :
  let cis := default [] (exIntermediate false) in
  (forall m, exOrderSeen m ≡ₚ map snd (map_to_list m)) /\
  intermediatePackages_in exNodeToPackage (fun _ => true) exOrderSeen exOrder exGraph exNodeOut
    ∅ ∅ exQueried (exIntermediateConfig false) = Some cis /\
  StronglySorted (fun a b => intermediateLess a b = true) cis /\
  NoDup (map (fun ci => (ci_capability ci, ci_packageDir ci)) cis).
Proof.
  intros cis.
  assert (Hs : intermediatePackages_in exNodeToPackage (fun _ => true) exOrderSeen exOrder exGraph
                 exNodeOut ∅ ∅ exQueried (exIntermediateConfig false) = Some cis)
    by (vm_compute; reflexivity).
  split; [exact exOrderSeen_valid|]. split; [exact Hs|].
  exact (intermediatePackages_sorted exNodeToPackage (fun _ => true) exOrderSeen exOrder exGraph
           exNodeOut ∅ ∅ exQueried (exIntermediateConfig false) cis exOrderSeen_valid Hs).
Defined.

Lemma intermediatePackages_sound_witness :
  let cis := default [] (exIntermediate false) in
  let cfg := exIntermediateConfig false in
  validIterators exOrder /\
  (forall m, exOrderSeen m ≡ₚ map snd (map_to_list m)) /\
  intermediatePackages_in exNodeToPackage (fun _ => true) exOrderSeen exOrder exGraph exNodeOut
    ∅ ∅ exQueried cfg = Some cis /\
  exLibRecord ∈ cis /\
  let '(safe, nbc, expl) := classifyAndMerge_in exOrder exGraph ∅ ∅ cfg in
  (fun _ => true) (ci_capability exLibRecord) = true /\ is_Some (nbc !! ci_capability exLibRecord) /\
  exists v, exNodeToPackage v = Some (ci_packageDir exLibRecord, ci_packageName exLibRecord) /\
    (v ∉ safe) /\
    reachesCapability exGraph (cfg_Classifier cfg) safe expl
      {[ci_capability exLibRecord := lookupSet nbc (ci_capability exLibRecord)]} v /\
    (cfg_OmitPaths cfg = false -> exists e, (v, e) ∈ ci_path exLibRecord).
Proof.
  intros cis cfg.
  assert (Ho : validIterators exOrder) by apply canonicalOrder_iterators.
  assert (Hs : intermediatePackages_in exNodeToPackage (fun _ => true) exOrderSeen exOrder exGraph
                 exNodeOut ∅ ∅ exQueried cfg = Some cis)
    by (vm_compute; reflexivity).
  assert (Hci : exLibRecord ∈ cis)
    by (apply list_elem_of_In; vm_compute; right; left; reflexivity).
  split; [exact Ho|]. split; [exact exOrderSeen_valid|]. split; [exact Hs|]. split; [exact Hci|].
  exact (intermediatePackages_sound exNodeToPackage (fun _ => true) exOrderSeen exOrder exGraph
           exNodeOut ∅ ∅ exQueried cfg cis exLibRecord Ho exOrderSeen_valid Hs Hci).
Defined.

Lemma intermediatePackages_paths_witness :
  let cis := default [] (exIntermediate false) in
  let cfg := exIntermediateConfig false in
  validIterators exOrder /\
  (forall m, exOrderSeen m ≡ₚ map snd (map_to_list m)) /\
  intermediatePackages_in exNodeToPackage (fun _ => true) exOrderSeen exOrder exGraph exNodeOut
    ∅ ∅ exQueried cfg = Some cis /\
  exLibRecord ∈ cis /\
  (if cfg_OmitPaths cfg then ci_path exLibRecord = []
   else ci_path exLibRecord <> [] /\ edgeChain (cfg_Classifier cfg) (ci_path exLibRecord)).
Proof.
  intros cis cfg.
  assert (Ho : validIterators exOrder) by apply canonicalOrder_iterators.
  assert (Hs : intermediatePackages_in exNodeToPackage (fun _ => true) exOrderSeen exOrder exGraph
                 exNodeOut ∅ ∅ exQueried cfg = Some cis)
    by (vm_compute; reflexivity).
  assert (Hci : exLibRecord ∈ cis)
    by (apply list_elem_of_In; vm_compute; right; left; reflexivity).
  split; [exact Ho|]. split; [exact exOrderSeen_valid|]. split; [exact Hs|]. split; [exact Hci|].
  exact (intermediatePackages_paths exNodeToPackage (fun _ => true) exOrderSeen exOrder exGraph
           exNodeOut ∅ ∅ exQueried cfg cis exLibRecord Ho exOrderSeen_valid Hs Hci).
Defined.

Lemma intermediatePackages_complete_witness :
  let cis := default [] (exIntermediate false) in
  let cfg := exIntermediateConfig false in
  let cm := classifyAndMerge_in exOrder exGraph ∅ ∅ cfg in
  let tr := default [] (capabilityGraphSearch exOrder exGraph exNodeOut exQueried
              (cfg_Classifier cfg) cm.1.1 cm.2
              {[CAPABILITY_FILES := lookupSet cm.1.2 CAPABILITY_FILES]}) in
  validIterators exOrder /\
  (forall m, exOrderSeen m ≡ₚ map snd (map_to_list m)) /\
  intermediatePackages_in exNodeToPackage (fun _ => true) exOrderSeen exOrder exGraph exNodeOut
    ∅ ∅ exQueried cfg = Some cis /\
  is_Some (cm.1.2 !! CAPABILITY_FILES) /\
  capabilityGraphSearch exOrder exGraph exNodeOut exQueried (cfg_Classifier cfg) cm.1.1 cm.2
    {[CAPABILITY_FILES := lookupSet cm.1.2 CAPABILITY_FILES]} = Some tr /\
  2 ∈ outputNodes tr /\ exNodeToPackage 2 = Some ("example.com/lib", "example.com/lib") /\
  exists ci, ci ∈ cis /\ ci_capability ci = CAPABILITY_FILES /\ ci_packageDir ci = "example.com/lib".
Proof.
  intros cis cfg cm tr.
  assert (Ho : validIterators exOrder) by apply canonicalOrder_iterators.
  assert (Hs : intermediatePackages_in exNodeToPackage (fun _ => true) exOrderSeen exOrder exGraph
                 exNodeOut ∅ ∅ exQueried cfg = Some cis)
    by (vm_compute; reflexivity).
  assert (Hnbc : is_Some (cm.1.2 !! CAPABILITY_FILES)) by (vm_compute; eexists; reflexivity).
  assert (Htr : capabilityGraphSearch exOrder exGraph exNodeOut exQueried (cfg_Classifier cfg)
                  cm.1.1 cm.2 {[CAPABILITY_FILES := lookupSet cm.1.2 CAPABILITY_FILES]} = Some tr)
    by (vm_compute; reflexivity).
  assert (Hv : 2 ∈ outputNodes tr) by by_computation.
  assert (Hp : exNodeToPackage 2 = Some ("example.com/lib", "example.com/lib")) by reflexivity.
  split; [exact Ho|]. split; [exact exOrderSeen_valid|]. split; [exact Hs|].
  split; [exact Hnbc|]. split; [exact Htr|]. split; [exact Hv|]. split; [exact Hp|].
  exact (intermediatePackages_complete exNodeToPackage (fun _ => true) exOrderSeen exOrder exGraph
           exNodeOut ∅ ∅ exQueried cfg cis CAPABILITY_FILES tr 2 "example.com/lib" "example.com/lib"
           Ho exOrderSeen_valid Hs eq_refl Hnbc Htr Hv Hp).
Defined.

Lemma intermediatePackages_seen_order_witness :
  (forall m, exOrderSeen m ≡ₚ map snd (map_to_list m)) /\
  (forall m, reverse (exOrderSeen m) ≡ₚ map snd (map_to_list m)) /\
  intermediatePackages_in exNodeToPackage (fun _ => true) exOrderSeen exOrder exGraph exNodeOut
    ∅ ∅ exQueried (exIntermediateConfig false) =
  intermediatePackages_in exNodeToPackage (fun _ => true) (fun m => reverse (exOrderSeen m))
    exOrder exGraph exNodeOut ∅ ∅ exQueried (exIntermediateConfig false).
Proof.
  assert (H2 : forall m, reverse (exOrderSeen m) ≡ₚ map snd (map_to_list m))
    by (intros m; rewrite reverse_Permutation; reflexivity).
  split; [exact exOrderSeen_valid|]. split; [exact H2|].
  exact (intermediatePackages_seen_order exNodeToPackage (fun _ => true) exOrderSeen
           (fun m => reverse (exOrderSeen m)) exOrder exGraph exNodeOut ∅ ∅ exQueried
           (exIntermediateConfig false) exOrderSeen_valid H2).
Defined.
